(** * MyHome Mind: the state-synchronisation core of [src/App.jsx]

    A shallow embedding of the data model and of the handlers of the
    [App] component: the snapshot subscription, [saveData], [updateItem],
    [deleteItem], the winner toggle of the Trophy button, the drag-and-drop
    reordering, the identifier backfill and the search filters.

    Conventions of the embedding.
    - A handler of the component closes over the state of the render it was
      created in, and its [setX] calls install the next state.  A handler is
      therefore a function from the [World] (component state and remote
      store) to the next [World]; every read inside it goes to the argument.
    - A handler in which JavaScript throws a [TypeError] returns [None].
    - A string is held as the bytes of its UTF-8 text, on which equality
      and [includes] are what they are on the text.  [toLowerCase] is a
      built-in of the language and an input of the model ([JS.CaseFold]),
      known by what it does on ASCII text.
    - [Date.now()], [crypto.randomUUID()] and the answer of the remote store
      to a write are inputs, gathered in the record [Env]. *)

From Stdlib Require Import String Ascii List Bool Arith ZArith Lia Permutation.
From Stdlib Require Import DecimalString.
From stdpp Require Import base option list gmap strings.
Import ListNotations.

Local Open Scope string_scope.
Local Open Scope list_scope.
Local Open Scope nat_scope.

(** ** JavaScript values used by the component *)

Module JS.

(** A property of an object or an argument of a call: missing
    ([undefined]), [null], or a value. *)
Inductive field (A : Type) : Type :=
| Undefined
| Null
| Value (a : A).
Arguments Undefined {A}.
Arguments Null {A}.
Arguments Value {A} a.

(** [v !== undefined && v !== null] *)
Definition provided {A} (v : field A) : bool :=
  match v with Value _ => true | _ => false end.

(** Truthiness of a property that holds an array when it holds anything:
    every array, the empty one too, is truthy. *)
Definition truthy {A} (v : field A) : bool :=
  match v with Value _ => true | _ => false end.

(** Truthiness of a string property; the empty string is falsy. *)
Definition truthyStr (v : option string) : bool :=
  match v with
  | Some s => negb (String.eqb s "")
  | None => false
  end.

(** [v || ''] on a string property. *)
Definition orEmpty (v : option string) : string :=
  match v with Some s => s | None => "" end.

(** [!w] on a boolean property that may be missing. *)
Definition not (w : option bool) : bool :=
  match w with Some true => false | _ => true end.

Definition lowerChar (c : ascii) : ascii :=
  let n := nat_of_ascii c in
  if (65 <=? n) && (n <=? 90) then ascii_of_nat (n + 32) else c.

(** The fold of the letters A-Z, one by one. *)
Fixpoint lowerAscii (s : string) : string :=
  match s with
  | EmptyString => EmptyString
  | String c s' => String (lowerChar c) (lowerAscii s')
  end.

(** A text of ASCII characters: every byte is below 128. *)
Fixpoint isAsciiText (s : string) : bool :=
  match s with
  | EmptyString => true
  | String c s' => (nat_of_ascii c <? 128) && isAsciiText s'
  end.

(** [s.toLowerCase()].  [String.prototype.toLowerCase] follows the Unicode
    case mappings, some of which look at the letters around (a capital sigma
    at the end of a word becomes a final sigma); the model takes the
    function as given, together with what it is on ASCII text: the fold of
    A-Z. *)
Class CaseFold : Type := {
  toLowerCase : string -> string;
  toLowerCase_ascii :
    forall s : string, isAsciiText s = true -> toLowerCase s = lowerAscii s
}.

(** The fold of the examples, whose texts are ASCII. *)
Definition asciiFold : CaseFold :=
  {| toLowerCase := lowerAscii; toLowerCase_ascii := fun s _ => eq_refl |}.

(** [s.startsWith(q)], the test [includes] makes at each position. *)
Fixpoint startsWith (s q : string) {struct q} : bool :=
  match q, s with
  | EmptyString, _ => true
  | String _ _, EmptyString => false
  | String a q', String b s' => Ascii.eqb a b && startsWith s' q'
  end.

(** [s.includes(q)] *)
Fixpoint includes (s q : string) : bool :=
  startsWith s q ||
  match s with
  | EmptyString => false
  | String _ s' => includes s' q
  end.

(** [Array.prototype.splice(start, 1)]: the removed elements and the
    array that is left.  A [start] past the end removes nothing. *)
Definition spliceOut {A} (start : nat) (l : list A) : list A * list A :=
  (take 1 (drop start l), take start l ++ drop (S start) l).

(** [Array.prototype.splice(start, 0, x)]: a [start] past the end
    appends. *)
Definition spliceIn {A} (start : nat) (x : A) (l : list A) : list A :=
  take start l ++ x :: drop start l.

End JS.
Export JS (field, Undefined, Null, Value).

(** ** Data model *)

(** An Option of an Item.  [opt_id] is missing on documents written
    before identifiers existed; [winner] is written as a boolean. *)
Record Opt : Type := mkOpt {
  opt_id : option string;
  opt_model : option string;
  opt_price : option string;
  opt_store : option string;
  opt_link : option string;
  opt_notes : option string;
  opt_winner : option bool;
  opt_image : option string
}.

Record Item : Type := mkItem {
  item_id : string;
  item_spaceId : string;
  item_name : option string;
  item_options : option (list Opt);
  item_image : option string;
  item_order : nat
}.

Record Space : Type := mkSpace {
  space_id : string;
  space_name : option string;
  space_image : option string
}.

(** An entry of the groceries or of the repairs checklist. *)
Record Entry : Type := mkEntry {
  entry_id : string;
  entry_text : option string;
  entry_completed : bool
}.

(** The persisted document.  Every top-level key may be missing. *)
Record Document : Type := mkDocument {
  doc_spaces : field (list Space);
  doc_items : field (list Item);
  doc_groceries : field (list Entry);
  doc_repairs : field (list Entry);
  doc_lastUpdated : field Z
}.

(** The four collection keys of a document. *)
Inductive Key : Type := Kspaces | Kitems | Kgroceries | Krepairs.

Definition KeyT (k : Key) : Type :=
  match k with
  | Kspaces => list Space
  | Kitems => list Item
  | Kgroceries => list Entry
  | Krepairs => list Entry
  end.

Definition docField (k : Key) (d : Document) : field (KeyT k) :=
  match k with
  | Kspaces => doc_spaces d
  | Kitems => doc_items d
  | Kgroceries => doc_groceries d
  | Krepairs => doc_repairs d
  end.

Definition emptyDocument : Document :=
  mkDocument Undefined Undefined Undefined Undefined Undefined.

(** The remote store: documents by path (the segments given to [doc]). *)
Abbreviation Remote := (gmap (list string) Document).

(** What a reader of the store sees under key [k] at [path]. *)
Definition remoteField (k : Key) (path : list string) (r : Remote)
  : field (KeyT k) :=
  match r !! path with
  | Some d => docField k d
  | None => Undefined
  end.

Definition remoteLastUpdated (path : list string) (r : Remote) : field Z :=
  match r !! path with
  | Some d => doc_lastUpdated d
  | None => Undefined
  end.

Record User : Type := mkUser { uid : string }.

(** The [useState] cells of [App] that the handlers read or write. *)
Record AppState : Type := mkAppState {
  user : option User;
  searchQuery : string;
  spaces : list Space;
  items : list Item;
  groceries : list Entry;
  repairs : list Entry;
  selectedItem : option Item;
  isReadOnly : bool;
  loading : bool;
  draggedOptionIdx : option nat
}.

Definition DEFAULT_SPACES : list Space :=
  [ mkSpace "1" (Some "Living Room") None;
    mkSpace "2" (Some "Kitchen") None;
    mkSpace "3" (Some "Bathroom") None;
    mkSpace "4" (Some "Master Bedroom") None;
    mkSpace "5" (Some "Wardrobe") None;
    mkSpace "6" (Some "Kids' Room") None;
    mkSpace "7" (Some "Garden") None ].

(** The state of the first render. *)
Definition initialState : AppState :=
  mkAppState None "" DEFAULT_SPACES [] [] [] None false true None.

Definition setSpaces (v : list Space) (s : AppState) : AppState :=
  mkAppState (user s) (searchQuery s) v (items s) (groceries s) (repairs s)
    (selectedItem s) (isReadOnly s) (loading s) (draggedOptionIdx s).

Definition setItems (v : list Item) (s : AppState) : AppState :=
  mkAppState (user s) (searchQuery s) (spaces s) v (groceries s) (repairs s)
    (selectedItem s) (isReadOnly s) (loading s) (draggedOptionIdx s).

Definition setGroceries (v : list Entry) (s : AppState) : AppState :=
  mkAppState (user s) (searchQuery s) (spaces s) (items s) v (repairs s)
    (selectedItem s) (isReadOnly s) (loading s) (draggedOptionIdx s).

Definition setRepairs (v : list Entry) (s : AppState) : AppState :=
  mkAppState (user s) (searchQuery s) (spaces s) (items s) (groceries s) v
    (selectedItem s) (isReadOnly s) (loading s) (draggedOptionIdx s).

Definition setSelectedItem (v : option Item) (s : AppState) : AppState :=
  mkAppState (user s) (searchQuery s) (spaces s) (items s) (groceries s)
    (repairs s) v (isReadOnly s) (loading s) (draggedOptionIdx s).

Definition setLoading (v : bool) (s : AppState) : AppState :=
  mkAppState (user s) (searchQuery s) (spaces s) (items s) (groceries s)
    (repairs s) (selectedItem s) (isReadOnly s) v (draggedOptionIdx s).

Definition setDraggedOptionIdx (v : option nat) (s : AppState) : AppState :=
  mkAppState (user s) (searchQuery s) (spaces s) (items s) (groceries s)
    (repairs s) (selectedItem s) (isReadOnly s) (loading s) v.

(** The component together with the store it writes to. *)
Record World : Type := mkWorld {
  app : AppState;
  remote : Remote
}.

Definition onApp (f : AppState -> AppState) (w : World) : World :=
  mkWorld (f (app w)) (remote w).

(** What a handler takes from outside the component while it runs. *)
Record Env : Type := mkEnv {
  appId : string;
  now : Z;                     (* Date.now() *)
  randomUUID : nat -> string;  (* the k-th crypto.randomUUID() of the call *)
  storeAccepts : bool          (* false: setDoc rejects, the catch logs it *)
}.

(** ** Data sync *)

(** [doc(db, 'artifacts', appId, 'users', user.uid, 'personal', 'settings')] *)
Definition userDoc (e : Env) (u : User) : list string :=
  ["artifacts"; appId e; "users"; uid u; "personal"; "settings"].

(** The store's merge write, [setDoc(ref, updates, { merge: true })]: a key
    of [updates] replaces the document's, every other key of the document
    stays, and a missing document is created. *)
Definition mergeField {A} (upd old : field A) : field A :=
  match upd with
  | Undefined => old
  | _ => upd
  end.

Definition mergeDocument (updates old : Document) : Document :=
  mkDocument
    (mergeField (doc_spaces updates) (doc_spaces old))
    (mergeField (doc_items updates) (doc_items old))
    (mergeField (doc_groceries updates) (doc_groceries old))
    (mergeField (doc_repairs updates) (doc_repairs old))
    (mergeField (doc_lastUpdated updates) (doc_lastUpdated old)).

Definition setDocMerge (ref : list string) (updates : Document) (r : Remote)
  : Remote :=
  <[ref := mergeDocument updates (default emptyDocument (r !! ref))]> r.

(** The subscription callback of [onSnapshot]; [snapshot] is [None] when
    [snapshot.exists()] is false.  A test [if (data.key)] passes exactly on
    a key that holds an array ([JS.truthy]). *)
Definition onSnapshot (snapshot : option Document) (s : AppState) : AppState :=
  let s :=
    match snapshot with
    | Some data =>
        let s := match doc_spaces data with
                 | Value v => setSpaces v s
                 | _ => s
                 end in
        let s := match doc_items data with
                 | Value v => setItems v s
                 | _ => s
                 end in
        let s := match doc_groceries data with
                 | Value v => setGroceries v s
                 | _ => s
                 end in
        let s := match doc_repairs data with
                 | Value v => setRepairs v s
                 | _ => s
                 end in
        s
    | None => s
    end in
  setLoading false s.

(** An argument enters [updates] when it is neither [undefined] nor
    [null]. *)
Definition keep {A} (v : field A) : field A :=
  if JS.provided v then v else Undefined.

(** The object [updates] that [saveData] builds. *)
Definition saveUpdates (e : Env) (newSpaces : field (list Space))
    (newItems : field (list Item)) (newGroceries newRepairs : field (list Entry))
  : Document :=
  mkDocument (keep newSpaces) (keep newItems) (keep newGroceries)
    (keep newRepairs) (Value (now e)).

Definition saveData (e : Env) (newSpaces : field (list Space))
    (newItems : field (list Item)) (newGroceries newRepairs : field (list Entry))
    (w : World) : World :=
  match user (app w) with
  | None => w
  | Some u =>
      if isReadOnly (app w) then w
      else
        let docRef := userDoc e u in
        let updates :=
          saveUpdates e newSpaces newItems newGroceries newRepairs in
        if storeAccepts e
        then mkWorld (app w) (setDocMerge docRef updates (remote w))
        else w
  end.

(** ** Item actions *)

(** The object given to [updateItem]: [{ name: ... }] or
    [{ options: ... }].  [None] is a key the object does not have. *)
Record ItemUpdates : Type := mkItemUpdates {
  upd_name : option string;
  upd_options : option (list Opt)
}.

Definition nameUpdate (n : string) : ItemUpdates := mkItemUpdates (Some n) None.
Definition optionsUpdate (l : list Opt) : ItemUpdates := mkItemUpdates None (Some l).

(** [{ ...i, ...updates }] *)
Definition spread (i : Item) (updates : ItemUpdates) : Item :=
  mkItem (item_id i) (item_spaceId i)
    (match upd_name updates with Some n => Some n | None => item_name i end)
    (match upd_options updates with Some l => Some l | None => item_options i end)
    (item_image i) (item_order i).

Definition updateItem (e : Env) (itemId : string) (updates : ItemUpdates)
    (w : World) : World :=
  let updated :=
    map (fun i => if String.eqb (item_id i) itemId then spread i updates else i)
        (items (app w)) in
  let w1 := onApp (setItems updated) w in
  let w2 := saveData e Null (Value updated) Null Undefined w1 in
  match selectedItem (app w) with
  | Some sel =>
      if String.eqb (item_id sel) itemId
      then onApp (setSelectedItem (Some (spread sel updates))) w2
      else w2
  | None => w2
  end.

Definition deleteItem (e : Env) (itemId : string) (w : World) : World :=
  let updated :=
    List.filter (fun i => negb (String.eqb (item_id i) itemId)) (items (app w)) in
  let w1 := onApp (setItems updated) w in
  let w2 := saveData e Null (Value updated) Null Undefined w1 in
  onApp (setSelectedItem None) w2.

(** ** The winner toggle (Trophy button of option [idx])

    The handler copies the array and writes [winner] on the objects in it.
    The slots of an options array are distinct objects (they come from a
    decoded snapshot, from the literal of Add Option or from a spread
    copy), so a write through one slot is a change of that slot alone. *)

Definition setWinner (v : bool) (o : Opt) : Opt :=
  mkOpt (opt_id o) (opt_model o) (opt_price o) (opt_store o) (opt_link o)
    (opt_notes o) (Some v) (opt_image o).

Definition toggleWinner (idx : nat) (options : list Opt) : option (list Opt) :=
  match options !! idx with
  | None => None
  | Some o =>
      let won := JS.not (opt_winner o) in
      let newOptions := <[idx := setWinner won o]> options in
      Some (if won
            then imap (fun i o => if Nat.eqb i idx then o else setWinner false o)
                      newOptions
            else newOptions)
  end.

Definition onWinnerClick (e : Env) (idx : nat) (w : World) : option World :=
  match selectedItem (app w) with
  | None => None
  | Some sel =>
      match item_options sel with
      | None => None
      | Some options =>
          match toggleWinner idx options with
          | None => None
          | Some newOptions =>
              Some (updateItem e (item_id sel) (optionsUpdate newOptions) w)
          end
      end
  end.

(** [winner === true] *)
Definition isWinner (o : Opt) : bool :=
  match opt_winner o with Some true => true | _ => false end.

Definition countWinners (l : list Opt) : nat := length (List.filter isWinner l).

(** ** Option reordering *)

Definition handleOptionDragStart (index : nat) (w : World) : World :=
  onApp (setDraggedOptionIdx (Some index)) w.

(** The two [splice] calls of [handleOptionDrop].  A slot of the copied
    array holds an Option or, after a stale drag index, [undefined]
    ([None]). *)
Definition moveOption (from to : nat) (options : list Opt) : list (option Opt) :=
  let newOptions := map Some options in
  let '(removed, newOptions) := JS.spliceOut from newOptions in
  let draggedOption :=
    match removed with
    | x :: _ => x
    | [] => None
    end in
  JS.spliceIn to draggedOption newOptions.

(** An array as a value of the typed state: none when a slot is
    [undefined]. *)
Fixpoint allDefined (l : list (option Opt)) : option (list Opt) :=
  match l with
  | [] => Some []
  | None :: _ => None
  | Some o :: t =>
      match allDefined t with
      | Some t' => Some (o :: t')
      | None => None
      end
  end.

Definition handleOptionDrop (e : Env) (dropIndex : nat) (w : World)
  : option World :=
  match draggedOptionIdx (app w) with
  | None => Some w
  | Some dragged =>
      if Nat.eqb dragged dropIndex then Some w
      else
        match selectedItem (app w) with
        | None => None
        | Some sel =>
            match item_options sel with
            | None => None
            | Some options =>
                match allDefined (moveOption dragged dropIndex options) with
                | None => None
                | Some newOptions =>
                    Some (onApp (setDraggedOptionIdx None)
                            (updateItem e (item_id sel)
                               (optionsUpdate newOptions) w))
                end
            end
        end
  end.

(** ** Identifier backfill (the effect on [selectedItem]) *)

Definition setId (v : string) (o : Opt) : Opt :=
  mkOpt (Some v) (opt_model o) (opt_price o) (opt_store o) (opt_link o)
    (opt_notes o) (opt_winner o) (opt_image o).

(** [options.map(o => o.id ? o : { ...o, id: crypto.randomUUID() })];
    [k] counts the identifiers drawn so far. *)
Fixpoint patchOptions (gen : nat -> string) (k : nat) (options : list Opt)
  : list Opt :=
  match options with
  | [] => []
  | o :: t =>
      if JS.truthyStr (opt_id o)
      then o :: patchOptions gen k t
      else setId (gen k) o :: patchOptions gen (S k) t
  end.

Definition lacksId (o : Opt) : bool := negb (JS.truthyStr (opt_id o)).

Definition migrationEffect (e : Env) (w : World) : World :=
  match selectedItem (app w) with
  | Some sel =>
      match item_options sel with
      | Some options =>
          if existsb lacksId options
          then
            let patchedOptions := patchOptions (randomUUID e) 0 options in
            updateItem e (item_id sel) (optionsUpdate patchedOptions) w
          else w
      | None => w
      end
  | None => w
  end.

(** ** Filtering *)

Definition orNil (v : option (list Opt)) : list Opt :=
  match v with Some l => l | None => [] end.

Definition matchItem {F : JS.CaseFold} (item : Item) (query : string) : bool :=
  let q := JS.toLowerCase query in
  let atomicName := JS.toLowerCase (JS.orEmpty (item_name item)) in
  let matchesName := JS.includes atomicName q in
  let matchesOptions :=
    existsb (fun opt =>
               JS.includes (JS.toLowerCase (JS.orEmpty (opt_model opt))) q
               || JS.includes (JS.toLowerCase (JS.orEmpty (opt_store opt))) q)
            (orNil (item_options item)) in
  matchesName || matchesOptions.

Definition filteredSpaces {F : JS.CaseFold} (s : AppState) : list Space :=
  List.filter
    (fun sp =>
       let matchesName :=
         JS.includes (JS.toLowerCase (JS.orEmpty (space_name sp)))
                     (JS.toLowerCase (searchQuery s)) in
       let hasMatchingItems :=
         existsb (fun i => String.eqb (item_spaceId i) (space_id sp)
                           && matchItem i (searchQuery s))
                 (items s) in
       matchesName || hasMatchingItems)
    (spaces s).

(** [items.filter(i => matchItem(i, searchQuery))], the list of the search
    results view. *)
Definition filteredItems {F : JS.CaseFold} (s : AppState) : list Item :=
  List.filter (fun i => matchItem i (searchQuery s)) (items s).

Definition filteredGroceries {F : JS.CaseFold} (s : AppState) : list Entry :=
  List.filter
    (fun g => JS.includes (JS.toLowerCase (JS.orEmpty (entry_text g)))
                          (JS.toLowerCase (searchQuery s)))
    (groceries s).

(** ** Vocabulary of the statements *)

(** The lower-cased [q] occurs in the lower-cased [s]: what the source
    tests. *)
Definition ciSubstring {F : JS.CaseFold} (q s : string) : Prop :=
  exists pre post,
    JS.toLowerCase s
    = String.append pre (String.append (JS.toLowerCase q) post).

(** What the search compares the query with: a missing text reads as the
    empty string. *)
Definition itemMatches {F : JS.CaseFold} (q : string) (i : Item) : Prop :=
  ciSubstring q (JS.orEmpty (item_name i))
  \/ exists opt, In opt (orNil (item_options i))
                 /\ (ciSubstring q (JS.orEmpty (opt_model opt))
                     \/ ciSubstring q (JS.orEmpty (opt_store opt))).

(** Case-insensitive occurrence, said without a fold.  Two characters are
    the same letter when they are equal or are the upper and the lower case
    of one of the letters A-Z (32 apart). *)
Definition isUpper (c : ascii) : bool :=
  (65 <=? nat_of_ascii c) && (nat_of_ascii c <=? 90).

Definition sameLetter (c d : ascii) : Prop :=
  c = d
  \/ (isUpper c = true /\ nat_of_ascii d = nat_of_ascii c + 32)
  \/ (isUpper d = true /\ nat_of_ascii c = nat_of_ascii d + 32).

Fixpoint equalIgnoringCase (m q : string) : Prop :=
  match m, q with
  | EmptyString, EmptyString => True
  | String c m', String d q' => sameLetter c d /\ equalIgnoringCase m' q'
  | _, _ => False
  end.

(** Some stretch of [s] equals [q] up to the case of its letters. *)
Definition occursIgnoringCase (q s : string) : Prop :=
  exists pre m post,
    s = String.append pre (String.append m post) /\ equalIgnoringCase m q.

Definition itemOccurs (q : string) (i : Item) : Prop :=
  occursIgnoringCase q (JS.orEmpty (item_name i))
  \/ exists opt, In opt (orNil (item_options i))
                 /\ (occursIgnoringCase q (JS.orEmpty (opt_model opt))
                     \/ occursIgnoringCase q (JS.orEmpty (opt_store opt))).

(** The texts the search reads in an item are ASCII. *)
Definition asciiItem (i : Item) : Prop :=
  JS.isAsciiText (JS.orEmpty (item_name i)) = true
  /\ forall opt, In opt (orNil (item_options i)) ->
                 JS.isAsciiText (JS.orEmpty (opt_model opt)) = true
                 /\ JS.isAsciiText (JS.orEmpty (opt_store opt)) = true.

(** A lower-casing that writes the capital sigma at the end of a word as a
    final sigma, as the built-in does, on the two texts of the example, and
    folds A-Z elsewhere. *)
Definition sigmaLower (s : string) : string :=
  if String.eqb s "ΑΣ" then "ας"
  else if String.eqb s "Σ" then "σ"
  else JS.lowerAscii s.

(** The argument of [saveData] that stands for collection [k]. *)
Definition saveArg (k : Key) (newSpaces : field (list Space))
    (newItems : field (list Item)) (newGroceries newRepairs : field (list Entry))
  : field (KeyT k) :=
  match k with
  | Kspaces => newSpaces
  | Kitems => newItems
  | Kgroceries => newGroceries
  | Krepairs => newRepairs
  end.

(** The cell of the local cache that mirrors collection [k]. *)
Definition localField (k : Key) (s : AppState) : KeyT k :=
  match k with
  | Kspaces => spaces s
  | Kitems => items s
  | Kgroceries => groceries s
  | Krepairs => repairs s
  end.

(** What a snapshot offers for collection [k]. *)
Definition snapshotField (k : Key) (snapshot : option Document) : field (KeyT k) :=
  match snapshot with
  | Some data => docField k data
  | None => Undefined
  end.


(** The options of the item that is open in the comparison modal. *)
Definition selectedOptions (w : World) : list Opt :=
  match selectedItem (app w) with
  | Some sel => orNil (item_options sel)
  | None => []
  end.

(** A run of clicks on Trophy buttons of the open item, each one handled
    in the state the one before left. *)
Fixpoint winnerClicks (e : Env) (idxs : list nat) (w : World) : option World :=
  match idxs with
  | [] => Some w
  | idx :: rest =>
      match onWinnerClick e idx w with
      | Some w' => winnerClicks e rest w'
      | None => None
      end
  end.

(** The array after a click that turns the flag of [idx] on. *)
Definition crowned (idx : nat) (o : Opt) (options : list Opt) : list Opt :=
  imap (fun i o' => if Nat.eqb i idx then o' else setWinner false o')
       (<[idx := setWinner true o]> options).

(** How many options of a list have no identifier. *)
Definition lacking (l : list Opt) : nat := length (List.filter lacksId l).


(** * The other handlers of [App] *)

(** ** Session start *)

Definition setIsReadOnly (v : bool) (s : AppState) : AppState :=
  mkAppState (user s) (searchQuery s) (spaces s) (items s) (groceries s)
    (repairs s) (selectedItem s) v (loading s) (draggedOptionIdx s).

Definition setSearchQuery (v : string) (s : AppState) : AppState :=
  mkAppState (user s) v (spaces s) (items s) (groceries s)
    (repairs s) (selectedItem s) (isReadOnly s) (loading s) (draggedOptionIdx s).

(** The share-link effect; [shareId] is [params.get('share')], [None] when
    the URL has no such parameter. *)
Definition shareLinkEffect (shareId : option string) (s : AppState) : AppState :=
  if JS.truthyStr shareId then setIsReadOnly true s else s.

(** The document the subscription listens to. *)
Definition docPath (e : Env) (shareId : option string) (u : User) : list string :=
  if JS.truthyStr shareId
  then ["artifacts"; appId e; "public"; "data"; "shares"; JS.orEmpty shareId]
  else ["artifacts"; appId e; "users"; uid u; "personal"; "settings"].

(** The listener fires with the document stored at the session's path;
    without a user the effect has not subscribed. *)
Definition deliverSnapshot (e : Env) (shareId : option string) (w : World) : World :=
  match user (app w) with
  | None => w
  | Some u => onApp (onSnapshot (remote w !! docPath e shareId u)) w
  end.

(** ** Checklists *)

(** The [field] and [value] of [updateGrocery] and [updateRepair]: the view
    sets ['text'] to a string and ['completed'] to a boolean. *)
Inductive EntryField : Type :=
| TextField (value : string)
| CompletedField (value : bool).

(** [{ ...g, [field]: value }] *)
Definition setEntryField (f : EntryField) (g : Entry) : Entry :=
  match f with
  | TextField v => mkEntry (entry_id g) (Some v) (entry_completed g)
  | CompletedField v => mkEntry (entry_id g) (entry_text g) v
  end.

Definition addGrocery (e : Env) (w : World) : World :=
  let newItem := mkEntry (randomUUID e 0) (Some "") false in
  let updated := newItem :: groceries (app w) in
  saveData e Null Null (Value updated) Null (onApp (setGroceries updated) w).

Definition updateGrocery (e : Env) (id : string) (f : EntryField) (w : World)
  : World :=
  let updated :=
    map (fun g => if String.eqb (entry_id g) id then setEntryField f g else g)
        (groceries (app w)) in
  saveData e Null Null (Value updated) Null (onApp (setGroceries updated) w).

Definition deleteGrocery (e : Env) (id : string) (w : World) : World :=
  let updated :=
    List.filter (fun g => negb (String.eqb (entry_id g) id)) (groceries (app w)) in
  saveData e Null Null (Value updated) Null (onApp (setGroceries updated) w).

Definition addRepair (e : Env) (w : World) : World :=
  let newItem := mkEntry (randomUUID e 0) (Some "") false in
  let updated := newItem :: repairs (app w) in
  saveData e Null Null Null (Value updated) (onApp (setRepairs updated) w).

Definition updateRepair (e : Env) (id : string) (f : EntryField) (w : World)
  : World :=
  let updated :=
    map (fun r => if String.eqb (entry_id r) id then setEntryField f r else r)
        (repairs (app w)) in
  saveData e Null Null Null (Value updated) (onApp (setRepairs updated) w).

Definition deleteRepair (e : Env) (id : string) (w : World) : World :=
  let updated :=
    List.filter (fun r => negb (String.eqb (entry_id r) id)) (repairs (app w)) in
  saveData e Null Null Null (Value updated) (onApp (setRepairs updated) w).

(** ** Items and spaces *)

Definition addItemToSpace (e : Env) (spaceId : string) (w : World) : World :=
  let newItem :=
    mkItem (randomUUID e 0) spaceId (Some "New Item") (Some []) None
      (length (items (app w))) in
  let updated := items (app w) ++ [newItem] in
  saveData e Null (Value updated) Null Undefined (onApp (setItems updated) w).

(** [items.filter(i => i.spaceId === space.id).length], the badge of a
    space card. *)
Definition itemCount (spaceId : string) (l : list Item) : nat :=
  length (List.filter (fun i => String.eqb (item_spaceId i) spaceId) l).

Definition setSpaceImage (v : option string) (s : Space) : Space :=
  mkSpace (space_id s) (space_name s) v.

(** [reader.onloadend] of [handleSpaceImageUpload].  The callback reads
    [spaces], [user] and [isReadOnly] of the render in which the file was
    picked ([seen]) and writes into the component and the store as they
    are when the read ends ([w]); [result] is [reader.result], [None] for
    the [null] of a failed read. *)
Definition spaceImageLoaded (e : Env) (seen : AppState) (spaceId : string)
    (result : option string) (w : World) : World :=
  let newSpaces :=
    map (fun s => if String.eqb (space_id s) spaceId
                  then setSpaceImage result s else s)
        (spaces seen) in
  mkWorld (setSpaces newSpaces (app w))
    (remote (saveData e (Value newSpaces) Undefined Undefined Undefined
               (mkWorld seen (remote w)))).

(** [handleSpaceImageUpload(spaceId, file)]: the callback that is left
    pending, none when no file was picked. *)
Definition handleSpaceImageUpload (e : Env) (spaceId : string) (file : bool)
    (w : World) : option (option string -> World -> World) :=
  if file then Some (spaceImageLoaded e (app w) spaceId) else None.

Definition setItemImage (v : option string) (i : Item) : Item :=
  mkItem (item_id i) (item_spaceId i) (item_name i) (item_options i) v
    (item_order i).

(** [reader.onloadend] of [handleItemImageUpload], for a read that ends
    before any other event: the state the callback closes over is the
    state it writes into. *)
Definition itemImageLoaded (e : Env) (itemId : string) (result : option string)
    (w : World) : World :=
  let newItems :=
    map (fun i => if String.eqb (item_id i) itemId then setItemImage result i else i)
        (items (app w)) in
  let w1 := onApp (setItems newItems) w in
  let w2 :=
    match selectedItem (app w) with
    | Some sel =>
        if String.eqb (item_id sel) itemId
        then onApp (setSelectedItem (Some (setItemImage result sel))) w1
        else w1
    | None => w1
    end in
  saveData e Undefined (Value newItems) Undefined Undefined w2.

Definition setOptImage (v : option string) (o : Opt) : Opt :=
  mkOpt (opt_id o) (opt_model o) (opt_price o) (opt_store o) (opt_link o)
    (opt_notes o) (opt_winner o) v.

(** [reader.onloadend] of [handleOptionImageUpload], for a read that ends
    before any other event. *)
Definition optionImageLoaded (e : Env) (itemId : string) (optionIndex : nat)
    (result : option string) (w : World) : World :=
  match List.find (fun i => String.eqb (item_id i) itemId) (items (app w)) with
  | None => w
  | Some item =>
      let newOptions := orNil (item_options item) in
      match newOptions !! optionIndex with
      | Some o =>
          updateItem e itemId
            (optionsUpdate (<[optionIndex := setOptImage result o]> newOptions)) w
      | None => w
      end
  end.

(** ** The comparison modal *)

(** [onChange] of the name input. *)
Definition onItemNameChange (e : Env) (value : string) (w : World) : option World :=
  match selectedItem (app w) with
  | None => None
  | Some sel => Some (updateItem e (item_id sel) (nameUpdate value) w)
  end.

(** [onClick] of the Trash button of the item. *)
Definition onDeleteItemClick (e : Env) (w : World) : option World :=
  match selectedItem (app w) with
  | None => None
  | Some sel => Some (deleteItem e (item_id sel) w)
  end.

(** [array.filter((_, i) => keep(i))] *)
Fixpoint filterIndex {A} (keep : nat -> bool) (i : nat) (l : list A) : list A :=
  match l with
  | [] => []
  | x :: t =>
      if keep i then x :: filterIndex keep (S i) t else filterIndex keep (S i) t
  end.

(** [onClick] of the Trash button of option [idx]. *)
Definition onDeleteOptionClick (e : Env) (idx : nat) (w : World) : option World :=
  match selectedItem (app w) with
  | None => None
  | Some sel =>
      match item_options sel with
      | None => None
      | Some options =>
          let newOptions := filterIndex (fun i => negb (Nat.eqb i idx)) 0 options in
          Some (updateItem e (item_id sel) (optionsUpdate newOptions) w)
      end
  end.

(** The text inputs of an option card. *)
Inductive OptField : Type :=
| ModelField | PriceField | StoreField | LinkField | NotesField.

(** [o.model = value], and so on. *)
Definition setOptField (f : OptField) (v : string) (o : Opt) : Opt :=
  match f with
  | ModelField =>
      mkOpt (opt_id o) (Some v) (opt_price o) (opt_store o) (opt_link o)
        (opt_notes o) (opt_winner o) (opt_image o)
  | PriceField =>
      mkOpt (opt_id o) (opt_model o) (Some v) (opt_store o) (opt_link o)
        (opt_notes o) (opt_winner o) (opt_image o)
  | StoreField =>
      mkOpt (opt_id o) (opt_model o) (opt_price o) (Some v) (opt_link o)
        (opt_notes o) (opt_winner o) (opt_image o)
  | LinkField =>
      mkOpt (opt_id o) (opt_model o) (opt_price o) (opt_store o) (Some v)
        (opt_notes o) (opt_winner o) (opt_image o)
  | NotesField =>
      mkOpt (opt_id o) (opt_model o) (opt_price o) (opt_store o) (opt_link o)
        (Some v) (opt_winner o) (opt_image o)
  end.

(** [onChange] of input [f] of option [idx]: the write goes to the object
    in slot [idx] of the copied array. *)
Definition onOptionFieldChange (e : Env) (idx : nat) (f : OptField) (value : string)
    (w : World) : option World :=
  match selectedItem (app w) with
  | None => None
  | Some sel =>
      match item_options sel with
      | None => None
      | Some options =>
          match options !! idx with
          | None => None
          | Some o =>
              Some (updateItem e (item_id sel)
                      (optionsUpdate (<[idx := setOptField f value o]> options)) w)
          end
      end
  end.

(** [onClick] of Add Option. *)
Definition onAddOptionClick (e : Env) (w : World) : option World :=
  match selectedItem (app w) with
  | None => None
  | Some sel =>
      let newOption :=
        mkOpt (Some (randomUUID e 0)) (Some "") (Some "") (Some "") (Some "")
          (Some "") (Some false) None in
      Some (updateItem e (item_id sel)
              (optionsUpdate (orNil (item_options sel) ++ [newOption])) w)
  end.

(** ** Match reasons *)

Inductive MatchType : Type := ITEM | OPTION | STORE.

(** A reason shown under a search result; [match_text] of an ITEM reason
    is the [name] property as it is. *)
Record SearchMatch : Type := mkSearchMatch {
  match_id : string;
  match_text : option string;
  match_type : MatchType
}.

(** A string property inside a template literal. *)
Definition template (v : option string) : string :=
  match v with Some s => s | None => "undefined" end.

(** An index inside a template literal. *)
Definition indexText (n : nat) : string :=
  DecimalString.NilEmpty.string_of_uint (Nat.to_uint n).

(** The body of the [forEach] of [getSearchMatches]: what option [idx]
    pushes. *)
Definition optionReasons {F : JS.CaseFold} (item : Item) (q : string) (idx : nat)
    (opt : Opt) : list SearchMatch :=
  let modelMatch := JS.includes (JS.toLowerCase (JS.orEmpty (opt_model opt))) q in
  let storeMatch := JS.includes (JS.toLowerCase (JS.orEmpty (opt_store opt))) q in
  if modelMatch then
    [ mkSearchMatch
        ("opt-" +:+ item_id item +:+ "-" +:+ indexText idx)
        (Some (template (item_name item) +:+ ": " +:+ template (opt_model opt)))
        OPTION ]
  else if storeMatch then
    [ mkSearchMatch
        ("store-" +:+ item_id item +:+ "-" +:+ indexText idx)
        (Some (template (item_name item) +:+ ": " +:+ template (opt_store opt)
               +:+ " (Store)"))
        STORE ]
  else [].

Definition getSearchMatches {F : JS.CaseFold} (item : Item) (query : string) : list SearchMatch :=
  if String.eqb query "" then []
  else
    let q := JS.toLowerCase query in
    (if JS.includes (JS.toLowerCase (JS.orEmpty (item_name item))) q
     then [ mkSearchMatch ("item-" +:+ item_id item) (item_name item) ITEM ]
     else [])
    ++ concat (imap (optionReasons item q) (orNil (item_options item))).

(** ** Events

    What can happen to the component between two renders: a handler of the
    view runs, the effect on [selectedItem] runs, a snapshot arrives, or
    the read of a picked image ends (before any other event).  The view
    hides most buttons in a read-only session; [step] does not rely on
    that. *)
Inductive Event : Type :=
| SearchTyped (value : string)
| GroceryAdded
| GroceryChanged (id : string) (f : EntryField)
| GroceryDeleted (id : string)
| RepairAdded
| RepairChanged (id : string) (f : EntryField)
| RepairDeleted (id : string)
| SpaceImageLoaded (spaceId : string) (result : option string)
| ItemAdded (spaceId : string)
| ItemOpened (n : nat)
| ItemClosed
| ItemRenamed (value : string)
| ItemImageLoaded (result : option string)
| ItemDeleted
| OptionImageLoaded (idx : nat) (result : option string)
| WinnerClicked (idx : nat)
| OptionDeleted (idx : nat)
| OptionEdited (idx : nat) (f : OptField) (value : string)
| OptionAdded
| DragStarted (idx : nat)
| Dropped (idx : nat)
| EffectRan
| SnapshotArrived.

(** [ItemOpened n] is the click on the card of the [n]-th item of the
    collection; the image inputs of the modal pass [selectedItem.id]. *)
Definition step (shareId : option string) (e : Env) (ev : Event) (w : World)
  : option World :=
  match ev with
  | SearchTyped v => Some (onApp (setSearchQuery v) w)
  | GroceryAdded => Some (addGrocery e w)
  | GroceryChanged id f => Some (updateGrocery e id f w)
  | GroceryDeleted id => Some (deleteGrocery e id w)
  | RepairAdded => Some (addRepair e w)
  | RepairChanged id f => Some (updateRepair e id f w)
  | RepairDeleted id => Some (deleteRepair e id w)
  | SpaceImageLoaded spaceId result =>
      Some (spaceImageLoaded e (app w) spaceId result w)
  | ItemAdded spaceId => Some (addItemToSpace e spaceId w)
  | ItemOpened n =>
      match items (app w) !! n with
      | Some i => Some (onApp (setSelectedItem (Some i)) w)
      | None => None
      end
  | ItemClosed => Some (onApp (setSelectedItem None) w)
  | ItemRenamed v => onItemNameChange e v w
  | ItemImageLoaded result =>
      match selectedItem (app w) with
      | Some sel => Some (itemImageLoaded e (item_id sel) result w)
      | None => None
      end
  | ItemDeleted => onDeleteItemClick e w
  | OptionImageLoaded idx result =>
      match selectedItem (app w) with
      | Some sel => Some (optionImageLoaded e (item_id sel) idx result w)
      | None => None
      end
  | WinnerClicked idx => onWinnerClick e idx w
  | OptionDeleted idx => onDeleteOptionClick e idx w
  | OptionEdited idx f v => onOptionFieldChange e idx f v w
  | OptionAdded => onAddOptionClick e w
  | DragStarted idx => Some (handleOptionDragStart idx w)
  | Dropped idx => handleOptionDrop e idx w
  | EffectRan => Some (migrationEffect e w)
  | SnapshotArrived => Some (deliverSnapshot e shareId w)
  end.

(** A run of events, each with what it finds outside the component. *)
Fixpoint run (shareId : option string) (evs : list (Env * Event)) (w : World)
  : option World :=
  match evs with
  | [] => Some w
  | (e, ev) :: rest =>
      match step shareId e ev w with
      | Some w' => run shareId rest w'
      | None => None
      end
  end.

(** ** Invariants of a session *)

(** A rule [Q] on option lists holds in a world when the options of every
    item of the collection, of the open item and of the items of every
    stored document satisfy it. *)
Definition optionsRule (Q : list Opt -> Prop) (i : Item) : Prop :=
  Q (orNil (item_options i)).

Definition ruleHolds (Q : list Opt -> Prop) (w : World) : Prop :=
  Forall (optionsRule Q) (items (app w))
  /\ (forall sel, selectedItem (app w) = Some sel -> optionsRule Q sel)
  /\ (forall path d l,
         remote w !! path = Some d -> doc_items d = Value l ->
         Forall (optionsRule Q) l).

(** At most one option has [winner === true]. *)
Definition singleWinner (l : list Opt) : Prop := countWinners l <= 1.

(** Every option has an identifier. *)
Definition allHaveId (l : list Opt) : Prop :=
  Forall (fun o => JS.truthyStr (opt_id o) = true) l.

(** The option that Add Option appends. *)
Definition blankOption (id : string) : Opt :=
  mkOpt (Some id) (Some "") (Some "") (Some "") (Some "") (Some "") (Some false)
    None.

(** The user's document holds the four collections of the cache. *)
Definition mirrors (path : list string) (w : World) : Prop :=
  forall k : Key, remoteField k path (remote w) = Value (localField k (app w)).

(** The open item is the item of the collection with its id. *)
Definition coherent (s : AppState) : Prop :=
  forall sel i,
    selectedItem s = Some sel -> In i (items s) -> item_id i = item_id sel ->
    i = sel.

(** [saveData] with collection [k] alone. *)
Definition saveKey (e : Env) (k : Key) : KeyT k -> World -> World :=
  match k with
  | Kspaces => fun v => saveData e (Value v) Undefined Undefined Undefined
  | Kitems => fun v => saveData e Undefined (Value v) Undefined Undefined
  | Kgroceries => fun v => saveData e Undefined Undefined (Value v) Undefined
  | Krepairs => fun v => saveData e Undefined Undefined Undefined (Value v)
  end.

(** What an event did: nothing to the collections and the store ... *)
Definition quiet (w w' : World) : Prop :=
  remote w' = remote w
  /\ user (app w') = user (app w)
  /\ isReadOnly (app w') = isReadOnly (app w)
  /\ forall k : Key, localField k (app w') = localField k (app w).

(** ... or an edit of collection [k], sent to the store by [saveData]. *)
Definition edits (e : Env) (k : Key) (w w' : World) : Prop :=
  remote w' = remote (saveKey e k (localField k (app w')) w)
  /\ user (app w') = user (app w)
  /\ isReadOnly (app w') = isReadOnly (app w)
  /\ forall k' : Key, k' <> k -> localField k' (app w') = localField k' (app w).

(** The collection the handler of an event works on. *)
Definition touches (ev : Event) : option Key :=
  match ev with
  | SearchTyped _ | ItemOpened _ | ItemClosed | DragStarted _
  | SnapshotArrived => None
  | GroceryAdded | GroceryChanged _ _ | GroceryDeleted _ => Some Kgroceries
  | RepairAdded | RepairChanged _ _ | RepairDeleted _ => Some Krepairs
  | SpaceImageLoaded _ _ => Some Kspaces
  | ItemAdded _ | ItemRenamed _ | ItemImageLoaded _ | ItemDeleted
  | OptionImageLoaded _ _ | WinnerClicked _ | OptionDeleted _
  | OptionEdited _ _ _ | OptionAdded | Dropped _ | EffectRan => Some Kitems
  end.

(** What [updateGrocery] and [updateRepair] do to the list. *)
Definition changed (id : string) (f : EntryField) (l : list Entry) : list Entry :=
  map (fun g => if String.eqb (entry_id g) id then setEntryField f g else g) l.

(** [array.length > 0] *)
Definition nonempty {A} (l : list A) : bool :=
  match l with [] => false | _ :: _ => true end.
(** ** A small household, used to run the handlers *)

Module Household.

Definition env : Env :=
  mkEnv "myhome-mind-v1" 1700000000000%Z
    (fun k => String.append "uuid-" (String (ascii_of_nat (48 + k)) EmptyString))
    true.

Definition ann : User := mkUser "ann".

Definition milk : Entry := mkEntry "g1" (Some "Milk") false.

Definition stockholm : Opt :=
  mkOpt (Some "o1") (Some "Stockholm") (Some "1299") (Some "IKEA")
    (Some "") (Some "") (Some false) None.
Definition soderhamn : Opt :=
  mkOpt (Some "o2") (Some "Soderhamn") (Some "899") (Some "Ikea Online")
    (Some "") (Some "") (Some true) None.
Definition vintage : Opt :=
  mkOpt None (Some "Vintage find") (Some "300") (Some "Flea Market")
    None None None None.

Definition sofa : Item :=
  mkItem "i1" "1" (Some "Sofa") (Some [stockholm; soderhamn; vintage]) None 0.
Definition kettle : Item :=
  mkItem "i2" "2" (Some "Kettle") (Some []) None 1.

(** A document of the time before repairs existed. *)
Definition legacyDocument : Document :=
  mkDocument (Value DEFAULT_SPACES) (Value [sofa; kettle]) (Value [milk])
    Undefined (Value 1600000000000%Z).

Definition state : AppState :=
  mkAppState (Some ann) "" DEFAULT_SPACES [sofa; kettle] [milk] [] (Some sofa)
    false false None.

Definition store : Remote := {[ userDoc env ann := legacyDocument ]}.

Definition world : World := mkWorld state store.

(** The same household seen through a share link, and before sign-in. *)
Definition sharedWorld : World :=
  mkWorld (mkAppState (Some ann) "" DEFAULT_SPACES [sofa; kettle] [milk] []
             (Some sofa) true false None) store.
Definition anonymousWorld : World :=
  mkWorld (mkAppState None "" DEFAULT_SPACES [sofa; kettle] [milk] []
             (Some sofa) false false None) store.

(** A search whose query occurs in a store, in no name and in no model. *)
Definition searching : AppState :=
  mkAppState (Some ann) "flea" DEFAULT_SPACES [sofa; kettle] [milk] [] None
    false false None.

(** An item with a Greek name that ends in a capital sigma, and a search
    for that letter. *)
Definition alphaSigma : Item := mkItem "i4" "1" (Some "ΑΣ") (Some []) None 3.

Definition searchingSigma : AppState :=
  mkAppState (Some ann) "Σ" DEFAULT_SPACES [alphaSigma] [] [] None
    false false None.

(** An item on which every option carries the flag, as a document edited
    outside the winner toggle can hold it. *)
Definition lamp : Item :=
  mkItem "i3" "1" (Some "Lamp")
    (Some [setWinner true stockholm; soderhamn; setWinner true vintage]) None 2.

Definition lampWorld : World :=
  mkWorld (mkAppState (Some ann) "" DEFAULT_SPACES [sofa; kettle; lamp] [milk] []
             (Some lamp) false false None) store.

(** The household after its document was brought up to date: the store
    holds what the cache holds. *)
Definition syncedStore : Remote :=
  {[ userDoc env ann :=
       mkDocument (Value DEFAULT_SPACES) (Value [sofa; kettle]) (Value [milk])
         (Value []) (Value 1650000000000%Z) ]}.

Definition syncedWorld : World := mkWorld state syncedStore.

(** An evening at the sofa: a grocery, a new option, a trophy, a drag and
    the echo of the store. *)
Definition evening : list (Env * Event) :=
  [ (env, GroceryAdded);
    (env, GroceryChanged "uuid-0" (TextField "Bread"));
    (env, OptionAdded);
    (env, WinnerClicked 0);
    (env, DragStarted 2);
    (env, Dropped 0);
    (env, SnapshotArrived);
    (env, EffectRan) ].

(** The household with an identifier on every option. *)
Definition tidySofa : Item :=
  mkItem "i1" "1" (Some "Sofa") (Some [stockholm; soderhamn]) None 0.

Definition tidyStore : Remote :=
  {[ userDoc env ann :=
       mkDocument (Value DEFAULT_SPACES) (Value [tidySofa; kettle]) (Value [milk])
         (Value []) (Value 1650000000000%Z) ]}.

Definition tidyWorld : World :=
  mkWorld (mkAppState (Some ann) "" DEFAULT_SPACES [tidySofa; kettle] [milk] []
             (Some tidySofa) false false None) tidyStore.

End Household.
(** * Properties *)

(** ** Strings *)

Section StringFacts.

Lemma startsWith_spec (s q : string) :
  JS.startsWith s q = true <-> exists post, s = String.append q post.
Proof.
  revert s. induction q as [|a q IH]; intros s; simpl.
  - split; [intros _; exists s; reflexivity | reflexivity].
  - destruct s as [|b s]; simpl.
    + split; [discriminate | intros [post H]; discriminate].
    + rewrite andb_true_iff, Ascii.eqb_eq, IH. split.
      * intros [-> [post ->]]. exists post. reflexivity.
      * intros [post H]. injection H as -> ->. split; [reflexivity | eauto].
Qed.

Lemma includes_spec (s q : string) :
  JS.includes s q = true
  <-> exists pre post, s = String.append pre (String.append q post).
Proof.
  induction s as [|b s IH]; simpl.
  - rewrite orb_false_r, startsWith_spec. split.
    + intros [post H]. exists EmptyString, post. exact H.
    + intros [pre [post H]]. destruct pre; simpl in H.
      * exists post. exact H.
      * discriminate.
  - rewrite orb_true_iff, startsWith_spec, IH. split.
    + intros [[post H] | [pre [post H]]].
      * exists EmptyString, post. exact H.
      * exists (String b pre), post. simpl. rewrite H. reflexivity.
    + intros [pre [post H]]. destruct pre as [|c pre]; simpl in H.
      * left. exists post. exact H.
      * right. injection H as -> ->. eauto.
Qed.

End StringFacts.

Lemma includes_lower {F : JS.CaseFold} (s q : string) :
  JS.includes (JS.toLowerCase s) (JS.toLowerCase q) = true <-> ciSubstring q s.
Proof. apply includes_spec. Qed.

Lemma matchItem_iff {F : JS.CaseFold} (i : Item) (q : string) :
  matchItem i q = true <-> itemMatches q i.
Proof.
  unfold matchItem, itemMatches.
  rewrite orb_true_iff, includes_lower, existsb_exists.
  apply or_iff_compat_l. split.
  - intros [opt [Hin H]]. exists opt. split; [exact Hin|].
    rewrite orb_true_iff, !includes_lower in H. exact H.
  - intros [opt [Hin H]]. exists opt. split; [exact Hin|].
    rewrite orb_true_iff, !includes_lower. exact H.
Qed.

(** ** ASCII text *)

Section AsciiText.

Lemma append_cons (x : ascii) (a b : string) :
  String.append (String x a) b = String x (String.append a b).
Proof. reflexivity. Qed.

Lemma nat_of_ascii_inj (c d : ascii) : nat_of_ascii c = nat_of_ascii d -> c = d.
Proof.
  intros H. rewrite <- (ascii_nat_embedding c), <- (ascii_nat_embedding d), H.
  reflexivity.
Qed.

Lemma nat_of_lowerChar (c : ascii) :
  nat_of_ascii (JS.lowerChar c)
  = if isUpper c then nat_of_ascii c + 32 else nat_of_ascii c.
Proof.
  unfold JS.lowerChar, isUpper. cbv zeta.
  destruct ((65 <=? nat_of_ascii c) && (nat_of_ascii c <=? 90)) eqn:E;
    [|reflexivity].
  apply andb_true_iff in E as [_ E]. apply Nat.leb_le in E.
  apply nat_ascii_embedding. lia.
Qed.

Lemma isUpper_range (c : ascii) :
  isUpper c = true <-> 65 <= nat_of_ascii c <= 90.
Proof.
  unfold isUpper. rewrite andb_true_iff, !Nat.leb_le. reflexivity.
Qed.

Lemma isUpper_shifted (c d : ascii) :
  isUpper c = true -> nat_of_ascii d = nat_of_ascii c + 32 -> isUpper d = false.
Proof.
  intros Hc H. apply isUpper_range in Hc.
  destruct (isUpper d) eqn:Ed; [|reflexivity].
  apply isUpper_range in Ed. lia.
Qed.

(** The fold of A-Z identifies exactly the two cases of a letter. *)
Lemma lowerChar_same (c d : ascii) :
  JS.lowerChar c = JS.lowerChar d <-> sameLetter c d.
Proof.
  split.
  - intros H. apply (f_equal nat_of_ascii) in H. rewrite !nat_of_lowerChar in H.
    unfold sameLetter. destruct (isUpper c) eqn:Ec, (isUpper d) eqn:Ed.
    + left. apply nat_of_ascii_inj. lia.
    + right. left. split; [reflexivity | lia].
    + right. right. split; [reflexivity | lia].
    + left. apply nat_of_ascii_inj. exact H.
  - intros [-> | [[Hc H] | [Hd H]]]; [reflexivity| |];
      apply nat_of_ascii_inj; rewrite !nat_of_lowerChar.
    + rewrite Hc, (isUpper_shifted c d Hc H). lia.
    + rewrite Hd, (isUpper_shifted d c Hd H). lia.
Qed.

Lemma lowerAscii_equal (m q : string) :
  JS.lowerAscii m = JS.lowerAscii q <-> equalIgnoringCase m q.
Proof.
  revert q. induction m as [|c m IH]; intros [|d q]; simpl.
  - split; [intros _; exact I | reflexivity].
  - split; [discriminate | contradiction].
  - split; [discriminate | contradiction].
  - rewrite <- lowerChar_same, <- IH. split.
    + intros H. injection H as H1 H2. split; assumption.
    + intros [-> ->]. reflexivity.
Qed.

Lemma lowerAscii_app (a b : string) :
  JS.lowerAscii (String.append a b)
  = String.append (JS.lowerAscii a) (JS.lowerAscii b).
Proof.
  induction a as [|x a IH]; [reflexivity|].
  rewrite append_cons. simpl JS.lowerAscii. rewrite append_cons, IH.
  reflexivity.
Qed.

Lemma lowerAscii_split (s a b : string) :
  JS.lowerAscii s = String.append a b ->
  exists s1 s2, s = String.append s1 s2
                /\ JS.lowerAscii s1 = a /\ JS.lowerAscii s2 = b.
Proof.
  revert s. induction a as [|x a IH]; intros s H.
  - exists "", s. split; [reflexivity|]. split; [reflexivity | exact H].
  - destruct s as [|c s]; [discriminate H|].
    rewrite append_cons in H. simpl JS.lowerAscii in H. injection H as Hc H.
    destruct (IH s H) as (s1 & s2 & -> & <- & <-).
    exists (String c s1), s2. rewrite append_cons. simpl JS.lowerAscii.
    rewrite Hc. repeat split.
Qed.

Lemma sameLetter_ascii (c d : ascii) :
  sameLetter c d ->
  (nat_of_ascii c <? 128) = true -> (nat_of_ascii d <? 128) = true.
Proof.
  rewrite !Nat.ltb_lt. intros [-> | [[Hc H] | [Hd H]]] Hlt; [exact Hlt| |].
  - apply isUpper_range in Hc. lia.
  - apply isUpper_range in Hd. lia.
Qed.

Lemma equalIgnoringCase_ascii (m q : string) :
  equalIgnoringCase m q -> JS.isAsciiText m = true -> JS.isAsciiText q = true.
Proof.
  revert q. induction m as [|c m IH]; intros [|d q]; simpl; try contradiction.
  - reflexivity.
  - intros [Hcd H]. rewrite !andb_true_iff. intros [Hc Hm].
    split; [apply (sameLetter_ascii c d Hcd Hc) | apply (IH q H Hm)].
Qed.

Lemma isAsciiText_app (a b : string) :
  JS.isAsciiText (String.append a b) = JS.isAsciiText a && JS.isAsciiText b.
Proof.
  induction a as [|x a IH]; [reflexivity|].
  rewrite append_cons. simpl JS.isAsciiText. rewrite IH, andb_assoc.
  reflexivity.
Qed.

Context {F : JS.CaseFold}.

(** On ASCII text the test of the source is the case-insensitive
    occurrence. *)
Lemma ciSubstring_ascii (q t : string) :
  JS.isAsciiText q = true -> JS.isAsciiText t = true ->
  (ciSubstring q t <-> occursIgnoringCase q t).
Proof.
  intros Hq Ht. unfold ciSubstring, occursIgnoringCase.
  rewrite (JS.toLowerCase_ascii q Hq), (JS.toLowerCase_ascii t Ht). split.
  - intros (a & b & H).
    destruct (lowerAscii_split _ _ _ H) as (s1 & s2 & -> & _ & H2).
    destruct (lowerAscii_split _ _ _ H2) as (m & s3 & -> & Hm & _).
    exists s1, m, s3. split; [reflexivity|]. apply lowerAscii_equal. exact Hm.
  - intros (pre & m & post & -> & Hm). apply lowerAscii_equal in Hm.
    exists (JS.lowerAscii pre), (JS.lowerAscii post).
    rewrite !lowerAscii_app, Hm. reflexivity.
Qed.

Lemma itemMatches_ascii (q : string) (i : Item) :
  JS.isAsciiText q = true -> asciiItem i -> (itemMatches q i <-> itemOccurs q i).
Proof.
  intros Hq [Hn Ho]. unfold itemMatches, itemOccurs.
  rewrite (ciSubstring_ascii q _ Hq Hn). apply or_iff_compat_l.
  split; intros (opt & Hin & H); exists opt; (split; [exact Hin|]);
    destruct (Ho opt Hin) as [Hm Hs];
    rewrite (ciSubstring_ascii q _ Hq Hm), (ciSubstring_ascii q _ Hq Hs) in *;
    exact H.
Qed.

End AsciiText.

Lemma sigmaLower_ascii (s : string) :
  JS.isAsciiText s = true -> sigmaLower s = JS.lowerAscii s.
Proof.
  intros H. unfold sigmaLower.
  destruct (String.eqb_spec s "ΑΣ") as [-> | _]; [discriminate H|].
  destruct (String.eqb_spec s "Σ") as [-> | _]; [discriminate H|].
  reflexivity.
Qed.

(** ** Persisting: [saveData] *)

Section SaveData.

Variable e : Env.
Variables (newSpaces : field (list Space)) (newItems : field (list Item)).
Variables newGroceries newRepairs : field (list Entry).

Let arg (k : Key) := saveArg k newSpaces newItems newGroceries newRepairs.
Let save := saveData e newSpaces newItems newGroceries newRepairs.
Let updates := saveUpdates e newSpaces newItems newGroceries newRepairs.

Lemma saveUpdates_field (k : Key) :
  docField k updates = if JS.provided (arg k) then arg k else Undefined.
Proof. destruct k; reflexivity. Qed.

Lemma mergeDocument_field (k : Key) (upd old : Document) :
  docField k (mergeDocument upd old) = mergeField (docField k upd) (docField k old).
Proof. destruct k; reflexivity. Qed.

Lemma remoteField_setDocMerge_eq (k : Key) (ref : list string) (upd : Document)
    (r : Remote) :
  remoteField k ref (setDocMerge ref upd r)
  = mergeField (docField k upd) (remoteField k ref r).
Proof.
  unfold remoteField, setDocMerge. rewrite lookup_insert_eq, mergeDocument_field.
  destruct (r !! ref); destruct k; reflexivity.
Qed.

Lemma lookup_setDocMerge_ne (ref path : list string) (upd : Document) (r : Remote) :
  path <> ref -> setDocMerge ref upd r !! path = r !! path.
Proof. intros H. unfold setDocMerge. apply lookup_insert_ne. congruence. Qed.

Lemma saveData_app (w : World) : app (save w) = app w.
Proof.
  unfold save, saveData. destruct (user (app w)); [|reflexivity].
  destruct (isReadOnly (app w)); [reflexivity|].
  destruct (storeAccepts e); reflexivity.
Qed.

(** A write that goes through. *)
Lemma saveData_writes (w : World) (u : User) :
  user (app w) = Some u -> isReadOnly (app w) = false -> storeAccepts e = true ->
  remote (save w) = setDocMerge (userDoc e u) updates (remote w).
Proof.
  intros Hu Hro Hok. unfold save, saveData. rewrite Hu, Hro, Hok. reflexivity.
Qed.

(** In every other case the world is the one before the call. *)
Lemma saveData_cases (w : World) :
  save w = w
  \/ exists u, user (app w) = Some u /\ isReadOnly (app w) = false
               /\ storeAccepts e = true
               /\ save w = mkWorld (app w)
                             (setDocMerge (userDoc e u) updates (remote w)).
Proof.
  unfold save, saveData. destruct (user (app w)) as [u|]; [|left; reflexivity].
  destruct (isReadOnly (app w)) eqn:Hro; [left; reflexivity|].
  destruct (storeAccepts e) eqn:Hok; [|left; reflexivity].
  right. exists u. repeat split; reflexivity.
Qed.

Lemma saveData_frame (w : World) (k : Key) (path : list string) :
  JS.provided (arg k) = false ->
  remoteField k path (remote (save w)) = remoteField k path (remote w).
Proof.
  intros Hk. destruct (saveData_cases w) as [-> | (u & _ & _ & _ & ->)];
    [reflexivity|]. simpl.
  destruct (decide (path = userDoc e u)) as [-> | Hne].
  - rewrite remoteField_setDocMerge_eq. fold updates.
    rewrite saveUpdates_field, Hk. reflexivity.
  - unfold remoteField. rewrite lookup_setDocMerge_ne by exact Hne. reflexivity.
Qed.

End SaveData.

(** ** The sync engine *)

(** C2.  [saveData] sends a merge write of an object that holds the
    collections given to it (neither [undefined] nor [null]) and the
    [lastUpdated] stamp, and nothing else: a collection key that was not
    given reads the same before and after the call, in every document of
    the store; when the write is made, the given keys read as given, the
    stamp is [Date.now()], and no other document is touched. *)
Theorem saveData_sparse_merge (e : Env) (newSpaces : field (list Space))
    (newItems : field (list Item)) (newGroceries newRepairs : field (list Entry))
    (w : World) :
  (forall k : Key,
      docField k (saveUpdates e newSpaces newItems newGroceries newRepairs)
      = if JS.provided (saveArg k newSpaces newItems newGroceries newRepairs)
        then saveArg k newSpaces newItems newGroceries newRepairs
        else Undefined)
  /\ doc_lastUpdated (saveUpdates e newSpaces newItems newGroceries newRepairs)
     = Value (now e)
  /\ (forall (k : Key) (path : list string),
         JS.provided (saveArg k newSpaces newItems newGroceries newRepairs) = false ->
         remoteField k path
           (remote (saveData e newSpaces newItems newGroceries newRepairs w))
         = remoteField k path (remote w))
  /\ (forall u : User,
         user (app w) = Some u -> isReadOnly (app w) = false ->
         storeAccepts e = true ->
         remote (saveData e newSpaces newItems newGroceries newRepairs w)
         = setDocMerge (userDoc e u)
             (saveUpdates e newSpaces newItems newGroceries newRepairs) (remote w)
         /\ (forall k : Key,
                JS.provided (saveArg k newSpaces newItems newGroceries newRepairs)
                = true ->
                remoteField k (userDoc e u)
                  (remote (saveData e newSpaces newItems newGroceries newRepairs w))
                = saveArg k newSpaces newItems newGroceries newRepairs)
         /\ remoteLastUpdated (userDoc e u)
              (remote (saveData e newSpaces newItems newGroceries newRepairs w))
            = Value (now e)
         /\ (forall path : list string,
                path <> userDoc e u ->
                remote (saveData e newSpaces newItems newGroceries newRepairs w)
                  !! path
                = remote w !! path)).
Proof.
  split; [apply saveUpdates_field|].
  split; [reflexivity|].
  split; [intros k path Hk; apply saveData_frame; exact Hk|].
  intros u Hu Hro Hok.
  rewrite (saveData_writes e newSpaces newItems newGroceries newRepairs w u Hu Hro Hok).
  split; [reflexivity|]. split; [|split].
  - intros k Hk. rewrite remoteField_setDocMerge_eq, saveUpdates_field, Hk.
    destruct (saveArg k newSpaces newItems newGroceries newRepairs);
      [discriminate Hk | discriminate Hk | reflexivity].
  - unfold remoteLastUpdated, setDocMerge. rewrite lookup_insert_eq. reflexivity.
  - intros path Hne. apply lookup_setDocMerge_ne. exact Hne.
Qed.

(** The round trip of the specification: a document with groceries,
    then [saveData(null, items, null)]. *)
Lemma saveData_sparse_merge_example :
  remoteField Kgroceries (userDoc Household.env Household.ann)
    (remote (saveData Household.env Null (Value [Household.kettle]) Null Undefined
               Household.world))
  = Value [Household.milk]
  /\ remoteField Kitems (userDoc Household.env Household.ann)
       (remote (saveData Household.env Null (Value [Household.kettle]) Null
                  Undefined Household.world))
     = Value [Household.kettle]
  /\ remoteLastUpdated (userDoc Household.env Household.ann)
       (remote (saveData Household.env Null (Value [Household.kettle]) Null
                  Undefined Household.world))
     = Value 1700000000000%Z.
Proof.
  destruct (saveData_sparse_merge Household.env Null (Value [Household.kettle])
              Null Undefined Household.world) as (_ & _ & Hframe & Hwrite).
  destruct (Hwrite Household.ann) as (_ & Hkeys & Hstamp & _);
    [reflexivity | reflexivity | reflexivity |].
  split; [|split].
  - rewrite (Hframe Kgroceries) by reflexivity. reflexivity.
  - rewrite (Hkeys Kitems) by reflexivity. reflexivity.
  - rewrite Hstamp. reflexivity.
Defined.

(** C3.  Without a user, or in a read-only session, [saveData] returns
    before it builds anything: the store (and the component) is exactly
    what it was. *)
Theorem saveData_noop (e : Env) (newSpaces : field (list Space))
    (newItems : field (list Item)) (newGroceries newRepairs : field (list Entry))
    (w : World) :
  user (app w) = None \/ isReadOnly (app w) = true ->
  remote (saveData e newSpaces newItems newGroceries newRepairs w) = remote w
  /\ saveData e newSpaces newItems newGroceries newRepairs w = w.
Proof.
  intros H. assert (saveData e newSpaces newItems newGroceries newRepairs w = w) as ->.
  { unfold saveData. destruct H as [-> | H]; [reflexivity|].
    rewrite H. destruct (user (app w)); reflexivity. }
  split; reflexivity.
Qed.

Lemma saveData_noop_example :
  remote (saveData Household.env (Value []) (Value []) (Value []) (Value [])
            Household.sharedWorld) = Household.store
  /\ remote (saveData Household.env (Value []) (Value []) (Value []) (Value [])
               Household.anonymousWorld) = Household.store.
Proof.
  split.
  - apply (saveData_noop Household.env (Value []) (Value []) (Value []) (Value [])
             Household.sharedWorld). right. reflexivity.
  - apply (saveData_noop Household.env (Value []) (Value []) (Value []) (Value [])
             Household.anonymousWorld). left. reflexivity.
Defined.

Lemma onSnapshot_field (k : Key) (snapshot : option Document) (s : AppState) :
  localField k (onSnapshot snapshot s)
  = match snapshotField k snapshot with
    | Value v => v
    | _ => localField k s
    end.
Proof.
  destruct snapshot as [d|]; [|destruct k; reflexivity].
  destruct d as [sp it gr rp lu].
  destruct k; simpl; destruct sp, it, gr, rp; reflexivity.
Qed.

(** C4.  The subscription callback replaces a collection of the local
    cache only when the snapshot holds it, and then by the snapshot's
    value; a collection the snapshot lacks keeps its local value, and so do
    the user, the selection and the other cells (only [loading] is reset).
    On a document without [repairs] the callback runs through and the
    local repairs stay as they were: the empty list of the first render. *)
Theorem onSnapshot_sparse_merge (snapshot : option Document) (s : AppState) :
  (forall (k : Key) (v : KeyT k),
      snapshotField k snapshot = Value v ->
      localField k (onSnapshot snapshot s) = v)
  /\ (forall k : Key,
         JS.truthy (snapshotField k snapshot) = false ->
         localField k (onSnapshot snapshot s) = localField k s)
  /\ (forall k : Key,
         localField k (onSnapshot snapshot s) <> localField k s ->
         exists v, snapshotField k snapshot = Value v)
  /\ (user (onSnapshot snapshot s) = user s
      /\ searchQuery (onSnapshot snapshot s) = searchQuery s
      /\ selectedItem (onSnapshot snapshot s) = selectedItem s
      /\ isReadOnly (onSnapshot snapshot s) = isReadOnly s
      /\ draggedOptionIdx (onSnapshot snapshot s) = draggedOptionIdx s
      /\ loading (onSnapshot snapshot s) = false)
  /\ (forall data : Document,
         snapshot = Some data -> doc_repairs data = Undefined ->
         repairs (onSnapshot snapshot s) = repairs s
         /\ repairs (onSnapshot snapshot initialState) = []).
Proof.
  split; [|split; [|split; [|split]]].
  - intros k v H. rewrite onSnapshot_field, H. reflexivity.
  - intros k H. rewrite onSnapshot_field.
    destruct (snapshotField k snapshot); [reflexivity | reflexivity | discriminate H].
  - intros k H. rewrite onSnapshot_field in H.
    destruct (snapshotField k snapshot) as [| |v]; [congruence | congruence | eauto].
  - destruct snapshot as [[sp it gr rp lu]|]; simpl;
      [destruct sp, it, gr, rp|]; repeat split; reflexivity.
  - intros data -> Hrep.
    assert (forall s0, repairs (onSnapshot (Some data) s0) = repairs s0) as H.
    { intros s0. apply (eq_trans (onSnapshot_field Krepairs (Some data) s0)).
      simpl. rewrite Hrep. reflexivity. }
    split; [apply H | rewrite H; reflexivity].
Qed.

Lemma onSnapshot_sparse_merge_example :
  repairs (onSnapshot (Some Household.legacyDocument) initialState) = []
  /\ items (onSnapshot (Some Household.legacyDocument) initialState)
     = [Household.sofa; Household.kettle].
Proof.
  destruct (onSnapshot_sparse_merge (Some Household.legacyDocument) initialState)
    as (Hset & _ & _ & _ & Hlegacy).
  split.
  - apply (Hlegacy Household.legacyDocument); reflexivity.
  - apply (Hset Kitems). reflexivity.
Defined.

(** ** Search *)

(** C6.  The search results hold exactly the items of the collection that
    the query matches, where a query matches an item when its lower-cased
    text occurs in the lower-cased name of the item, or in the lower-cased
    model or store of one of its options; a match on a store alone is
    enough.  The spaces shown are exactly those whose name matches or that
    own a matching item.  On ASCII text matching is occurrence with letter
    case ignored: some stretch of the name, model or store equals the query
    up to the case of its letters. *)
Theorem search_filter_spec {F : JS.CaseFold} (s : AppState) :
  (forall i : Item,
      In i (filteredItems s) <-> In i (items s) /\ itemMatches (searchQuery s) i)
  /\ (forall (i : Item) (opt : Opt),
         In i (items s) -> In opt (orNil (item_options i)) ->
         ciSubstring (searchQuery s) (JS.orEmpty (opt_store opt)) ->
         ~ ciSubstring (searchQuery s) (JS.orEmpty (opt_model opt)) ->
         ~ ciSubstring (searchQuery s) (JS.orEmpty (item_name i)) ->
         In i (filteredItems s))
  /\ (forall sp : Space,
         In sp (filteredSpaces s)
         <-> In sp (spaces s)
             /\ (ciSubstring (searchQuery s) (JS.orEmpty (space_name sp))
                 \/ exists i, In i (items s)
                              /\ item_spaceId i = space_id sp
                              /\ itemMatches (searchQuery s) i))
  /\ (JS.isAsciiText (searchQuery s) = true ->
      (forall i : Item,
          asciiItem i ->
          (In i (filteredItems s)
           <-> In i (items s) /\ itemOccurs (searchQuery s) i))
      /\ (forall (i : Item) (opt : Opt),
             In i (items s) -> asciiItem i -> In opt (orNil (item_options i)) ->
             occursIgnoringCase (searchQuery s) (JS.orEmpty (opt_store opt)) ->
             ~ occursIgnoringCase (searchQuery s) (JS.orEmpty (opt_model opt)) ->
             ~ occursIgnoringCase (searchQuery s) (JS.orEmpty (item_name i)) ->
             In i (filteredItems s))
      /\ (forall sp : Space,
             JS.isAsciiText (JS.orEmpty (space_name sp)) = true ->
             (forall i : Item,
                 In i (items s) -> item_spaceId i = space_id sp -> asciiItem i) ->
             (In sp (filteredSpaces s)
              <-> In sp (spaces s)
                  /\ (occursIgnoringCase (searchQuery s)
                        (JS.orEmpty (space_name sp))
                      \/ exists i, In i (items s)
                                   /\ item_spaceId i = space_id sp
                                   /\ itemOccurs (searchQuery s) i)))).
Proof.
  assert (forall i : Item,
             In i (filteredItems s)
             <-> In i (items s) /\ itemMatches (searchQuery s) i) as Hitems.
  { intros i. unfold filteredItems. rewrite filter_In, matchItem_iff. reflexivity. }
  assert (forall sp : Space,
             In sp (filteredSpaces s)
             <-> In sp (spaces s)
                 /\ (ciSubstring (searchQuery s) (JS.orEmpty (space_name sp))
                     \/ exists i, In i (items s)
                                  /\ item_spaceId i = space_id sp
                                  /\ itemMatches (searchQuery s) i)) as Hspaces.
  { intros sp. unfold filteredSpaces. rewrite filter_In.
    apply and_iff_compat_l.
    rewrite orb_true_iff, includes_lower, existsb_exists.
    apply or_iff_compat_l. split.
    + intros [i [Hi H]]. apply andb_true_iff in H as [Hsp Hm].
      exists i. split; [exact Hi|]. split.
      * apply String.eqb_eq. exact Hsp.
      * apply matchItem_iff. exact Hm.
    + intros [i (Hi & Hsp & Hm)]. exists i. split; [exact Hi|].
      apply andb_true_iff. split.
      * apply String.eqb_eq. exact Hsp.
      * apply matchItem_iff. exact Hm. }
  split; [exact Hitems|]. split; [|split; [exact Hspaces|]].
  - intros i opt Hi Hopt Hstore _ _. apply Hitems. split; [exact Hi|].
    right. exists opt. split; [exact Hopt | right; exact Hstore].
  - intros Hq.
    assert (forall i : Item,
               asciiItem i ->
               (In i (filteredItems s)
                <-> In i (items s) /\ itemOccurs (searchQuery s) i)) as Hascii.
    { intros i Hi. rewrite Hitems, (itemMatches_ascii _ i Hq Hi). reflexivity. }
    split; [exact Hascii|]. split.
    + intros i opt Hi Hai Hopt Hstore _ _. apply (Hascii i Hai).
      split; [exact Hi|]. right. exists opt.
      split; [exact Hopt | right; exact Hstore].
    + intros sp Hname Hchildren. rewrite Hspaces.
      apply and_iff_compat_l. rewrite (ciSubstring_ascii _ _ Hq Hname).
      apply or_iff_compat_l.
      split; intros (i & Hi & Hsp & Hm); exists i;
        (split; [exact Hi|]); (split; [exact Hsp|]);
        apply (itemMatches_ascii _ i Hq (Hchildren i Hi Hsp)); exact Hm.
Qed.

Lemma lower_not_includes {F : JS.CaseFold} (q t : string) :
  JS.includes (JS.toLowerCase t) (JS.toLowerCase q) = false -> ~ ciSubstring q t.
Proof. intros H C. apply includes_lower in C. congruence. Qed.

Lemma not_occurs_ascii (q t : string) :
  JS.isAsciiText q = true -> JS.isAsciiText t = true ->
  JS.includes (JS.lowerAscii t) (JS.lowerAscii q) = false ->
  ~ occursIgnoringCase q t.
Proof.
  intros Hq Ht H C. apply (ciSubstring_ascii (F := JS.asciiFold) q t Hq Ht) in C.
  apply (lower_not_includes (F := JS.asciiFold) q t H). exact C.
Qed.

Lemma asciiItem_sofa : asciiItem Household.sofa.
Proof.
  split; [reflexivity|].
  intros opt [<- | [<- | [<- | []]]]; split; reflexivity.
Qed.

Lemma search_filter_spec_example :
  In Household.sofa (filteredItems (F := JS.asciiFold) Household.searching)
  /\ In (mkSpace "1" (Some "Living Room") None)
        (filteredSpaces (F := JS.asciiFold) Household.searching).
Proof.
  destruct (search_filter_spec (F := JS.asciiFold) Household.searching)
    as (_ & _ & _ & Hascii).
  destruct (Hascii eq_refl) as (Hfound & Hstore & Hspaces).
  assert (In Household.sofa
            (filteredItems (F := JS.asciiFold) Household.searching)) as Hsofa.
  { apply (Hstore Household.sofa Household.vintage).
    - left. reflexivity.
    - exact asciiItem_sofa.
    - right. right. left. reflexivity.
    - exists "", "Flea", " Market". split; [reflexivity|]. simpl.
      split; [right; left; split; reflexivity|].
      repeat (split; [left; reflexivity|]). exact I.
    - apply not_occurs_ascii; reflexivity.
    - apply not_occurs_ascii; reflexivity. }
  split; [exact Hsofa|].
  apply Hspaces.
  - reflexivity.
  - intros i [<- | [<- | []]] Hsp; [exact asciiItem_sofa | discriminate Hsp].
  - split; [left; reflexivity|].
    right. exists Household.sofa. split; [left; reflexivity|].
    split; [reflexivity|].
    exact (proj2 (proj1 (Hfound Household.sofa asciiItem_sofa) Hsofa)).
Defined.

(** The claim read on any text does not hold: a name that ends in a capital
    sigma holds the query, the same capital sigma, as it stands, and the
    item is not found, since the name is lower-cased with a final sigma and
    the query with a plain one.  The two equations are what the built-in
    returns on these texts. *)
Lemma search_final_sigma_counterexample :
  (forall F : JS.CaseFold,
      JS.toLowerCase "ΑΣ" = "ας" -> JS.toLowerCase "Σ" = "σ" ->
      occursIgnoringCase (searchQuery Household.searchingSigma)
        (JS.orEmpty (item_name Household.alphaSigma))
      /\ In Household.alphaSigma (items Household.searchingSigma)
      /\ matchItem Household.alphaSigma "Σ" = false
      /\ filteredItems Household.searchingSigma = [])
  /\ (exists F : JS.CaseFold,
         JS.toLowerCase "ΑΣ" = "ας" /\ JS.toLowerCase "Σ" = "σ")
  /\ ~ (forall (F : JS.CaseFold) (s : AppState) (i : Item),
           In i (filteredItems s)
           <-> In i (items s) /\ itemOccurs (searchQuery s) i).
Proof.
  assert (occursIgnoringCase "Σ" "ΑΣ") as Hocc.
  { exists "Α", "Σ", "". split; [reflexivity|]. simpl.
    split; [left; reflexivity|]. split; [left; reflexivity | exact I]. }
  split; [|split].
  3: { intros H.
       specialize (H (JS.Build_CaseFold sigmaLower sigmaLower_ascii)
                     Household.searchingSigma Household.alphaSigma).
       destruct H as [_ H].
       assert (In Household.alphaSigma
                 (filteredItems (F := JS.Build_CaseFold sigmaLower sigmaLower_ascii)
                    Household.searchingSigma)) as Hin.
       { apply H. split; [left; reflexivity | left; exact Hocc]. }
       vm_compute in Hin. exact Hin. }
  - intros F H1 H2.
    assert (matchItem Household.alphaSigma "Σ" = false) as Hm.
    { change (JS.includes (JS.toLowerCase "ΑΣ") (JS.toLowerCase "Σ") || false
              = false).
      rewrite H1, H2. reflexivity. }
    split; [exact Hocc|].
    split; [left; reflexivity|]. split; [exact Hm|].
    change (filteredItems Household.searchingSigma)
      with (if matchItem Household.alphaSigma "Σ"
            then [Household.alphaSigma] else []).
    rewrite Hm. reflexivity.
  - exists (JS.Build_CaseFold sigmaLower sigmaLower_ascii).
    split; reflexivity.
Qed.


(** ** Item actions *)

Section UpdateItem.

Variables (e : Env) (itemId : string) (updates : ItemUpdates).

Let updated (w : World) : list Item :=
  map (fun i => if String.eqb (item_id i) itemId then spread i updates else i)
      (items (app w)).

Lemma updateItem_items (w : World) :
  items (app (updateItem e itemId updates w)) = updated w.
Proof.
  unfold updateItem.
  destruct (selectedItem (app w)) as [sel|];
    [destruct (String.eqb (item_id sel) itemId)|];
    simpl; rewrite saveData_app; reflexivity.
Qed.

Lemma updateItem_selected (w : World) (sel : Item) :
  selectedItem (app w) = Some sel -> item_id sel = itemId ->
  selectedItem (app (updateItem e itemId updates w)) = Some (spread sel updates).
Proof.
  intros Hsel Hid. unfold updateItem. rewrite Hsel.
  apply String.eqb_eq in Hid. rewrite Hid. reflexivity.
Qed.

Lemma updateItem_remote (w : World) :
  remote (updateItem e itemId updates w)
  = remote (saveData e Null (Value (updated w)) Null Undefined
              (onApp (setItems (updated w)) w)).
Proof.
  unfold updateItem.
  destruct (selectedItem (app w)) as [sel|];
    [destruct (String.eqb (item_id sel) itemId)|]; reflexivity.
Qed.

(** The cells [updateItem] does not write. *)
Lemma updateItem_cells (w : World) :
  user (app (updateItem e itemId updates w)) = user (app w)
  /\ isReadOnly (app (updateItem e itemId updates w)) = isReadOnly (app w)
  /\ draggedOptionIdx (app (updateItem e itemId updates w))
     = draggedOptionIdx (app w).
Proof.
  unfold updateItem.
  destruct (selectedItem (app w)) as [sel|];
    [destruct (String.eqb (item_id sel) itemId)|];
    simpl; rewrite saveData_app; repeat split; reflexivity.
Qed.

(** When the write goes through, the stored items are the local ones. *)
Lemma updateItem_persists (w : World) (u : User) :
  user (app w) = Some u -> isReadOnly (app w) = false -> storeAccepts e = true ->
  remoteField Kitems (userDoc e u) (remote (updateItem e itemId updates w))
  = Value (items (app (updateItem e itemId updates w))).
Proof.
  intros Hu Hro Hok. rewrite updateItem_items, updateItem_remote.
  rewrite (saveData_writes e _ _ _ _ _ u) by assumption.
  rewrite remoteField_setDocMerge_eq. reflexivity.
Qed.

End UpdateItem.

(** An item of the collection that carries the updated id carries the
    update. *)
Lemma updateItem_in_collection (e : Env) (itemId : string) (updates : ItemUpdates)
    (w : World) (i : Item) :
  In i (items (app (updateItem e itemId updates w))) -> item_id i = itemId ->
  exists i0, In i0 (items (app w)) /\ item_id i0 = itemId /\ i = spread i0 updates.
Proof.
  rewrite updateItem_items. intros Hin Hid.
  apply in_map_iff in Hin as [i0 [Heq Hin0]]. exists i0.
  destruct (String.eqb (item_id i0) itemId) eqn:E.
  - apply String.eqb_eq in E. subst i. auto.
  - subst i. apply String.eqb_neq in E. contradiction.
Qed.

(** Closes a goal on the options of an item of the updated collection. *)
Ltac carried Hin Hid :=
  let i0 := fresh "i0" in
  destruct (updateItem_in_collection _ _ _ _ _ Hin Hid) as (i0 & _ & _ & ->);
  reflexivity.

(** C7.  [deleteItem(itemId)] leaves in the items collection exactly the
    items whose id is not [itemId], so no item with the deleted id is left,
    and if the selected item had that id the selection is [null]
    afterwards. *)
Theorem deleteItem_removes_and_clears (e : Env) (itemId : string) (w : World) :
  (forall i : Item,
      In i (items (app (deleteItem e itemId w)))
      <-> In i (items (app w)) /\ item_id i <> itemId)
  /\ (forall sel : Item,
         selectedItem (app w) = Some sel -> item_id sel = itemId ->
         selectedItem (app (deleteItem e itemId w)) = None)
  /\ (forall i : Item,
         In i (items (app (deleteItem e itemId w))) -> item_id i <> itemId).
Proof.
  assert (forall i : Item,
             In i (items (app (deleteItem e itemId w)))
             <-> In i (items (app w)) /\ item_id i <> itemId) as Hleft.
  { intros i. unfold deleteItem. simpl. rewrite saveData_app. simpl.
    rewrite filter_In, negb_true_iff, String.eqb_neq. reflexivity. }
  split; [exact Hleft|]. split.
  - intros sel _ _. reflexivity.
  - intros i Hin. apply Hleft in Hin. tauto.
Qed.

Lemma deleteItem_removes_and_clears_example :
  selectedItem (app (deleteItem Household.env "i1" Household.world)) = None
  /\ items (app (deleteItem Household.env "i1" Household.world))
     = [Household.kettle].
Proof.
  destruct (deleteItem_removes_and_clears Household.env "i1" Household.world)
    as (_ & Hsel & _).
  split.
  - apply (Hsel Household.sofa); reflexivity.
  - reflexivity.
Defined.

(** C9.  [deleteItem] sets the selection to [null] on every call, also
    when the selected item is not the one deleted. *)
Theorem deleteItem_clears_any_selection (e : Env) (itemId : string) (w : World) :
  selectedItem (app (deleteItem e itemId w)) = None
  /\ (forall sel : Item,
         selectedItem (app w) = Some sel -> item_id sel <> itemId ->
         selectedItem (app (deleteItem e itemId w)) = None).
Proof. split; [reflexivity | intros sel _ _; reflexivity]. Qed.

(** The sofa is open and the kettle is deleted. *)
Lemma deleteItem_clears_any_selection_example :
  selectedItem (app Household.world) = Some Household.sofa
  /\ selectedItem (app (deleteItem Household.env "i2" Household.world)) = None.
Proof.
  split; [reflexivity|].
  destruct (deleteItem_clears_any_selection Household.env "i2" Household.world)
    as (_ & H).
  apply (H Household.sofa); [reflexivity | discriminate].
Defined.

(** ** Winners *)

Section Winners.

Lemma isWinner_setWinner (v : bool) (o : Opt) : isWinner (setWinner v o) = v.
Proof. destruct v; reflexivity. Qed.

Lemma not_winner_iff (o : Opt) : JS.not (opt_winner o) = negb (isWinner o).
Proof. unfold JS.not, isWinner. destruct (opt_winner o) as [[|]|]; reflexivity. Qed.

Lemma countWinners_cons (o : Opt) (l : list Opt) :
  countWinners (o :: l) = (if isWinner o then 1 else 0) + countWinners l.
Proof. unfold countWinners. simpl. destruct (isWinner o); reflexivity. Qed.

Lemma countWinners_none (l : list Opt) :
  (forall i o, l !! i = Some o -> isWinner o = false) -> countWinners l = 0.
Proof.
  induction l as [|x l IH]; intros H; [reflexivity|].
  rewrite countWinners_cons, (H 0 x eq_refl), IH; [reflexivity|].
  intros i o Hi. apply (H (S i) o Hi).
Qed.

(** A list whose only winner sits at [idx] has one winner. *)
Lemma countWinners_only (l : list Opt) (idx : nat) :
  idx < length l ->
  (forall i o, l !! i = Some o -> (isWinner o = true <-> i = idx)) ->
  countWinners l = 1.
Proof.
  revert idx. induction l as [|x l IH]; intros idx Hlt H; simpl in Hlt; [lia|].
  rewrite countWinners_cons. destruct idx as [|idx].
  - rewrite (proj2 (H 0 x eq_refl) eq_refl), countWinners_none; [reflexivity|].
    intros i o Hi. destruct (isWinner o) eqn:E; [|reflexivity].
    apply (H (S i) o Hi) in E. discriminate E.
  - destruct (isWinner x) eqn:E.
    + apply (H 0 x eq_refl) in E. discriminate E.
    + simpl. apply (IH idx); [lia|].
      intros i o Hi. rewrite (H (S i) o Hi). lia.
Qed.

(** Taking the flag from a winner takes one from the count. *)
Lemma countWinners_clear (l : list Opt) (idx : nat) (o : Opt) :
  l !! idx = Some o -> isWinner o = true ->
  S (countWinners (<[idx := setWinner false o]> l)) = countWinners l.
Proof.
  revert idx. induction l as [|x l IH]; intros idx Hi Hw; [discriminate Hi|].
  destruct idx as [|idx]; simpl in *.
  - injection Hi as ->. rewrite !countWinners_cons, Hw, isWinner_setWinner.
    reflexivity.
  - rewrite !countWinners_cons, <- (IH idx Hi Hw). lia.
Qed.

Lemma toggleWinner_on (idx : nat) (options : list Opt) (o : Opt) :
  options !! idx = Some o -> JS.not (opt_winner o) = true ->
  toggleWinner idx options = Some (crowned idx o options).
Proof. intros Hi Hn. unfold toggleWinner. rewrite Hi, Hn. reflexivity. Qed.

Lemma toggleWinner_off (idx : nat) (options : list Opt) (o : Opt) :
  options !! idx = Some o -> JS.not (opt_winner o) = false ->
  toggleWinner idx options = Some (<[idx := setWinner false o]> options).
Proof. intros Hi Hn. unfold toggleWinner. rewrite Hi, Hn. reflexivity. Qed.

Lemma crowned_lookup_eq (idx : nat) (o : Opt) (options : list Opt) :
  idx < length options -> crowned idx o options !! idx = Some (setWinner true o).
Proof.
  intros Hlt. unfold crowned.
  rewrite list_lookup_imap, list_lookup_insert_eq by exact Hlt.
  simpl. rewrite Nat.eqb_refl. reflexivity.
Qed.

Lemma crowned_lookup_ne (idx i : nat) (o : Opt) (options : list Opt) :
  i <> idx -> crowned idx o options !! i = setWinner false <$> options !! i.
Proof.
  intros Hne. unfold crowned.
  rewrite list_lookup_imap, list_lookup_insert_ne by congruence.
  apply Nat.eqb_neq in Hne. destruct (options !! i); simpl; [rewrite Hne|]; reflexivity.
Qed.

Lemma crowned_length (idx : nat) (o : Opt) (options : list Opt) :
  length (crowned idx o options) = length options.
Proof. unfold crowned. rewrite length_imap, length_insert. reflexivity. Qed.

Lemma crowned_winner_iff (idx i : nat) (o o' : Opt) (options : list Opt) :
  idx < length options -> crowned idx o options !! i = Some o' ->
  (isWinner o' = true <-> i = idx).
Proof.
  intros Hlt Hi. destruct (decide (i = idx)) as [-> | Hne].
  - rewrite crowned_lookup_eq in Hi by exact Hlt. injection Hi as <-.
    rewrite isWinner_setWinner. tauto.
  - rewrite crowned_lookup_ne in Hi by exact Hne.
    destruct (options !! i) as [x|]; [|discriminate Hi]. injection Hi as <-.
    rewrite isWinner_setWinner. split; [discriminate | contradiction].
Qed.

Lemma crowned_count (idx : nat) (o : Opt) (options : list Opt) :
  idx < length options -> countWinners (crowned idx o options) = 1.
Proof.
  intros Hlt. apply (countWinners_only _ idx).
  - rewrite crowned_length. exact Hlt.
  - intros i o' Hi. apply (crowned_winner_iff idx i o o' options Hlt Hi).
Qed.

(** One click never raises the number of winners above one, when it was
    at most one before. *)
Lemma toggleWinner_at_most_one (idx : nat) (options newOptions : list Opt) :
  countWinners options <= 1 -> toggleWinner idx options = Some newOptions ->
  countWinners newOptions <= 1.
Proof.
  intros Hle H. unfold toggleWinner in H.
  destruct (options !! idx) as [o|] eqn:Hi; [|discriminate H].
  pose proof (lookup_lt_Some _ _ _ Hi) as Hlt.
  destruct (JS.not (opt_winner o)) eqn:Hn; injection H as <-.
  - fold (crowned idx o options). rewrite crowned_count by exact Hlt. lia.
  - rewrite not_winner_iff, negb_false_iff in Hn.
    pose proof (countWinners_clear options idx o Hi Hn). lia.
Qed.

End Winners.

Lemma onWinnerClick_run (e : Env) (idx : nat) (w : World) (sel : Item)
    (options newOptions : list Opt) :
  selectedItem (app w) = Some sel -> item_options sel = Some options ->
  toggleWinner idx options = Some newOptions ->
  onWinnerClick e idx w
  = Some (updateItem e (item_id sel) (optionsUpdate newOptions) w)
  /\ selectedOptions (updateItem e (item_id sel) (optionsUpdate newOptions) w)
     = newOptions.
Proof.
  intros Hsel Hopts Htog. split.
  - unfold onWinnerClick. rewrite Hsel, Hopts, Htog. reflexivity.
  - unfold selectedOptions.
    rewrite (updateItem_selected _ _ _ _ sel Hsel eq_refl). reflexivity.
Qed.

(** C1.  When the click on the Trophy button of option [idx] turns its
    flag on, the options of the open item, and of the items of the
    collection with its id, become a list of the same length in which
    option [idx] has [winner === true], every other option has
    [winner === false] and is otherwise what it was: exactly one
    winner. *)
Theorem winner_toggle_single_winner (e : Env) (w : World) (sel : Item)
    (options : list Opt) (idx : nat) (o : Opt) :
  selectedItem (app w) = Some sel -> item_options sel = Some options ->
  options !! idx = Some o ->
  JS.not (opt_winner o) = true ->
  exists (w' : World) (newOptions : list Opt),
    onWinnerClick e idx w = Some w'
    /\ w' = updateItem e (item_id sel) (optionsUpdate newOptions) w
    /\ selectedItem (app w') = Some (spread sel (optionsUpdate newOptions))
    /\ (forall i : Item,
           In i (items (app w')) -> item_id i = item_id sel ->
           item_options i = Some newOptions)
    /\ length newOptions = length options
    /\ newOptions !! idx = Some (setWinner true o)
    /\ (forall (i : nat) (o' : Opt),
           i <> idx -> options !! i = Some o' ->
           newOptions !! i = Some (setWinner false o'))
    /\ (forall (i : nat) (o' : Opt),
           newOptions !! i = Some o' -> (opt_winner o' = Some true <-> i = idx))
    /\ (forall (i : nat) (o' : Opt),
           newOptions !! i = Some o' -> i <> idx -> opt_winner o' = Some false)
    /\ countWinners newOptions = 1.
Proof.
  intros Hsel Hopts Hi Hn.
  pose proof (lookup_lt_Some _ _ _ Hi) as Hlt.
  pose proof (toggleWinner_on idx options o Hi Hn) as Htog.
  destruct (onWinnerClick_run e idx w sel options _ Hsel Hopts Htog) as [Hrun _].
  exists (updateItem e (item_id sel) (optionsUpdate (crowned idx o options)) w),
         (crowned idx o options).
  split; [exact Hrun|]. split; [reflexivity|].
  split; [apply updateItem_selected; [exact Hsel | reflexivity]|].
  split.
  { intros i Hin Hid. carried Hin Hid. }
  split; [apply crowned_length|].
  split; [apply crowned_lookup_eq; exact Hlt|].
  split.
  { intros i o' Hne Ho'. rewrite crowned_lookup_ne, Ho' by exact Hne. reflexivity. }
  split.
  { intros i o' Ho'. rewrite <- (crowned_winner_iff idx i o o' options Hlt Ho').
    unfold isWinner. destruct (opt_winner o') as [[|]|]; split; congruence. }
  split.
  { intros i o' Ho' Hne. rewrite crowned_lookup_ne in Ho' by exact Hne.
    destruct (options !! i); [|discriminate Ho']. injection Ho' as <-. reflexivity. }
  apply crowned_count. exact Hlt.
Qed.

(** The Stockholm sofa takes the trophy from the Soderhamn. *)
Lemma winner_toggle_single_winner_example :
  exists w' : World,
    onWinnerClick Household.env 0 Household.world = Some w'
    /\ map opt_winner (selectedOptions w') = [Some true; Some false; Some false]
    /\ countWinners (selectedOptions w') = 1.
Proof.
  destruct (winner_toggle_single_winner Household.env Household.world
              Household.sofa
              [Household.stockholm; Household.soderhamn; Household.vintage]
              0 Household.stockholm)
    as (w' & newOptions & Hrun & -> & _);
    [reflexivity | reflexivity | reflexivity | reflexivity |].
  exists (updateItem Household.env (item_id Household.sofa)
            (optionsUpdate newOptions) Household.world).
  split; [exact Hrun|].
  injection Hrun as <-. split; reflexivity.
Defined.

Lemma onWinnerClick_inv (e : Env) (idx : nat) (w w' : World) :
  onWinnerClick e idx w = Some w' ->
  exists newOptions,
    toggleWinner idx (selectedOptions w) = Some newOptions
    /\ selectedOptions w' = newOptions.
Proof.
  unfold onWinnerClick, selectedOptions at 1.
  destruct (selectedItem (app w)) as [sel|] eqn:Hsel; [|discriminate].
  destruct (item_options sel) as [options|] eqn:Hopts; [|discriminate].
  destruct (toggleWinner idx options) as [newOptions|] eqn:Htog; [|discriminate].
  intros H. injection H as <-. exists newOptions. split; [exact Htog|].
  apply (onWinnerClick_run e idx w sel options newOptions Hsel Hopts Htog).
Qed.

Lemma winnerClicks_at_most_one (e : Env) (idxs : list nat) (w w' : World) :
  countWinners (selectedOptions w) <= 1 -> winnerClicks e idxs w = Some w' ->
  countWinners (selectedOptions w') <= 1.
Proof.
  revert w. induction idxs as [|idx rest IH]; intros w Hle H; simpl in H.
  - injection H as <-. exact Hle.
  - destruct (onWinnerClick e idx w) as [w1|] eqn:Hclick; [|discriminate H].
    apply (IH w1); [|exact H].
    destruct (onWinnerClick_inv e idx w w1 Hclick) as (newOptions & Htog & ->).
    apply (toggleWinner_at_most_one idx (selectedOptions w)); assumption.
Qed.

(** A click on the Trophy button of a winner clears that flag alone; the
    other winners of a list that has several stay, so the list is not
    left without a winner, nor with at most one. *)
Lemma winner_toggle_off_counterexample :
  ~ (forall (e : Env) (w w' : World) (idx : nat) (o : Opt),
        selectedOptions w !! idx = Some o -> opt_winner o = Some true ->
        onWinnerClick e idx w = Some w' ->
        countWinners (selectedOptions w') = 0)
  /\ ~ (forall (e : Env) (idxs : list nat) (w w' : World),
           winnerClicks e idxs w = Some w' ->
           countWinners (selectedOptions w') <= 1).
Proof.
  split.
  - intros H.
    specialize (H Household.env Household.lampWorld _ 0
                  (setWinner true Household.stockholm) eq_refl eq_refl eq_refl).
    vm_compute in H. discriminate H.
  - intros H.
    specialize (H Household.env [0] Household.lampWorld _ eq_refl).
    vm_compute in H. lia.
Qed.

(** C10.  A click on the Trophy button of an option that has
    [winner === true] sets that flag to [false] and leaves every other
    option as it was, so the list has one winner fewer: none when the
    option was the only winner.  From a list with at most one winner every
    run of clicks leads to a list with at most one winner, and a list
    without a winner is reached. *)
Theorem winner_toggle_off_at_most_one :
  (forall (e : Env) (w : World) (sel : Item) (options : list Opt) (idx : nat)
          (o : Opt),
      selectedItem (app w) = Some sel -> item_options sel = Some options ->
      options !! idx = Some o -> opt_winner o = Some true ->
      exists (w' : World) (newOptions : list Opt),
        onWinnerClick e idx w = Some w'
        /\ selectedOptions w' = newOptions
        /\ newOptions !! idx = Some (setWinner false o)
        /\ (forall i : nat, i <> idx -> newOptions !! i = options !! i)
        /\ S (countWinners newOptions) = countWinners options
        /\ (countWinners options <= 1 -> countWinners newOptions = 0))
  /\ (forall (e : Env) (idxs : list nat) (w w' : World),
         countWinners (selectedOptions w) <= 1 ->
         winnerClicks e idxs w = Some w' ->
         countWinners (selectedOptions w') <= 1)
  /\ (exists (e : Env) (w w' : World),
         countWinners (selectedOptions w) = 1
         /\ winnerClicks e [1] w = Some w'
         /\ countWinners (selectedOptions w') = 0).
Proof.
  split; [|split].
  - intros e w sel options idx o Hsel Hopts Hi Hw.
    assert (JS.not (opt_winner o) = false) as Hn by (rewrite Hw; reflexivity).
    assert (isWinner o = true) as Hwin by (unfold isWinner; rewrite Hw; reflexivity).
    pose proof (toggleWinner_off idx options o Hi Hn) as Htog.
    destruct (onWinnerClick_run e idx w sel options _ Hsel Hopts Htog)
      as [Hrun Hnew].
    pose proof (countWinners_clear options idx o Hi Hwin) as Hcount.
    eexists _, _. split; [exact Hrun|]. split; [exact Hnew|].
    split; [apply list_lookup_insert_eq, (lookup_lt_Some _ _ _ Hi)|].
    split; [intros i Hne; apply list_lookup_insert_ne; congruence|].
    split; [exact Hcount | lia].
  - apply winnerClicks_at_most_one.
  - exists Household.env, Household.world.
    eexists. split; [reflexivity|]. split; reflexivity.
Qed.

(** The Soderhamn gives the trophy back: the sofa has no winner. *)
Lemma winner_toggle_off_at_most_one_example :
  exists w' : World,
    onWinnerClick Household.env 1 Household.world = Some w'
    /\ map opt_winner (selectedOptions w') = [Some false; Some false; None]
    /\ countWinners (selectedOptions w') = 0.
Proof.
  destruct winner_toggle_off_at_most_one as (Hoff & _ & _).
  destruct (Hoff Household.env Household.world Household.sofa
              [Household.stockholm; Household.soderhamn; Household.vintage]
              1 Household.soderhamn)
    as (w' & newOptions & Hrun & Hnew & _ & _ & _ & Hzero);
    [reflexivity | reflexivity | reflexivity | reflexivity |].
  exists w'. split; [exact Hrun|].
  split.
  - injection Hrun as <-. reflexivity.
  - rewrite Hnew. apply Hzero. vm_compute. lia.
Defined.

(** ** Reordering *)

Section Reordering.

Lemma allDefined_map_Some (l : list Opt) : allDefined (map Some l) = Some l.
Proof. induction l as [|x l IH]; simpl; [|rewrite IH]; reflexivity. Qed.

Lemma spliceIn_map_Some (j : nat) (x : Opt) (l : list Opt) :
  JS.spliceIn j (Some x) (map Some l) = map Some (JS.spliceIn j x l).
Proof.
  unfold JS.spliceIn. change (map Some) with (fmap (M:=list) (@Some Opt)).
  rewrite fmap_app, fmap_take. simpl. rewrite fmap_drop. reflexivity.
Qed.

(** With the dragged index inside the array the two splices take the
    option out and put it back at the drop index. *)
Lemma moveOption_in_range (i j : nat) (options : list Opt) (x : Opt) :
  options !! i = Some x ->
  moveOption i j options = map Some (JS.spliceIn j x (delete i options)).
Proof.
  intros Hi. unfold moveOption, JS.spliceOut. cbv beta iota zeta.
  change (map Some) with (fmap (M:=list) (@Some Opt)).
  rewrite <- !fmap_drop, <- !fmap_take, <- fmap_app, <- delete_take_drop.
  rewrite (drop_S _ _ _ Hi). simpl. apply spliceIn_map_Some.
Qed.

Lemma spliceIn_Permutation (j : nat) (x : Opt) (l : list Opt) :
  Permutation (JS.spliceIn j x l) (x :: l).
Proof.
  unfold JS.spliceIn. symmetry.
  rewrite <- (take_drop j l) at 1. apply Permutation_middle.
Qed.

Lemma spliceIn_lookup (j : nat) (x : Opt) (l : list Opt) :
  j <= length l -> JS.spliceIn j x l !! j = Some x.
Proof.
  intros Hle. unfold JS.spliceIn. apply list_lookup_middle.
  rewrite length_take. lia.
Qed.

Lemma spliceIn_delete (j : nat) (x : Opt) (l : list Opt) :
  j <= length l -> delete j (JS.spliceIn j x l) = l.
Proof.
  intros Hle. unfold JS.spliceIn. rewrite delete_take_drop.
  assert (length (take j l) = j) as Hlen by (rewrite length_take; lia).
  rewrite take_app_le, take_take, Nat.min_id by lia.
  rewrite drop_app_ge by lia. rewrite Hlen.
  replace (S j - j) with 1 by lia. simpl. rewrite drop_0. apply take_drop.
Qed.

Lemma spliceIn_length (j : nat) (x : Opt) (l : list Opt) :
  length (JS.spliceIn j x l) = S (length l).
Proof.
  unfold JS.spliceIn. rewrite length_app. simpl.
  rewrite length_take, length_drop. lia.
Qed.

End Reordering.

(** C5.  A drop at index [j] of the option dragged from index [i], both
    inside the list and different, gives the open item (and the items of
    the collection with its id) the list obtained by taking the option out
    at [i] and putting it in at [j]: a permutation of the old list, of the
    same length, with the dragged option at [j] and the other options in
    their old order; the drag index is reset.  Without a drag in progress,
    or when the drop index is the drag index, the handler returns at once
    and nothing changes. *)
Theorem handleOptionDrop_reorders (e : Env) (w : World) (j : nat) :
  (forall (sel : Item) (options : list Opt) (i : nat),
      selectedItem (app w) = Some sel -> item_options sel = Some options ->
      draggedOptionIdx (app w) = Some i ->
      i < length options -> j < length options -> i <> j ->
      exists (x : Opt) (newOptions : list Opt) (w' : World),
        options !! i = Some x
        /\ newOptions = JS.spliceIn j x (delete i options)
        /\ handleOptionDrop e j w = Some w'
        /\ selectedItem (app w') = Some (spread sel (optionsUpdate newOptions))
        /\ selectedOptions w' = newOptions
        /\ (forall it : Item,
               In it (items (app w')) -> item_id it = item_id sel ->
               item_options it = Some newOptions)
        /\ draggedOptionIdx (app w') = None
        /\ Permutation newOptions options
        /\ length newOptions = length options
        /\ newOptions !! j = Some x
        /\ delete j newOptions = delete i options)
  /\ (draggedOptionIdx (app w) = None \/ draggedOptionIdx (app w) = Some j ->
      handleOptionDrop e j w = Some w).
Proof.
  split.
  - intros sel options i Hsel Hopts Hdrag Hi Hj Hne.
    destruct (lookup_lt_is_Some_2 options i Hi) as [x Hx].
    assert (length (delete i options) = length options - 1) as Hlen.
    { pose proof (length_delete options i (ex_intro _ x Hx)). lia. }
    exists x, (JS.spliceIn j x (delete i options)).
    eexists. split; [exact Hx|]. split; [reflexivity|].
    split.
    { unfold handleOptionDrop. rewrite Hdrag.
      apply Nat.eqb_neq in Hne. rewrite Hne, Hsel, Hopts.
      rewrite (moveOption_in_range i j options x Hx), allDefined_map_Some.
      reflexivity. }
    simpl.
    assert (selectedItem
              (app (updateItem e (item_id sel)
                      (optionsUpdate (JS.spliceIn j x (delete i options))) w))
            = Some (spread sel
                      (optionsUpdate (JS.spliceIn j x (delete i options)))))
      as Hnew by (apply updateItem_selected; [exact Hsel | reflexivity]).
    split; [exact Hnew|].
    split; [unfold selectedOptions; simpl; rewrite Hnew; reflexivity|].
    split.
    { intros it Hin Hid. carried Hin Hid. }
    split; [reflexivity|].
    split.
    { rewrite spliceIn_Permutation. symmetry. apply delete_Permutation. exact Hx. }
    split; [rewrite spliceIn_length; lia|].
    split; [apply spliceIn_lookup; lia | apply spliceIn_delete; lia].
  - intros [H | H]; unfold handleOptionDrop; rewrite H; [reflexivity|].
    rewrite Nat.eqb_refl. reflexivity.
Qed.

(** The vintage find is dragged to the front of the sofa's options. *)
Lemma handleOptionDrop_reorders_example :
  exists w' : World,
    handleOptionDrop Household.env 0
      (handleOptionDragStart 2 Household.world) = Some w'
    /\ selectedOptions w'
       = [Household.vintage; Household.stockholm; Household.soderhamn]
    /\ draggedOptionIdx (app w') = None.
Proof.
  destruct (handleOptionDrop_reorders Household.env
              (handleOptionDragStart 2 Household.world) 0) as (Hmove & _).
  destruct (Hmove Household.sofa
              [Household.stockholm; Household.soderhamn; Household.vintage] 2)
    as (x & newOptions & w' & Hx & -> & Hrun & _ & Hnew & _ & Hdrag & _);
    [reflexivity | reflexivity | reflexivity | simpl; lia | simpl; lia | lia |].
  exists w'. split; [exact Hrun|]. split; [|exact Hdrag].
  rewrite Hnew. injection Hx as <-. reflexivity.
Defined.

(** A drag index past the end (the list shrank under the drag): the
    splices put [undefined] at the drop index. *)
Lemma moveOption_stale_example :
  moveOption 5 0 [Household.stockholm; Household.soderhamn]
  = [None; Some Household.stockholm; Some Household.soderhamn].
Proof. reflexivity. Qed.

(** ** Identifier backfill *)

Section Backfill.

Variable gen : nat -> string.

Lemma lacking_cons (o : Opt) (l : list Opt) :
  lacking (o :: l) = (if lacksId o then 1 else 0) + lacking l.
Proof. unfold lacking. simpl. destruct (lacksId o); reflexivity. Qed.

Lemma patchOptions_length (k : nat) (options : list Opt) :
  length (patchOptions gen k options) = length options.
Proof.
  revert k. induction options as [|o t IH]; intros k; simpl; [reflexivity|].
  destruct (JS.truthyStr (opt_id o)); simpl; rewrite IH; reflexivity.
Qed.

(** An option that has an identifier is handed on as it is. *)
Lemma patchOptions_kept (k n : nat) (options : list Opt) (o : Opt) :
  options !! n = Some o -> JS.truthyStr (opt_id o) = true ->
  patchOptions gen k options !! n = Some o.
Proof.
  revert k n. induction options as [|x t IH]; intros k n Hn Hid; [discriminate Hn|].
  destruct n as [|n]; simpl in *.
  - injection Hn as ->. rewrite Hid. reflexivity.
  - destruct (JS.truthyStr (opt_id x)); simpl; apply IH; assumption.
Qed.

(** An option without one gets the next identifier drawn: the draws made
    before it are those for the options without identifier in front of it. *)
Lemma patchOptions_new (k n : nat) (options : list Opt) (o : Opt) :
  options !! n = Some o -> JS.truthyStr (opt_id o) = false ->
  patchOptions gen k options !! n
  = Some (setId (gen (k + lacking (take n options))) o).
Proof.
  revert k n. induction options as [|x t IH]; intros k n Hn Hid; [discriminate Hn|].
  destruct n as [|n]; simpl in *.
  - injection Hn as ->. rewrite Hid. simpl. rewrite Nat.add_0_r. reflexivity.
  - rewrite lacking_cons. unfold lacksId at 1.
    destruct (JS.truthyStr (opt_id x)); simpl.
    + apply IH; assumption.
    + rewrite (IH (S k) n Hn Hid). do 3 f_equal. lia.
Qed.

Lemma patchOptions_all_ids (k : nat) (options : list Opt) :
  (forall n, gen n <> "") ->
  forall o, In o (patchOptions gen k options) -> JS.truthyStr (opt_id o) = true.
Proof.
  intros Hgen. revert k.
  induction options as [|x t IH]; intros k o Hin; simpl in Hin; [contradiction|].
  destruct (JS.truthyStr (opt_id x)) eqn:Hx; destruct Hin as [<- | Hin].
  - exact Hx.
  - apply (IH k). exact Hin.
  - simpl. apply negb_true_iff, String.eqb_neq, Hgen.
  - apply (IH (S k)). exact Hin.
Qed.

Lemma lacking_take_lt (n m : nat) (options : list Opt) (o : Opt) :
  options !! n = Some o -> lacksId o = true -> n < m ->
  lacking (take n options) < lacking (take m options).
Proof.
  revert n m. induction options as [|x t IH]; intros n m Hn Hid Hlt;
    [discriminate Hn|].
  destruct m as [|m]; [lia|]. destruct n as [|n]; simpl in *.
  - injection Hn as ->. rewrite lacking_cons, Hid. unfold lacking. simpl. lia.
  - rewrite !lacking_cons. apply Nat.add_lt_mono_l. apply (IH n m Hn Hid). lia.
Qed.

Lemma existsb_lacksId_false (l : list Opt) :
  (forall o, In o l -> JS.truthyStr (opt_id o) = true) -> existsb lacksId l = false.
Proof.
  intros H. induction l as [|x t IH]; [reflexivity|]. simpl.
  unfold lacksId at 1. rewrite (H x (or_introl eq_refl)). simpl.
  apply IH. intros o Ho. apply H. right. exact Ho.
Qed.

End Backfill.

(** C8.  With an item open of which some option has no identifier, the
    effect calls [updateItem] with the options patched: an option that has
    an identifier is the same option at the same place, an option without
    one gets the identifier of its own call of [crypto.randomUUID()] and is
    otherwise unchanged.  The open item and the items of the collection
    with its id carry the patched list, the store receives the collection
    when [saveData] writes, every option of the open item has an identifier
    afterwards, and the effect has nothing left to do when it runs again. *)
Theorem migration_backfill (e : Env) (w : World) (sel : Item) (options : list Opt) :
  selectedItem (app w) = Some sel -> item_options sel = Some options ->
  existsb lacksId options = true ->
  (forall k : nat, randomUUID e k <> "") ->
  exists patched : list Opt,
    migrationEffect e w = updateItem e (item_id sel) (optionsUpdate patched) w
    /\ selectedItem (app (migrationEffect e w))
       = Some (spread sel (optionsUpdate patched))
    /\ selectedOptions (migrationEffect e w) = patched
    /\ (forall it : Item,
           In it (items (app (migrationEffect e w))) -> item_id it = item_id sel ->
           item_options it = Some patched)
    /\ (forall u : User,
           user (app w) = Some u -> isReadOnly (app w) = false ->
           storeAccepts e = true ->
           remoteField Kitems (userDoc e u) (remote (migrationEffect e w))
           = Value (items (app (migrationEffect e w))))
    /\ length patched = length options
    /\ (forall (n : nat) (o : Opt),
           options !! n = Some o -> JS.truthyStr (opt_id o) = true ->
           patched !! n = Some o)
    /\ (forall (n : nat) (o : Opt),
           options !! n = Some o -> JS.truthyStr (opt_id o) = false ->
           exists o' : Opt,
             patched !! n = Some o'
             /\ opt_id o' = Some (randomUUID e (lacking (take n options)))
             /\ opt_model o' = opt_model o
             /\ opt_price o' = opt_price o
             /\ opt_store o' = opt_store o
             /\ opt_link o' = opt_link o
             /\ opt_notes o' = opt_notes o
             /\ opt_winner o' = opt_winner o
             /\ opt_image o' = opt_image o)
    /\ (forall (n m : nat) (o : Opt),
           options !! n = Some o -> JS.truthyStr (opt_id o) = false -> n < m ->
           lacking (take n options) < lacking (take m options))
    /\ (forall o : Opt, In o patched -> JS.truthyStr (opt_id o) = true)
    /\ migrationEffect e (migrationEffect e w) = migrationEffect e w.
Proof.
  intros Hsel Hopts Hsome Hgen.
  exists (patchOptions (randomUUID e) 0 options).
  assert (migrationEffect e w
          = updateItem e (item_id sel)
              (optionsUpdate (patchOptions (randomUUID e) 0 options)) w) as Hrun.
  { unfold migrationEffect. rewrite Hsel, Hopts, Hsome. reflexivity. }
  assert (selectedItem (app (migrationEffect e w))
          = Some (spread sel
                    (optionsUpdate (patchOptions (randomUUID e) 0 options))))
    as Hnew.
  { rewrite Hrun. apply updateItem_selected; [exact Hsel | reflexivity]. }
  pose proof (patchOptions_all_ids (randomUUID e) 0 options Hgen) as Hall.
  split; [exact Hrun|]. split; [exact Hnew|].
  split; [unfold selectedOptions; rewrite Hnew; reflexivity|].
  split.
  { rewrite Hrun. intros it Hin Hid. carried Hin Hid. }
  split; [rewrite Hrun; intros u Hu Hro Hok; apply updateItem_persists; assumption|].
  split; [apply patchOptions_length|].
  split; [intros n o Hn Hid; apply patchOptions_kept; assumption|].
  split.
  { intros n o Hn Hid.
    exists (setId (randomUUID e (lacking (take n options))) o).
    split; [apply (patchOptions_new _ 0); assumption|].
    repeat split. }
  split.
  { intros n m o Hn Hid Hlt. apply (lacking_take_lt n m options o Hn); [|exact Hlt].
    unfold lacksId. rewrite Hid. reflexivity. }
  split; [exact Hall|].
  unfold migrationEffect at 1. rewrite Hnew. simpl.
  rewrite (existsb_lacksId_false _ Hall). reflexivity.
Qed.

(** The vintage find of the sofa gets the first identifier drawn and keeps
    its model, price and store; the two options that have an identifier are
    what they were. *)
Lemma migration_backfill_example :
  selectedOptions (migrationEffect Household.env Household.world)
  = [mkOpt (Some "o1") (Some "Stockholm") (Some "1299") (Some "IKEA")
       (Some "") (Some "") (Some false) None;
     mkOpt (Some "o2") (Some "Soderhamn") (Some "899") (Some "Ikea Online")
       (Some "") (Some "") (Some true) None;
     mkOpt (Some "uuid-0") (Some "Vintage find") (Some "300")
       (Some "Flea Market") None None None None]
  /\ (exists o' : Opt,
         selectedOptions (migrationEffect Household.env Household.world) !! 2
         = Some o'
         /\ opt_id o' = Some "uuid-0"
         /\ opt_model o' = Some "Vintage find"
         /\ opt_price o' = Some "300"
         /\ opt_store o' = Some "Flea Market"
         /\ opt_link o' = None /\ opt_notes o' = None
         /\ opt_winner o' = None /\ opt_image o' = None)
  /\ items (app (migrationEffect Household.env Household.world))
     = [mkItem "i1" "1" (Some "Sofa")
          (Some (selectedOptions (migrationEffect Household.env Household.world)))
          None 0;
        Household.kettle]
  /\ remoteField Kitems (userDoc Household.env Household.ann)
       (remote (migrationEffect Household.env Household.world))
     = Value (items (app (migrationEffect Household.env Household.world))).
Proof.
  destruct (migration_backfill Household.env Household.world Household.sofa
              [Household.stockholm; Household.soderhamn; Household.vintage])
    as (patched & _ & _ & Hopen & _ & Hsaved & _ & _ & Hnew & _);
    [reflexivity | reflexivity | reflexivity | intros k; discriminate |].
  split; [reflexivity|].
  split.
  { destruct (Hnew 2 Household.vintage eq_refl eq_refl) as (o' & H2 & Hfields).
    exists o'. rewrite Hopen. split; [exact H2 | exact Hfields]. }
  split; [reflexivity|].
  apply (Hsaved Household.ann); reflexivity.
Defined.

(** * The other handlers *)

(** ** What a handler changes *)

Section Effects.

Variable e : Env.

(** Splits a world into its cells and runs [saveData] in each case of its
    guard and of the store's answer. *)
Ltac cells w :=
  destruct w as [[? ? ? ? ? ? ? ? ? ?] ?]; simpl in *.

Ltac run_save :=
  unfold saveKey, saveData; simpl;
  repeat match goal with
         | |- context [match ?x with _ => _ end] => destruct x; simpl
         end.

Lemma quiet_refl (w : World) : quiet w w.
Proof. repeat split. Qed.

Lemma edits_Kgroceries (v : list Entry) (c : field (list Entry))
    (s1 : field (list Space)) (i1 : field (list Item)) (w : World) :
  JS.provided s1 = false -> JS.provided i1 = false -> JS.provided c = false ->
  edits e Kgroceries w (saveData e s1 i1 (Value v) c (onApp (setGroceries v) w)).
Proof.
  intros Hs Hi Hc. cells w.
  destruct s1; try discriminate; destruct i1; try discriminate;
    destruct c; try discriminate;
    (split; [|split; [|split]];
     [run_save; reflexivity | run_save; reflexivity | run_save; reflexivity
     | intros k' Hk'; destruct k'; try congruence; run_save; reflexivity]).
Qed.

Lemma edits_Krepairs (v : list Entry) (c : field (list Entry))
    (s1 : field (list Space)) (i1 : field (list Item)) (w : World) :
  JS.provided s1 = false -> JS.provided i1 = false -> JS.provided c = false ->
  edits e Krepairs w (saveData e s1 i1 c (Value v) (onApp (setRepairs v) w)).
Proof.
  intros Hs Hi Hc. cells w.
  destruct s1; try discriminate; destruct i1; try discriminate;
    destruct c; try discriminate;
    (split; [|split; [|split]];
     [run_save; reflexivity | run_save; reflexivity | run_save; reflexivity
     | intros k' Hk'; destruct k'; try congruence; run_save; reflexivity]).
Qed.

Lemma edits_Kitems (v : list Item) (s1 : field (list Space))
    (c d : field (list Entry)) (w : World) :
  JS.provided s1 = false -> JS.provided c = false -> JS.provided d = false ->
  edits e Kitems w (saveData e s1 (Value v) c d (onApp (setItems v) w)).
Proof.
  intros Hs Hc Hd. cells w.
  destruct s1; try discriminate; destruct c; try discriminate;
    destruct d; try discriminate;
    (split; [|split; [|split]];
     [run_save; reflexivity | run_save; reflexivity | run_save; reflexivity
     | intros k' Hk'; destruct k'; try congruence; run_save; reflexivity]).
Qed.

(** A change of the selection on top of an edit is still that edit. *)
Lemma edits_select (k : Key) (w w' : World) (sel : option Item) :
  edits e k w w' -> edits e k w (onApp (setSelectedItem sel) w').
Proof. intros H. cells w'. exact H. Qed.

Lemma edits_drag (k : Key) (w w' : World) (d : option nat) :
  edits e k w w' -> edits e k w (onApp (setDraggedOptionIdx d) w').
Proof. intros H. cells w'. exact H. Qed.

Lemma updateItem_edits (itemId : string) (updates : ItemUpdates) (w : World) :
  edits e Kitems w (updateItem e itemId updates w).
Proof.
  unfold updateItem.
  destruct (selectedItem (app w)) as [sel|];
    [destruct (String.eqb (item_id sel) itemId)|];
    try apply edits_select; apply edits_Kitems; reflexivity.
Qed.

Lemma deleteItem_edits (itemId : string) (w : World) :
  edits e Kitems w (deleteItem e itemId w).
Proof. unfold deleteItem. apply edits_select, edits_Kitems; reflexivity. Qed.

Lemma itemImageLoaded_edits (itemId : string) (result : option string) (w : World) :
  edits e Kitems w (itemImageLoaded e itemId result w).
Proof.
  unfold itemImageLoaded.
  destruct w as [[u q sp it gr rp sel ro ld dr] r]; simpl.
  destruct sel as [s|]; [destruct (String.eqb (item_id s) itemId)|];
    (split; [|split; [|split]];
     [run_save; reflexivity | run_save; reflexivity | run_save; reflexivity
     | intros k' Hk'; destruct k'; try congruence; run_save; reflexivity]).
Qed.

Lemma spaceImageLoaded_edits (spaceId : string) (result : option string)
    (w : World) :
  edits e Kspaces w (spaceImageLoaded e (app w) spaceId result w).
Proof.
  unfold spaceImageLoaded. cells w.
  split; [|split; [|split]];
    [run_save; reflexivity | reflexivity | reflexivity
    | intros k' Hk'; destruct k'; try congruence; reflexivity].
Qed.

Lemma optionImageLoaded_effect (itemId : string) (idx : nat)
    (result : option string) (w : World) :
  quiet w (optionImageLoaded e itemId idx result w)
  \/ edits e Kitems w (optionImageLoaded e itemId idx result w).
Proof.
  unfold optionImageLoaded.
  destruct (find _ _) as [item|]; [|left; apply quiet_refl].
  destruct (orNil (item_options item) !! idx); [|left; apply quiet_refl].
  right. apply updateItem_edits.
Qed.

Lemma migrationEffect_effect (w : World) :
  quiet w (migrationEffect e w) \/ edits e Kitems w (migrationEffect e w).
Proof.
  unfold migrationEffect.
  destruct (selectedItem (app w)) as [sel|]; [|left; apply quiet_refl].
  destruct (item_options sel) as [options|]; [|left; apply quiet_refl].
  destruct (existsb lacksId options); [|left; apply quiet_refl].
  right. apply updateItem_edits.
Qed.

(** Every event but a snapshot leaves the collections and the store alone
    or edits the one collection of its handler. *)
Lemma step_effect (shareId : option string) (ev : Event) (w w' : World) :
  ev <> SnapshotArrived -> step shareId e ev w = Some w' ->
  quiet w w' \/ exists k, touches ev = Some k /\ edits e k w w'.
Proof.
  intros Hev Hstep. destruct ev; simpl in Hstep; try congruence;
    try (injection Hstep as <-).
  - left. cells w. repeat split.
  - right. exists Kgroceries. split; [reflexivity|].
    apply edits_Kgroceries; reflexivity.
  - right. exists Kgroceries. split; [reflexivity|].
    apply edits_Kgroceries; reflexivity.
  - right. exists Kgroceries. split; [reflexivity|].
    apply edits_Kgroceries; reflexivity.
  - right. exists Krepairs. split; [reflexivity|]. apply edits_Krepairs; reflexivity.
  - right. exists Krepairs. split; [reflexivity|]. apply edits_Krepairs; reflexivity.
  - right. exists Krepairs. split; [reflexivity|]. apply edits_Krepairs; reflexivity.
  - right. exists Kspaces. split; [reflexivity|]. apply spaceImageLoaded_edits.
  - right. exists Kitems. split; [reflexivity|]. apply edits_Kitems; reflexivity.
  - destruct (items (app w) !! n); [|discriminate Hstep]. injection Hstep as <-.
    left. cells w. repeat split.
  - left. cells w. repeat split.
  - unfold onItemNameChange in Hstep.
    destruct (selectedItem (app w)); [|discriminate Hstep]. injection Hstep as <-.
    right. exists Kitems. split; [reflexivity|]. apply updateItem_edits.
  - destruct (selectedItem (app w)); [|discriminate Hstep]. injection Hstep as <-.
    right. exists Kitems. split; [reflexivity|]. apply itemImageLoaded_edits.
  - unfold onDeleteItemClick in Hstep.
    destruct (selectedItem (app w)); [|discriminate Hstep]. injection Hstep as <-.
    right. exists Kitems. split; [reflexivity|]. apply deleteItem_edits.
  - destruct (selectedItem (app w)) as [sel|]; [|discriminate Hstep].
    injection Hstep as <-.
    destruct (optionImageLoaded_effect (item_id sel) idx result w) as [H|H];
      [left; exact H | right; exists Kitems; split; [reflexivity | exact H]].
  - unfold onWinnerClick in Hstep.
    destruct (selectedItem (app w)) as [sel|]; [|discriminate Hstep].
    destruct (item_options sel); [|discriminate Hstep].
    destruct (toggleWinner idx l); [|discriminate Hstep]. injection Hstep as <-.
    right. exists Kitems. split; [reflexivity|]. apply updateItem_edits.
  - unfold onDeleteOptionClick in Hstep.
    destruct (selectedItem (app w)) as [sel|]; [|discriminate Hstep].
    destruct (item_options sel); [|discriminate Hstep]. injection Hstep as <-.
    right. exists Kitems. split; [reflexivity|]. apply updateItem_edits.
  - unfold onOptionFieldChange in Hstep.
    destruct (selectedItem (app w)) as [sel|]; [|discriminate Hstep].
    destruct (item_options sel); [|discriminate Hstep].
    destruct (l !! idx); [|discriminate Hstep]. injection Hstep as <-.
    right. exists Kitems. split; [reflexivity|]. apply updateItem_edits.
  - unfold onAddOptionClick in Hstep.
    destruct (selectedItem (app w)) as [sel|]; [|discriminate Hstep].
    injection Hstep as <-.
    right. exists Kitems. split; [reflexivity|]. apply updateItem_edits.
  - left. cells w. repeat split.
  - unfold handleOptionDrop in Hstep.
    destruct (draggedOptionIdx (app w)) as [d|];
      [|injection Hstep as <-; left; apply quiet_refl].
    destruct (Nat.eqb d idx); [injection Hstep as <-; left; apply quiet_refl|].
    destruct (selectedItem (app w)) as [sel|]; [|discriminate Hstep].
    destruct (item_options sel); [|discriminate Hstep].
    destruct (allDefined _); [|discriminate Hstep]. injection Hstep as <-.
    right. exists Kitems. split; [reflexivity|].
    apply edits_drag, updateItem_edits.
  - destruct (migrationEffect_effect w) as [H|H];
      [left; exact H | right; exists Kitems; split; [reflexivity | exact H]].
Qed.

End Effects.

Section SaveKey.

Variables (e : Env) (k : Key) (v : KeyT k) (w : World).

Lemma saveKey_frame (k' : Key) (path : list string) :
  k' <> k ->
  remoteField k' path (remote (saveKey e k v w)) = remoteField k' path (remote w).
Proof.
  intros Hne. destruct k; simpl; apply saveData_frame;
    destruct k'; try reflexivity; congruence.
Qed.

Lemma saveKey_guarded :
  user (app w) = None \/ isReadOnly (app w) = true ->
  remote (saveKey e k v w) = remote w.
Proof.
  intros H. destruct k; simpl;
    match goal with
    | |- remote (saveData ?e ?a ?b ?c ?d ?w) = _ =>
        destruct (saveData_cases e a b c d w) as [-> | (u & Hu & Hro & _)]
    end; try reflexivity; destruct H; congruence.
Qed.

Lemma saveKey_elsewhere (path : list string) :
  (forall u, user (app w) = Some u -> path <> userDoc e u) ->
  remote (saveKey e k v w) !! path = remote w !! path.
Proof.
  intros H. destruct k; simpl;
    match goal with
    | |- remote (saveData ?e ?a ?b ?c ?d ?w) !! _ = _ =>
        destruct (saveData_cases e a b c d w) as [-> | (u & Hu & _ & _ & ->)]
    end; try reflexivity; simpl; apply lookup_setDocMerge_ne, H, Hu.
Qed.

Lemma saveKey_written (u : User) :
  user (app w) = Some u -> isReadOnly (app w) = false -> storeAccepts e = true ->
  remoteField k (userDoc e u) (remote (saveKey e k v w)) = Value v.
Proof.
  intros Hu Hro Hok. destruct k; simpl;
    rewrite (saveData_writes e _ _ _ _ w u Hu Hro Hok),
      remoteField_setDocMerge_eq; reflexivity.
Qed.

End SaveKey.

Lemma onSnapshot_cells (snapshot : option Document) (s : AppState) :
  user (onSnapshot snapshot s) = user s
  /\ isReadOnly (onSnapshot snapshot s) = isReadOnly s
  /\ selectedItem (onSnapshot snapshot s) = selectedItem s.
Proof.
  destruct snapshot as [[sp it gr rp lu]|]; simpl;
    [destruct sp, it, gr, rp|]; repeat split.
Qed.

Lemma deliverSnapshot_cells (e : Env) (shareId : option string) (w : World) :
  remote (deliverSnapshot e shareId w) = remote w
  /\ user (app (deliverSnapshot e shareId w)) = user (app w)
  /\ isReadOnly (app (deliverSnapshot e shareId w)) = isReadOnly (app w)
  /\ selectedItem (app (deliverSnapshot e shareId w)) = selectedItem (app w).
Proof.
  unfold deliverSnapshot. destruct (user (app w)) eqn:Hu; [|repeat split; exact Hu].
  unfold onApp. cbn [app remote].
  destruct (onSnapshot_cells (remote w !! docPath e shareId u) (app w))
    as (H1 & H2 & H3).
  rewrite H1, H2, H3. repeat split. exact Hu.
Qed.

Lemma snapshot_or_not (ev : Event) : ev = SnapshotArrived \/ ev <> SnapshotArrived.
Proof. destruct ev; (left; reflexivity) || (right; discriminate). Qed.

(** The user and the read-only flag are out of reach of every event. *)
Lemma step_session (shareId : option string) (e : Env) (ev : Event) (w w' : World) :
  step shareId e ev w = Some w' ->
  user (app w') = user (app w) /\ isReadOnly (app w') = isReadOnly (app w).
Proof.
  intros Hstep. destruct (snapshot_or_not ev) as [-> | Hev].
  - injection Hstep as <-.
    destruct (deliverSnapshot_cells e shareId w) as (_ & H1 & H2 & _). auto.
  - destruct (step_effect e shareId ev w w' Hev Hstep)
      as [(_ & H1 & H2 & _) | (k & _ & _ & H1 & H2 & _)]; auto.
Qed.

(** ** Sessions *)

(** X1.  A handler changes no collection but its own: the other three
    collections are the same in the cache after the event, and read the same
    in every document of the store. *)
Theorem handler_keeps_other_collections (shareId : option string) (e : Env)
    (ev : Event) (w w' : World) (k : Key) :
  ev <> SnapshotArrived -> touches ev <> Some k ->
  step shareId e ev w = Some w' ->
  localField k (app w') = localField k (app w)
  /\ forall path : list string,
       remoteField k path (remote w') = remoteField k path (remote w).
Proof.
  intros Hev Hk Hstep.
  destruct (step_effect e shareId ev w w' Hev Hstep)
    as [(Hr & _ & _ & Hl) | (k0 & Hk0 & Hr & _ & _ & Hl)].
  - split; [apply Hl | intros path; rewrite Hr; reflexivity].
  - assert (k <> k0) as Hne by congruence.
    split; [apply Hl, Hne | intros path; rewrite Hr; apply saveKey_frame, Hne].
Qed.

Lemma handler_keeps_other_collections_example :
  exists w' : World,
    step None Household.env (GroceryChanged "g1" (CompletedField true))
      Household.world = Some w'
    /\ items (app w') = [Household.sofa; Household.kettle]
    /\ remoteField Kitems (userDoc Household.env Household.ann) (remote w')
       = Value [Household.sofa; Household.kettle].
Proof.
  destruct (step None Household.env (GroceryChanged "g1" (CompletedField true))
              Household.world) as [w'|] eqn:Hstep;
    [|vm_compute in Hstep; discriminate Hstep].
  exists w'. split; [reflexivity|].
  destruct (handler_keeps_other_collections None Household.env
              (GroceryChanged "g1" (CompletedField true)) Household.world w' Kitems)
    as [Hl Hr]; [discriminate | discriminate | exact Hstep |].
  split; [exact Hl | rewrite Hr; reflexivity].
Defined.

Lemma step_guarded (shareId : option string) (e : Env) (ev : Event) (w w' : World) :
  user (app w) = None \/ isReadOnly (app w) = true ->
  step shareId e ev w = Some w' -> remote w' = remote w.
Proof.
  intros Hg Hstep. destruct (snapshot_or_not ev) as [-> | Hev].
  - injection Hstep as <-. apply deliverSnapshot_cells.
  - destruct (step_effect e shareId ev w w' Hev Hstep)
      as [(Hr & _) | (k & _ & Hr & _)]; [exact Hr|].
    rewrite Hr. apply saveKey_guarded, Hg.
Qed.

Lemma run_guarded (shareId : option string) (evs : list (Env * Event))
    (w w' : World) :
  user (app w) = None \/ isReadOnly (app w) = true ->
  run shareId evs w = Some w' ->
  remote w' = remote w
  /\ user (app w') = user (app w)
  /\ isReadOnly (app w') = isReadOnly (app w).
Proof.
  revert w. induction evs as [|[e ev] rest IH]; intros w Hg Hrun; simpl in Hrun.
  - injection Hrun as <-. repeat split.
  - destruct (step shareId e ev w) as [w1|] eqn:Hstep; [|discriminate Hrun].
    destruct (step_session shareId e ev w w1 Hstep) as [Hu Hro].
    destruct (IH w1) as (H1 & H2 & H3); [rewrite Hu, Hro; exact Hg | exact Hrun |].
    rewrite H1, H2, H3, Hu, Hro, (step_guarded shareId e ev w w1 Hg Hstep).
    repeat split.
Qed.

(** X2.  In a read-only session, and as long as nobody is signed in, no
    run of events changes the store, and the session stays what it is. *)
Theorem run_read_only_never_writes (shareId : option string)
    (evs : list (Env * Event)) (w w' : World) :
  user (app w) = None \/ isReadOnly (app w) = true ->
  run shareId evs w = Some w' ->
  remote w' = remote w
  /\ user (app w') = user (app w)
  /\ isReadOnly (app w') = isReadOnly (app w).
Proof. apply run_guarded. Qed.

Lemma run_read_only_never_writes_example :
  exists w' : World,
    run (Some "s1") Household.evening Household.sharedWorld = Some w'
    /\ remote w' = Household.store.
Proof.
  destruct (run (Some "s1") Household.evening Household.sharedWorld)
    as [w'|] eqn:Hrun; [|vm_compute in Hrun; discriminate Hrun].
  exists w'. split; [reflexivity|].
  apply (run_read_only_never_writes (Some "s1") Household.evening
           Household.sharedWorld w'); [right; reflexivity | exact Hrun].
Defined.

Lemma step_elsewhere (shareId : option string) (e : Env) (ev : Event)
    (w w' : World) (path : list string) :
  (forall u, user (app w) = Some u -> path <> userDoc e u) ->
  step shareId e ev w = Some w' -> remote w' !! path = remote w !! path.
Proof.
  intros Hp Hstep. destruct (snapshot_or_not ev) as [-> | Hev].
  - injection Hstep as <-.
    destruct (deliverSnapshot_cells e shareId w) as (-> & _). reflexivity.
  - destruct (step_effect e shareId ev w w' Hev Hstep)
      as [(Hr & _) | (k & _ & Hr & _)]; rewrite Hr; [reflexivity|].
    apply saveKey_elsewhere, Hp.
Qed.

Lemma share_path_not_user (e e' : Env) (sid : string) (u u' : User) :
  JS.truthyStr (Some sid) = true -> docPath e (Some sid) u <> userDoc e' u'.
Proof. intros H. unfold docPath. rewrite H. discriminate. Qed.

(** X3.  Whatever the events, the only document of the store that a
    session changes is [artifacts/<appId>/users/<uid>/personal/settings] of
    its user; in particular no session changes a document that a share link
    reads. *)
Theorem run_writes_only_user_document (shareId : option string) (a : string)
    (evs : list (Env * Event)) (w w' : World) :
  Forall (fun p => appId (fst p) = a) evs ->
  run shareId evs w = Some w' ->
  (forall path : list string,
      (forall u, user (app w) = Some u ->
                 path <> ["artifacts"; a; "users"; uid u; "personal"; "settings"]) ->
      remote w' !! path = remote w !! path)
  /\ (forall (e : Env) (sid : string) (u : User),
         JS.truthyStr (Some sid) = true ->
         remote w' !! docPath e (Some sid) u = remote w !! docPath e (Some sid) u).
Proof.
  intros Ha Hrun.
  assert (forall path : list string,
             (forall u, user (app w) = Some u ->
                        path <> ["artifacts"; a; "users"; uid u; "personal"; "settings"]) ->
             remote w' !! path = remote w !! path) as Hmain.
  { revert w Hrun. induction Ha as [|[e ev] rest He _ IH]; intros w Hrun path Hp;
      simpl in Hrun.
    - injection Hrun as <-. reflexivity.
    - simpl in He. destruct (step shareId e ev w) as [w1|] eqn:Hstep;
        [|discriminate Hrun].
      destruct (step_session shareId e ev w w1 Hstep) as [Hu _].
      rewrite (IH w1 Hrun path) by (rewrite Hu; exact Hp).
      apply (step_elsewhere shareId e ev w w1 path); [|exact Hstep].
      intros u Hw. unfold userDoc. rewrite He. apply Hp, Hw. }
  split; [exact Hmain|].
  intros e sid u Hsid. apply Hmain. intros u' _.
  unfold docPath. rewrite Hsid. discriminate.
Qed.

Lemma run_writes_only_user_document_example :
  exists w' : World,
    run None Household.evening Household.world = Some w'
    /\ remote w' !! docPath Household.env (Some "s1") Household.ann = None.
Proof.
  destruct (run None Household.evening Household.world)
    as [w'|] eqn:Hrun; [|vm_compute in Hrun; discriminate Hrun].
  exists w'. split; [reflexivity|].
  destruct (run_writes_only_user_document None "myhome-mind-v1" Household.evening
              Household.world w') as [_ Hshare];
    [repeat constructor | exact Hrun |].
  rewrite (Hshare Household.env "s1" Household.ann) by reflexivity. reflexivity.
Defined.

Lemma key_eq_or (k k0 : Key) : k = k0 \/ k <> k0.
Proof. destruct k, k0; (left; reflexivity) || (right; discriminate). Qed.

Lemma step_mirror (shareId : option string) (e : Env) (ev : Event) (w w' : World)
    (u : User) :
  user (app w) = Some u -> isReadOnly (app w) = false ->
  storeAccepts e = true -> JS.truthyStr shareId = false ->
  mirrors (userDoc e u) w -> step shareId e ev w = Some w' ->
  mirrors (userDoc e u) w'.
Proof.
  intros Hu Hro Hok Hshare Hm Hstep. destruct (snapshot_or_not ev) as [-> | Hev].
  - injection Hstep as <-. intros k.
    unfold deliverSnapshot. rewrite Hu. unfold onApp. cbn [app remote].
    rewrite Hm, onSnapshot_field.
    assert (docPath e shareId u = userDoc e u) as ->
        by (unfold docPath; rewrite Hshare; reflexivity).
    change (snapshotField k (remote w !! userDoc e u))
      with (remoteField k (userDoc e u) (remote w)).
    rewrite Hm. reflexivity.
  - destruct (step_effect e shareId ev w w' Hev Hstep)
      as [(Hr & _ & _ & Hl) | (k0 & _ & Hr & _ & _ & Hl)]; intros k.
    + rewrite Hr, Hl. apply Hm.
    + rewrite Hr. destruct (key_eq_or k k0) as [-> | Hne].
      * apply saveKey_written; assumption.
      * rewrite saveKey_frame, Hl by exact Hne. apply Hm.
Qed.

(** X4.  In a session of a signed-in user that is not read-only and has no
    share link: once the user's document holds the four collections of the
    cache, it holds them after every run of events whose writes the store
    accepts (an echoed snapshot changes nothing). *)
Theorem run_keeps_mirror (shareId : option string) (a : string) (u : User)
    (evs : list (Env * Event)) (w w' : World) :
  user (app w) = Some u -> isReadOnly (app w) = false ->
  JS.truthyStr shareId = false ->
  Forall (fun p => appId (fst p) = a /\ storeAccepts (fst p) = true) evs ->
  mirrors ["artifacts"; a; "users"; uid u; "personal"; "settings"] w ->
  run shareId evs w = Some w' ->
  mirrors ["artifacts"; a; "users"; uid u; "personal"; "settings"] w'.
Proof.
  intros Hu Hro Hshare Hevs. revert w Hu Hro.
  induction Hevs as [|[e ev] rest [Ha Hok] _ IH]; intros w Hu Hro Hm Hrun;
    simpl in Hrun.
  - injection Hrun as <-. exact Hm.
  - simpl in Ha, Hok.
    destruct (step shareId e ev w) as [w1|] eqn:Hstep; [|discriminate Hrun].
    destruct (step_session shareId e ev w w1 Hstep) as [Hu1 Hro1].
    apply (IH w1); [rewrite Hu1; exact Hu | rewrite Hro1; exact Hro | | exact Hrun].
    assert (userDoc e u = ["artifacts"; a; "users"; uid u; "personal"; "settings"])
      as Hpath by (unfold userDoc; rewrite Ha; reflexivity).
    rewrite <- Hpath in *.
    apply (step_mirror shareId e ev w w1 u); assumption.
Qed.

Lemma syncedWorld_mirrors :
  mirrors ["artifacts"; "myhome-mind-v1"; "users"; "ann"; "personal"; "settings"]
    Household.syncedWorld.
Proof. intros k. destruct k; reflexivity. Qed.

Lemma run_keeps_mirror_example :
  exists w' : World,
    run None Household.evening Household.syncedWorld = Some w'
    /\ remoteField Kitems (userDoc Household.env Household.ann) (remote w')
       = Value (items (app w'))
    /\ remoteField Kgroceries (userDoc Household.env Household.ann) (remote w')
       = Value (groceries (app w')).
Proof.
  destruct (run None Household.evening Household.syncedWorld)
    as [w'|] eqn:Hrun; [|vm_compute in Hrun; discriminate Hrun].
  exists w'. split; [reflexivity|].
  pose proof (run_keeps_mirror None "myhome-mind-v1" Household.ann
                Household.evening Household.syncedWorld w'
                eq_refl eq_refl eq_refl) as Hm.
  split.
  - apply (Hm ltac:(repeat constructor) syncedWorld_mirrors Hrun Kitems).
  - apply (Hm ltac:(repeat constructor) syncedWorld_mirrors Hrun Kgroceries).
Defined.

(** ** Rules on option lists that every event keeps *)

Lemma lookup_setDocMerge (ref path : list string) (upd : Document) (r : Remote)
    (d : Document) :
  setDocMerge ref upd r !! path = Some d ->
  (path = ref /\ d = mergeDocument upd (default emptyDocument (r !! ref)))
  \/ (path <> ref /\ r !! path = Some d).
Proof.
  unfold setDocMerge. intros H.
  destruct (decide (ref = path)) as [-> | Hne].
  - rewrite lookup_insert_eq in H. injection H as <-. left. split; reflexivity.
  - rewrite lookup_insert_ne in H by exact Hne. right. split; [congruence | exact H].
Qed.

(** The items a stored document holds after an edit were sent by the edit
    or stood in the document before. *)
Lemma edits_store (e : Env) (k : Key) (w w' : World) (path : list string)
    (d : Document) (l : list Item) :
  edits e k w w' -> remote w' !! path = Some d -> doc_items d = Value l ->
  (k = Kitems /\ l = items (app w'))
  \/ exists d0, remote w !! path = Some d0 /\ doc_items d0 = Value l.
Proof.
  intros (Hr & _) Hd Hl. rewrite Hr in Hd. clear Hr.
  destruct k; simpl in Hd;
    match type of Hd with
    | remote (saveData ?e ?a ?b ?c ?x ?w) !! _ = _ =>
        destruct (saveData_cases e a b c x w) as [Hs | (u & _ & _ & _ & Hs)];
          rewrite Hs in Hd; clear Hs; simpl in Hd
    end;
    try (right; exists d; split; [exact Hd | exact Hl]);
    (apply lookup_setDocMerge in Hd as [[-> ->] | [_ Hd]];
     [|right; exists d; split; [exact Hd | exact Hl]]);
    simpl in Hl; unfold keep in Hl; simpl in Hl;
    try (left; split; [reflexivity | congruence]);
    (destruct (remote w !! userDoc e u) as [d0|] eqn:Hd0; simpl in Hl;
     [right; exists d0; split; [reflexivity | exact Hl] | discriminate Hl]).
Qed.

Section OptionRules.

Variable Q : list Opt -> Prop.
Variable good : Env -> Prop.

Hypothesis Q_nil : Q [].
Hypothesis Q_toggle :
  forall idx l l', Q l -> toggleWinner idx l = Some l' -> Q l'.
Hypothesis Q_filter : forall keep l, Q l -> Q (filterIndex keep 0 l).
Hypothesis Q_add :
  forall e l, good e -> Q l -> Q (l ++ [blankOption (randomUUID e 0)]).
Hypothesis Q_field :
  forall idx f v o l, Q l -> l !! idx = Some o -> Q (<[idx := setOptField f v o]> l).
Hypothesis Q_image :
  forall idx r o l, Q l -> l !! idx = Some o -> Q (<[idx := setOptImage r o]> l).
Hypothesis Q_perm : forall l l', Q l -> Permutation l' l -> Q l'.
Hypothesis Q_patch :
  forall e l, good e -> Q l -> Q (patchOptions (randomUUID e) 0 l).

Lemma ruleHolds_edits (e : Env) (k : Key) (w w' : World) :
  ruleHolds Q w -> edits e k w w' ->
  Forall (optionsRule Q) (items (app w')) ->
  (forall sel, selectedItem (app w') = Some sel -> optionsRule Q sel) ->
  ruleHolds Q w'.
Proof.
  intros (_ & _ & Hstore) He Hitems Hsel. split; [exact Hitems|].
  split; [exact Hsel|]. intros path d l Hd Hl.
  destruct (edits_store e k w w' path d l He Hd Hl) as [[_ ->] | (d0 & Hd0 & Hl0)].
  - exact Hitems.
  - apply (Hstore path d0 l Hd0 Hl0).
Qed.

(** An edit of another collection that leaves the selection alone. *)
Lemma ruleHolds_elsewhere (e : Env) (k : Key) (w w' : World) :
  k <> Kitems -> ruleHolds Q w -> edits e k w w' ->
  selectedItem (app w') = selectedItem (app w) -> ruleHolds Q w'.
Proof.
  intros Hk HQ He Hsel. pose proof HQ as (Hitems & Hs & _).
  destruct He as (Hr & Hu & Hro & Hl).
  apply (ruleHolds_edits e k w w' HQ); [repeat split; assumption | |].
  - change (items (app w')) with (localField Kitems (app w')).
    rewrite Hl by congruence. exact Hitems.
  - rewrite Hsel. exact Hs.
Qed.

Lemma updateItem_rule (e : Env) (itemId : string) (updates : ItemUpdates)
    (w : World) :
  (forall i, optionsRule Q i -> optionsRule Q (spread i updates)) ->
  ruleHolds Q w -> ruleHolds Q (updateItem e itemId updates w).
Proof.
  intros Hspread HQ. pose proof HQ as (Hitems & Hs & _).
  apply (ruleHolds_edits e Kitems w); [exact HQ | apply updateItem_edits | |].
  - rewrite updateItem_items. apply List.Forall_forall. intros i Hin.
    apply in_map_iff in Hin as [i0 [<- Hin0]].
    rewrite List.Forall_forall in Hitems.
    destruct (String.eqb (item_id i0) itemId); [apply Hspread|]; apply Hitems, Hin0.
  - intros sel' Hsel'. unfold updateItem in Hsel'.
    destruct (selectedItem (app w)) as [sel|] eqn:Hsel.
    + destruct (String.eqb (item_id sel) itemId); simpl in Hsel'.
      * injection Hsel' as <-. apply Hspread, Hs. reflexivity.
      * rewrite saveData_app in Hsel'. simpl in Hsel'. rewrite Hsel in Hsel'.
        injection Hsel' as <-. apply Hs. reflexivity.
    + rewrite saveData_app in Hsel'. simpl in Hsel'. congruence.
Qed.

Lemma updateItem_options_rule (e : Env) (itemId : string) (l : list Opt) (w : World) :
  Q l -> ruleHolds Q w -> ruleHolds Q (updateItem e itemId (optionsUpdate l) w).
Proof. intros Hl. apply updateItem_rule. intros i _. exact Hl. Qed.

Lemma ruleHolds_cells (w w' : World) :
  items (app w') = items (app w) -> selectedItem (app w') = selectedItem (app w) ->
  remote w' = remote w -> ruleHolds Q w -> ruleHolds Q w'.
Proof. intros Hi Hs Hr. unfold ruleHolds. rewrite Hi, Hs, Hr. tauto. Qed.

Lemma allDefined_hole (a b : list (option Opt)) : allDefined (a ++ None :: b) = None.
Proof.
  induction a as [|[x|] a IH]; simpl; [reflexivity | rewrite IH |]; reflexivity.
Qed.

(** A drop that goes through moved an option that was there. *)
Lemma moveOption_defined (d j : nat) (l l' : list Opt) :
  allDefined (moveOption d j l) = Some l' ->
  exists x, l !! d = Some x /\ l' = JS.spliceIn j x (delete d l).
Proof.
  intros H. destruct (l !! d) as [x|] eqn:Hd.
  - rewrite (moveOption_in_range d j l x Hd), allDefined_map_Some in H.
    injection H as <-. exists x. split; reflexivity.
  - apply lookup_ge_None in Hd.
    unfold moveOption, JS.spliceOut in H. cbv beta iota zeta in H.
    rewrite !drop_ge in H by (rewrite length_map; lia). simpl in H.
    unfold JS.spliceIn in H. rewrite allDefined_hole in H. discriminate H.
Qed.

Lemma step_rule (shareId : option string) (e : Env) (ev : Event) (w w' : World) :
  good e -> ruleHolds Q w -> step shareId e ev w = Some w' -> ruleHolds Q w'.
Proof.
  intros Hgood HQ Hstep. pose proof HQ as (Hitems & Hs & Hstore).
  destruct ev; simpl in Hstep.
  - injection Hstep as <-. revert HQ. apply ruleHolds_cells; reflexivity.
  - injection Hstep as <-.
    apply (ruleHolds_elsewhere e Kgroceries w); [discriminate | exact HQ | |].
    + apply edits_Kgroceries; reflexivity.
    + unfold addGrocery. rewrite saveData_app. reflexivity.
  - injection Hstep as <-.
    apply (ruleHolds_elsewhere e Kgroceries w); [discriminate | exact HQ | |].
    + apply edits_Kgroceries; reflexivity.
    + unfold updateGrocery. rewrite saveData_app. reflexivity.
  - injection Hstep as <-.
    apply (ruleHolds_elsewhere e Kgroceries w); [discriminate | exact HQ | |].
    + apply edits_Kgroceries; reflexivity.
    + unfold deleteGrocery. rewrite saveData_app. reflexivity.
  - injection Hstep as <-.
    apply (ruleHolds_elsewhere e Krepairs w); [discriminate | exact HQ | |].
    + apply edits_Krepairs; reflexivity.
    + unfold addRepair. rewrite saveData_app. reflexivity.
  - injection Hstep as <-.
    apply (ruleHolds_elsewhere e Krepairs w); [discriminate | exact HQ | |].
    + apply edits_Krepairs; reflexivity.
    + unfold updateRepair. rewrite saveData_app. reflexivity.
  - injection Hstep as <-.
    apply (ruleHolds_elsewhere e Krepairs w); [discriminate | exact HQ | |].
    + apply edits_Krepairs; reflexivity.
    + unfold deleteRepair. rewrite saveData_app. reflexivity.
  - injection Hstep as <-.
    apply (ruleHolds_elsewhere e Kspaces w); [discriminate | exact HQ | |].
    + apply spaceImageLoaded_edits.
    + reflexivity.
  - injection Hstep as <-.
    apply (ruleHolds_edits e Kitems w); [exact HQ | | |].
    + apply edits_Kitems; reflexivity.
    + unfold addItemToSpace. rewrite saveData_app. simpl.
      apply Forall_app. split; [exact Hitems|].
      constructor; [exact Q_nil | constructor].
    + unfold addItemToSpace. rewrite saveData_app. exact Hs.
  - destruct (items (app w) !! n) as [i|] eqn:Hn; [|discriminate Hstep].
    injection Hstep as <-. split; [exact Hitems|]. split; [|exact Hstore].
    intros sel Hsel. simpl in Hsel. injection Hsel as <-.
    rewrite List.Forall_forall in Hitems. apply Hitems.
    apply list_elem_of_In, (list_elem_of_lookup_2 _ n), Hn.
  - injection Hstep as <-. split; [exact Hitems|]. split; [|exact Hstore].
    intros sel Hsel. discriminate Hsel.
  - unfold onItemNameChange in Hstep.
    destruct (selectedItem (app w)) as [sel|]; [|discriminate Hstep].
    injection Hstep as <-. apply updateItem_rule; [|exact HQ].
    intros i Hi. exact Hi.
  - destruct (selectedItem (app w)) as [sel|] eqn:Hsel; [|discriminate Hstep].
    injection Hstep as <-.
    apply (ruleHolds_edits e Kitems w);
      [exact HQ | apply itemImageLoaded_edits | |].
    + unfold itemImageLoaded. rewrite saveData_app, Hsel.
      assert (Forall (optionsRule Q)
                (map (fun i => if String.eqb (item_id i) (item_id sel)
                               then setItemImage result i else i)
                     (items (app w)))) as Hmap.
      { apply List.Forall_forall. intros i Hin.
        apply in_map_iff in Hin as [i0 [<- Hin0]].
        rewrite List.Forall_forall in Hitems.
        destruct (String.eqb (item_id i0) (item_id sel)); apply (Hitems i0 Hin0). }
      destruct (String.eqb (item_id sel) (item_id sel)); exact Hmap.
    + unfold itemImageLoaded. rewrite saveData_app, Hsel.
      intros sel' Hsel'.
      destruct (String.eqb (item_id sel) (item_id sel)); simpl in Hsel'.
      * injection Hsel' as <-. apply (Hs sel eq_refl).
      * apply (Hs sel'). congruence.
  - unfold onDeleteItemClick in Hstep.
    destruct (selectedItem (app w)) as [sel|]; [|discriminate Hstep].
    injection Hstep as <-.
    apply (ruleHolds_edits e Kitems w); [exact HQ | apply deleteItem_edits | |].
    + unfold deleteItem. simpl. rewrite saveData_app. simpl.
      apply List.Forall_forall. intros i Hin. apply filter_In in Hin as [Hin _].
      rewrite List.Forall_forall in Hitems. apply Hitems, Hin.
    + intros sel' Hsel'. discriminate Hsel'.
  - destruct (selectedItem (app w)) as [sel|]; [|discriminate Hstep].
    injection Hstep as <-. unfold optionImageLoaded.
    destruct (find _ _) as [item|] eqn:Hfind; [|exact HQ].
    destruct (orNil (item_options item) !! idx) as [o|] eqn:Ho; [|exact HQ].
    apply updateItem_options_rule; [|exact HQ].
    apply Q_image; [|exact Ho].
    apply find_some in Hfind as [Hin _].
    rewrite List.Forall_forall in Hitems. apply (Hitems item Hin).
  - unfold onWinnerClick in Hstep.
    destruct (selectedItem (app w)) as [sel|] eqn:Hsel; [|discriminate Hstep].
    destruct (item_options sel) as [l|] eqn:Hl; [|discriminate Hstep].
    destruct (toggleWinner idx l) as [l'|] eqn:Ht; [|discriminate Hstep].
    injection Hstep as <-. apply updateItem_options_rule; [|exact HQ].
    apply (Q_toggle idx l l'); [|exact Ht].
    pose proof (Hs sel eq_refl) as H. unfold optionsRule in H.
    rewrite Hl in H. exact H.
  - unfold onDeleteOptionClick in Hstep.
    destruct (selectedItem (app w)) as [sel|] eqn:Hsel; [|discriminate Hstep].
    destruct (item_options sel) as [l|] eqn:Hl; [|discriminate Hstep].
    injection Hstep as <-. apply updateItem_options_rule; [|exact HQ].
    apply Q_filter.
    pose proof (Hs sel eq_refl) as H. unfold optionsRule in H.
    rewrite Hl in H. exact H.
  - unfold onOptionFieldChange in Hstep.
    destruct (selectedItem (app w)) as [sel|] eqn:Hsel; [|discriminate Hstep].
    destruct (item_options sel) as [l|] eqn:Hl; [|discriminate Hstep].
    destruct (l !! idx) as [o|] eqn:Ho; [|discriminate Hstep].
    injection Hstep as <-. apply updateItem_options_rule; [|exact HQ].
    apply Q_field; [|exact Ho].
    pose proof (Hs sel eq_refl) as H. unfold optionsRule in H.
    rewrite Hl in H. exact H.
  - unfold onAddOptionClick in Hstep.
    destruct (selectedItem (app w)) as [sel|] eqn:Hsel; [|discriminate Hstep].
    injection Hstep as <-. apply updateItem_options_rule; [|exact HQ].
    apply (Q_add e _ Hgood). apply (Hs sel eq_refl).
  - injection Hstep as <-. revert HQ. apply ruleHolds_cells; reflexivity.
  - unfold handleOptionDrop in Hstep.
    destruct (draggedOptionIdx (app w)) as [d|];
      [|injection Hstep as <-; exact HQ].
    destruct (Nat.eqb d idx); [injection Hstep as <-; exact HQ|].
    destruct (selectedItem (app w)) as [sel|] eqn:Hsel; [|discriminate Hstep].
    destruct (item_options sel) as [l|] eqn:Hl; [|discriminate Hstep].
    destruct (allDefined (moveOption d idx l)) as [l'|] eqn:Hmove;
      [|discriminate Hstep].
    injection Hstep as <-.
    apply (ruleHolds_cells (updateItem e (item_id sel) (optionsUpdate l') w));
      [reflexivity | reflexivity | reflexivity |].
    apply updateItem_options_rule; [|exact HQ].
    destruct (moveOption_defined d idx l l' Hmove) as (x & Hx & ->).
    apply (Q_perm l).
    + pose proof (Hs sel eq_refl) as H. unfold optionsRule in H.
      rewrite Hl in H. exact H.
    + rewrite spliceIn_Permutation. symmetry. apply delete_Permutation, Hx.
  - injection Hstep as <-. unfold migrationEffect.
    destruct (selectedItem (app w)) as [sel|] eqn:Hsel; [|exact HQ].
    destruct (item_options sel) as [l|] eqn:Hl; [|exact HQ].
    destruct (existsb lacksId l); [|exact HQ].
    apply updateItem_options_rule; [|exact HQ].
    apply (Q_patch e _ Hgood).
    pose proof (Hs sel eq_refl) as H. unfold optionsRule in H.
    rewrite Hl in H. exact H.
  - injection Hstep as <-.
    destruct (deliverSnapshot_cells e shareId w) as (Hr & _ & _ & Hsel).
    split; [|split].
    + unfold deliverSnapshot. destruct (user (app w)) as [u|]; [|exact Hitems].
      unfold onApp. cbn [app].
      change (items (onSnapshot (remote w !! docPath e shareId u) (app w)))
        with (localField Kitems
                (onSnapshot (remote w !! docPath e shareId u) (app w))).
      rewrite onSnapshot_field.
      destruct (remote w !! docPath e shareId u) as [d|] eqn:Hd; [|exact Hitems].
      simpl. destruct (doc_items d) as [| |l] eqn:Hl; [exact Hitems | exact Hitems |].
      apply (Hstore _ d l Hd Hl).
    + rewrite Hsel. exact Hs.
    + rewrite Hr. exact Hstore.
Qed.

Lemma run_rule (shareId : option string) (evs : list (Env * Event)) (w w' : World) :
  Forall (fun p => good (fst p)) evs -> ruleHolds Q w ->
  run shareId evs w = Some w' -> ruleHolds Q w'.
Proof.
  intros Hevs. revert w.
  induction Hevs as [|[e ev] rest Hg _ IH]; intros w HQ Hrun; simpl in Hrun.
  - injection Hrun as <-. exact HQ.
  - destruct (step shareId e ev w) as [w1|] eqn:Hstep; [|discriminate Hrun].
    apply (IH w1); [|exact Hrun]. apply (step_rule shareId e ev w w1 Hg HQ Hstep).
Qed.

End OptionRules.

Section WinnerRule.

Lemma countWinners_app (a b : list Opt) :
  countWinners (a ++ b) = countWinners a + countWinners b.
Proof. unfold countWinners. rewrite List.filter_app, length_app. reflexivity. Qed.

Lemma countWinners_filterIndex (keep : nat -> bool) (i : nat) (l : list Opt) :
  countWinners (filterIndex keep i l) <= countWinners l.
Proof.
  revert i. induction l as [|x l IH]; intros i; simpl; [lia|].
  destruct (keep i); rewrite ?countWinners_cons; specialize (IH (S i)); lia.
Qed.

(** Replacing an option by one with the same flag keeps the count. *)
Lemma countWinners_insert (idx : nat) (o o' : Opt) (l : list Opt) :
  l !! idx = Some o -> isWinner o' = isWinner o ->
  countWinners (<[idx := o']> l) = countWinners l.
Proof.
  revert idx. induction l as [|x l IH]; intros idx Hi Hw; [discriminate Hi|].
  destruct idx as [|idx]; simpl in *.
  - injection Hi as ->. rewrite !countWinners_cons, Hw. reflexivity.
  - rewrite !countWinners_cons, (IH idx Hi Hw). reflexivity.
Qed.

Lemma countWinners_Permutation (l l' : list Opt) :
  Permutation l' l -> countWinners l' = countWinners l.
Proof.
  induction 1 as [|x a b _ IH|x y a|a b c _ IH1 _ IH2];
    rewrite ?countWinners_cons; lia.
Qed.

Lemma countWinners_patchOptions (gen : nat -> string) (k : nat) (l : list Opt) :
  countWinners (patchOptions gen k l) = countWinners l.
Proof.
  revert k. induction l as [|x l IH]; intros k; simpl; [reflexivity|].
  destruct (JS.truthyStr (opt_id x)); rewrite !countWinners_cons, IH; reflexivity.
Qed.

End WinnerRule.

(** X5.  The single-winner rule is kept by every event (with every image
    read ending before the next event): when no item of the collection, nor
    the open item, nor an item of a stored document has two winners, then
    none has after any run of events. *)
Theorem run_keeps_single_winner (shareId : option string)
    (evs : list (Env * Event)) (w w' : World) :
  ruleHolds singleWinner w -> run shareId evs w = Some w' ->
  ruleHolds singleWinner w'.
Proof.
  intros HQ Hrun.
  refine (run_rule singleWinner (fun _ => True) _ _ _ _ _ _ _ _
            shareId evs w w' _ HQ Hrun); unfold singleWinner.
  - unfold countWinners. simpl. lia.
  - intros idx l l'. apply toggleWinner_at_most_one.
  - intros keep l H. pose proof (countWinners_filterIndex keep 0 l). lia.
  - intros e l _ H. rewrite countWinners_app.
    change (countWinners [blankOption (randomUUID e 0)]) with 0. lia.
  - intros idx f v o l H Ho.
    rewrite (countWinners_insert idx o _ l Ho); [exact H|]. destruct f; reflexivity.
  - intros idx r o l H Ho.
    rewrite (countWinners_insert idx o _ l Ho); [exact H | reflexivity].
  - intros l l' H Hp. rewrite (countWinners_Permutation l l' Hp). exact H.
  - intros e l _ H. rewrite countWinners_patchOptions. exact H.
  - apply List.Forall_forall. intros p _. exact I.
Qed.

Lemma household_single_winner : ruleHolds singleWinner Household.world.
Proof.
  split; [|split].
  - repeat constructor.
  - intros sel H. injection H as <-. repeat constructor.
  - intros path d l Hd Hl.
    destruct (decide (path = userDoc Household.env Household.ann)) as [-> | Hne].
    + vm_compute in Hd. injection Hd as <-. injection Hl as <-. repeat constructor.
    + unfold Household.world, Household.store in Hd. simpl in Hd.
      rewrite lookup_singleton_ne in Hd by congruence. discriminate Hd.
Qed.

Lemma run_keeps_single_winner_example :
  exists w' : World,
    run None Household.evening Household.world = Some w'
    /\ countWinners (selectedOptions w') <= 1.
Proof.
  destruct (run None Household.evening Household.world)
    as [w'|] eqn:Hrun; [|vm_compute in Hrun; discriminate Hrun].
  exists w'. split; [reflexivity|].
  destruct (run_keeps_single_winner None Household.evening Household.world w'
              household_single_winner Hrun) as (_ & Hs & _).
  unfold selectedOptions.
  destruct (selectedItem (app w')) as [sel|];
    [apply (Hs sel eq_refl) | unfold countWinners; simpl; lia].
Defined.

Section IdRule.

Lemma imap_ids (f : nat -> Opt -> Opt) (m : list Opt) :
  (forall i o, opt_id (f i o) = opt_id o) -> map opt_id (imap f m) = map opt_id m.
Proof.
  revert f. induction m as [|x m IH]; intros f Hf; [reflexivity|].
  simpl. rewrite Hf, IH; [reflexivity|]. intros i o. apply Hf.
Qed.

Lemma toggleWinner_ids (idx : nat) (l l' : list Opt) :
  toggleWinner idx l = Some l' -> map opt_id l' = map opt_id l.
Proof.
  unfold toggleWinner. destruct (l !! idx) as [o|] eqn:Ho; [|discriminate].
  intros H.
  assert (map opt_id (<[idx := setWinner (JS.not (opt_winner o)) o]> l)
          = map opt_id l) as Hins.
  { clear H. revert idx Ho. induction l as [|x l IH]; intros idx Ho;
      [discriminate Ho|].
    destruct idx as [|idx]; simpl in *.
    - injection Ho as ->. reflexivity.
    - rewrite (IH idx Ho). reflexivity. }
  destruct (JS.not (opt_winner o)); injection H as <-; [|exact Hins].
  rewrite <- Hins. apply imap_ids. intros i x. destruct (Nat.eqb i idx); reflexivity.
Qed.

Lemma allHaveId_ids (l l' : list Opt) :
  map opt_id l' = map opt_id l -> allHaveId l -> allHaveId l'.
Proof.
  unfold allHaveId. revert l'. induction l as [|x l IH]; intros [|y l'] H Hl;
    try discriminate H; [constructor|].
  simpl in H. injection H as Hy Hrest. inversion Hl; subst.
  constructor; [rewrite Hy; assumption | apply IH; assumption].
Qed.

Lemma allHaveId_filterIndex (keep : nat -> bool) (i : nat) (l : list Opt) :
  allHaveId l -> allHaveId (filterIndex keep i l).
Proof.
  unfold allHaveId. intros H. revert i.
  induction H as [|x l Hx _ IH]; intros i; simpl; [constructor|].
  destruct (keep i); [constructor; [exact Hx|]|]; apply IH.
Qed.

Lemma allHaveId_insert (idx : nat) (o' : Opt) (l : list Opt) :
  JS.truthyStr (opt_id o') = true -> allHaveId l -> allHaveId (<[idx := o']> l).
Proof. intros Ho H. apply Forall_insert; assumption. Qed.

End IdRule.

(** X6.  Once every option (of the collection, of the open item and of the
    stored documents) has an identifier, every option has one after any run
    of events in which [crypto.randomUUID()] gives non-empty strings; the
    effect on [selectedItem] then has nothing to patch. *)
Theorem run_keeps_ids (shareId : option string) (evs : list (Env * Event))
    (w w' : World) :
  Forall (fun p => forall k : nat, randomUUID (fst p) k <> "") evs ->
  ruleHolds allHaveId w -> run shareId evs w = Some w' ->
  ruleHolds allHaveId w' /\ forall e : Env, migrationEffect e w' = w'.
Proof.
  intros Hevs HQ Hrun.
  assert (ruleHolds allHaveId w') as HQ'.
  { refine (run_rule allHaveId (fun e => forall k, randomUUID e k <> "")
              _ _ _ _ _ _ _ _ shareId evs w w' Hevs HQ Hrun).
    - constructor.
    - intros idx l l' H Ht. apply (allHaveId_ids l l' (toggleWinner_ids idx l l' Ht) H).
    - intros keep l. apply allHaveId_filterIndex.
    - intros e l He H. apply Forall_app. split; [exact H|].
      constructor; [|constructor]. simpl.
      apply negb_true_iff, String.eqb_neq, He.
    - intros idx f v o l H Ho. apply allHaveId_insert; [|exact H].
      unfold allHaveId in H. rewrite Forall_lookup in H. specialize (H idx o Ho).
      destruct f; exact H.
    - intros idx r o l H Ho. apply allHaveId_insert; [|exact H].
      unfold allHaveId in H. rewrite Forall_lookup in H. apply (H idx o Ho).
    - intros l l' H Hp. unfold allHaveId. rewrite Hp. exact H.
    - intros e l He _. apply List.Forall_forall.
      apply (patchOptions_all_ids (randomUUID e) 0 l He). }
  split; [exact HQ'|]. intros e. unfold migrationEffect.
  destruct (selectedItem (app w')) as [sel|] eqn:Hsel; [|reflexivity].
  destruct (item_options sel) as [l|] eqn:Hl; [|reflexivity].
  destruct HQ' as (_ & Hs & _). specialize (Hs sel Hsel).
  unfold optionsRule in Hs. rewrite Hl in Hs.
  rewrite existsb_lacksId_false; [reflexivity|].
  apply List.Forall_forall, Hs.
Qed.

Lemma tidyWorld_ids : ruleHolds allHaveId Household.tidyWorld.
Proof.
  split; [|split].
  - repeat constructor.
  - intros sel H. injection H as <-. repeat constructor.
  - intros path d l Hd Hl.
    destruct (decide (path = userDoc Household.env Household.ann)) as [-> | Hne].
    + vm_compute in Hd. injection Hd as <-. injection Hl as <-. repeat constructor.
    + unfold Household.tidyWorld, Household.tidyStore in Hd. simpl in Hd.
      rewrite lookup_singleton_ne in Hd by congruence. discriminate Hd.
Qed.

Lemma run_keeps_ids_example :
  exists w' : World,
    run None Household.evening Household.tidyWorld = Some w'
    /\ migrationEffect Household.env w' = w'.
Proof.
  destruct (run None Household.evening Household.tidyWorld)
    as [w'|] eqn:Hrun; [|vm_compute in Hrun; discriminate Hrun].
  exists w'. split; [reflexivity|].
  apply (run_keeps_ids None Household.evening Household.tidyWorld w');
    [repeat constructor; intros k; discriminate | exact tidyWorld_ids | exact Hrun].
Defined.

(** ** Checklists *)

Section Checklists.

Lemma changed_lookup (id : string) (f : EntryField) (l : list Entry) (n : nat)
    (g : Entry) :
  l !! n = Some g ->
  exists g',
    changed id f l !! n = Some g'
    /\ entry_id g' = entry_id g
    /\ (entry_id g <> id -> g' = g)
    /\ match f with
       | TextField _ => entry_completed g' = entry_completed g
       | CompletedField _ => entry_text g' = entry_text g
       end.
Proof.
  intros Hn. unfold changed.
  change (map ?h l) with (fmap (M:=list) h l).
  rewrite list_lookup_fmap, Hn. simpl.
  destruct (String.eqb (entry_id g) id) eqn:E; eexists; split; try reflexivity.
  - repeat split; [destruct f; reflexivity | | destruct f; reflexivity].
    apply String.eqb_eq in E. intros H. contradiction.
  - repeat split. destruct f; reflexivity.
Qed.

Lemma updateGrocery_groceries (e : Env) (id : string) (f : EntryField) (w : World) :
  groceries (app (updateGrocery e id f w)) = changed id f (groceries (app w)).
Proof. unfold updateGrocery. rewrite saveData_app. reflexivity. Qed.

Lemma updateRepair_repairs (e : Env) (id : string) (f : EntryField) (w : World) :
  repairs (app (updateRepair e id f w)) = changed id f (repairs (app w)).
Proof. unfold updateRepair. rewrite saveData_app. reflexivity. Qed.

End Checklists.

(** X7.  [updateGrocery] and [updateRepair] keep the length of the list
    and the identifier at every place, leave an entry with another
    identifier as it is, and on an entry with the identifier change the
    named field only: a new text keeps the tick, a tick keeps the text. *)
Theorem checklist_update_pointwise (e : Env) (id : string) (f : EntryField)
    (w : World) :
  (length (groceries (app (updateGrocery e id f w))) = length (groceries (app w))
   /\ forall (n : nat) (g : Entry),
        groceries (app w) !! n = Some g ->
        exists g',
          groceries (app (updateGrocery e id f w)) !! n = Some g'
          /\ entry_id g' = entry_id g
          /\ (entry_id g <> id -> g' = g)
          /\ match f with
             | TextField _ => entry_completed g' = entry_completed g
             | CompletedField _ => entry_text g' = entry_text g
             end)
  /\ (length (repairs (app (updateRepair e id f w))) = length (repairs (app w))
      /\ forall (n : nat) (g : Entry),
           repairs (app w) !! n = Some g ->
           exists g',
             repairs (app (updateRepair e id f w)) !! n = Some g'
             /\ entry_id g' = entry_id g
             /\ (entry_id g <> id -> g' = g)
             /\ match f with
                | TextField _ => entry_completed g' = entry_completed g
                | CompletedField _ => entry_text g' = entry_text g
                end).
Proof.
  rewrite updateGrocery_groceries, updateRepair_repairs. unfold changed at 1 3.
  rewrite !length_map. split; (split; [reflexivity|]); intros n g;
    apply changed_lookup.
Qed.

Lemma checklist_update_pointwise_example :
  groceries (app (updateGrocery Household.env "g1" (TextField "Oat milk")
                    Household.world))
  = [mkEntry "g1" (Some "Oat milk") false].
Proof.
  destruct (checklist_update_pointwise Household.env "g1" (TextField "Oat milk")
              Household.world) as [[_ H] _].
  destruct (H 0 Household.milk eq_refl) as (g' & Hg' & _). reflexivity.
Defined.

Lemma filter_all {A} (p : A -> bool) (l : list A) :
  Forall (fun x => p x = true) l -> List.filter p l = l.
Proof.
  induction 1 as [|x l Hx _ IH]; simpl; [reflexivity|]. rewrite Hx, IH. reflexivity.
Qed.

Lemma other_ids (id : string) (l : list Entry) :
  Forall (fun g => entry_id g <> id) l ->
  Forall (fun g => negb (String.eqb (entry_id g) id) = true) l.
Proof.
  intros H. eapply Forall_impl; [exact H|].
  intros g Hg. apply negb_true_iff, String.eqb_neq, Hg.
Qed.

(** X8.  Deleting the entry that [addGrocery] (or [addRepair]) has just
    added gives back the list as it was, provided no older entry carries the
    identifier that was drawn. *)
Theorem checklist_add_then_delete (e e' : Env) (w : World) :
  (Forall (fun g => entry_id g <> randomUUID e 0) (groceries (app w)) ->
   groceries (app (deleteGrocery e' (randomUUID e 0) (addGrocery e w)))
   = groceries (app w))
  /\ (Forall (fun r => entry_id r <> randomUUID e 0) (repairs (app w)) ->
      repairs (app (deleteRepair e' (randomUUID e 0) (addRepair e w)))
      = repairs (app w)).
Proof.
  split; intros H.
  - unfold deleteGrocery, addGrocery. rewrite !saveData_app. simpl.
    rewrite String.eqb_refl. simpl. apply filter_all, other_ids, H.
  - unfold deleteRepair, addRepair. rewrite !saveData_app. simpl.
    rewrite String.eqb_refl. simpl. apply filter_all, other_ids, H.
Qed.

Lemma checklist_add_then_delete_example :
  groceries (app (deleteGrocery Household.env "uuid-0"
                    (addGrocery Household.env Household.world)))
  = [Household.milk].
Proof.
  apply (checklist_add_then_delete Household.env Household.env Household.world).
  repeat constructor. discriminate.
Defined.

(** X9.  A delete or an update for an identifier that no grocery carries
    leaves the list as it is and still sends it: the user's document gets
    the same groceries and a new [lastUpdated]. *)
Theorem checklist_absent_id_still_writes (e : Env) (id : string) (f : EntryField)
    (w : World) (u : User) :
  user (app w) = Some u -> isReadOnly (app w) = false -> storeAccepts e = true ->
  Forall (fun g => entry_id g <> id) (groceries (app w)) ->
  (groceries (app (deleteGrocery e id w)) = groceries (app w)
   /\ remoteField Kgroceries (userDoc e u) (remote (deleteGrocery e id w))
      = Value (groceries (app w))
   /\ remoteLastUpdated (userDoc e u) (remote (deleteGrocery e id w))
      = Value (now e))
  /\ (groceries (app (updateGrocery e id f w)) = groceries (app w)
      /\ remoteField Kgroceries (userDoc e u) (remote (updateGrocery e id f w))
         = Value (groceries (app w))
      /\ remoteLastUpdated (userDoc e u) (remote (updateGrocery e id f w))
         = Value (now e)).
Proof.
  intros Hu Hro Hok Hid.
  assert (List.filter (fun g => negb (String.eqb (entry_id g) id)) (groceries (app w))
          = groceries (app w)) as Hdel by apply filter_all, other_ids, Hid.
  assert (changed id f (groceries (app w)) = groceries (app w)) as Hupd.
  { unfold changed. clear Hdel. induction Hid as [|g l Hg _ IH]; [reflexivity|].
    simpl. apply String.eqb_neq in Hg. rewrite Hg, IH. reflexivity. }
  split.
  - unfold deleteGrocery. rewrite saveData_app. simpl. rewrite Hdel.
    rewrite (saveData_writes e _ _ _ _ _ u) by assumption.
    rewrite remoteField_setDocMerge_eq. unfold remoteLastUpdated, setDocMerge.
    rewrite lookup_insert_eq. repeat split.
  - fold (changed id f (groceries (app w))).
    unfold updateGrocery. rewrite saveData_app. simpl.
    fold (changed id f (groceries (app w))). rewrite Hupd.
    rewrite (saveData_writes e _ _ _ _ _ u) by assumption.
    rewrite remoteField_setDocMerge_eq. unfold remoteLastUpdated, setDocMerge.
    rewrite lookup_insert_eq. repeat split.
Qed.

Lemma checklist_absent_id_still_writes_example :
  remoteLastUpdated (userDoc Household.env Household.ann)
    (remote (deleteGrocery Household.env "nobody" Household.world))
  = Value 1700000000000%Z
  /\ groceries (app (deleteGrocery Household.env "nobody" Household.world))
     = [Household.milk].
Proof.
  destruct (checklist_absent_id_still_writes Household.env "nobody"
              (CompletedField true) Household.world Household.ann)
    as [(Hl & _ & Hstamp) _];
    [reflexivity | reflexivity | reflexivity | repeat constructor; discriminate |].
  split; [exact Hstamp | exact Hl].
Defined.

(** ** Items *)

Lemma itemCount_app (spaceId : string) (a b : list Item) :
  itemCount spaceId (a ++ b) = itemCount spaceId a + itemCount spaceId b.
Proof. unfold itemCount. rewrite List.filter_app, length_app. reflexivity. Qed.

(** X10.  [addItemToSpace] puts one item at the end of the collection: it
    belongs to the space, is called "New Item", has no options and takes
    the old length as its [order]; the badge of that space counts one more
    item, the badge of every other space counts what it counted, and the
    selection stays. *)
Theorem addItemToSpace_counts (e : Env) (spaceId : string) (w : World) :
  items (app (addItemToSpace e spaceId w))
  = items (app w)
    ++ [mkItem (randomUUID e 0) spaceId (Some "New Item") (Some []) None
          (length (items (app w)))]
  /\ itemCount spaceId (items (app (addItemToSpace e spaceId w)))
     = S (itemCount spaceId (items (app w)))
  /\ (forall other : string,
         other <> spaceId ->
         itemCount other (items (app (addItemToSpace e spaceId w)))
         = itemCount other (items (app w)))
  /\ selectedItem (app (addItemToSpace e spaceId w)) = selectedItem (app w).
Proof.
  unfold addItemToSpace. rewrite saveData_app. simpl.
  split; [reflexivity|]. rewrite !itemCount_app. unfold itemCount at 2. simpl.
  rewrite String.eqb_refl. simpl. split; [lia|]. split; [|reflexivity].
  intros other Hne. rewrite itemCount_app. unfold itemCount at 2. simpl.
  apply not_eq_sym, String.eqb_neq in Hne. rewrite Hne. simpl. lia.
Qed.

Lemma addItemToSpace_counts_example :
  itemCount "2" (items (app (addItemToSpace Household.env "2" Household.world))) = 2
  /\ itemCount "1" (items (app (addItemToSpace Household.env "2" Household.world)))
     = 1.
Proof.
  destruct (addItemToSpace_counts Household.env "2" Household.world)
    as (_ & Hsame & Hother & _).
  split; [rewrite Hsame; reflexivity|].
  rewrite (Hother "1") by discriminate. reflexivity.
Defined.

Lemma updateItem_lookup (e : Env) (itemId : string) (updates : ItemUpdates)
    (w : World) (n : nat) :
  items (app (updateItem e itemId updates w)) !! n
  = (fun i => if String.eqb (item_id i) itemId then spread i updates else i)
      <$> items (app w) !! n.
Proof.
  rewrite updateItem_items.
  change (map ?h ?l) with (fmap (M:=list) h l). apply list_lookup_fmap.
Qed.

(** X11.  [updateItem] keeps the place, the id, the space, the order and
    the image of every item and leaves an item with another id as it is; so
    it changes the badge of no space. *)
Theorem updateItem_keeps_identity (e : Env) (itemId : string)
    (updates : ItemUpdates) (w : World) :
  length (items (app (updateItem e itemId updates w))) = length (items (app w))
  /\ (forall (n : nat) (i : Item),
         items (app w) !! n = Some i ->
         exists i',
           items (app (updateItem e itemId updates w)) !! n = Some i'
           /\ item_id i' = item_id i
           /\ item_spaceId i' = item_spaceId i
           /\ item_order i' = item_order i
           /\ item_image i' = item_image i
           /\ (item_id i <> itemId -> i' = i))
  /\ (forall spaceId : string,
         itemCount spaceId (items (app (updateItem e itemId updates w)))
         = itemCount spaceId (items (app w))).
Proof.
  split; [rewrite updateItem_items; apply length_map|]. split.
  - intros n i Hn. rewrite updateItem_lookup, Hn. simpl.
    destruct (String.eqb (item_id i) itemId) eqn:E; eexists;
      (split; [reflexivity|]); repeat split.
    apply String.eqb_eq in E. intros H. contradiction.
  - intros spaceId. rewrite updateItem_items. unfold itemCount.
    induction (items (app w)) as [|i l IH]; [reflexivity|]. simpl.
    assert (item_spaceId
              (if String.eqb (item_id i) itemId then spread i updates else i)
            = item_spaceId i) as -> by (destruct (String.eqb _ _); reflexivity).
    destruct (String.eqb (item_spaceId i) spaceId); simpl; rewrite IH; reflexivity.
Qed.

(** X12.  When the open item is the item of the collection that carries
    its id, it still is after [updateItem], whatever the id and the update:
    the two copies get the same update. *)
Theorem updateItem_keeps_coherent (e : Env) (itemId : string)
    (updates : ItemUpdates) (w : World) :
  coherent (app w) -> coherent (app (updateItem e itemId updates w)).
Proof.
  intros Hc sel' i' Hsel' Hin' Hid'.
  rewrite updateItem_items in Hin'. apply in_map_iff in Hin' as [i [<- Hin]].
  unfold updateItem in Hsel'.
  destruct (selectedItem (app w)) as [sel|] eqn:Hsel.
  - destruct (String.eqb (item_id sel) itemId) eqn:E; simpl in Hsel'.
    + injection Hsel' as <-. apply String.eqb_eq in E.
      destruct (String.eqb (item_id i) itemId) eqn:Ei.
      * apply String.eqb_eq in Ei. f_equal. apply (Hc sel i Hsel Hin). congruence.
      * apply String.eqb_neq in Ei. simpl in Hid'. congruence.
    + rewrite saveData_app in Hsel'. simpl in Hsel'. rewrite Hsel in Hsel'.
      injection Hsel' as <-. apply String.eqb_neq in E.
      destruct (String.eqb (item_id i) itemId) eqn:Ei.
      * apply String.eqb_eq in Ei. simpl in Hid'. congruence.
      * apply (Hc _ i Hsel Hin Hid').
  - rewrite saveData_app in Hsel'. simpl in Hsel'. congruence.
Qed.

Lemma household_coherent : coherent (app Household.world).
Proof.
  intros sel i Hsel Hin Hid. injection Hsel as <-.
  destruct Hin as [<- | [<- | []]]; [reflexivity | discriminate Hid].
Qed.

Lemma updateItem_keeps_coherent_example :
  coherent (app (updateItem Household.env "i1" (nameUpdate "Couch") Household.world)).
Proof.
  apply (updateItem_keeps_coherent Household.env "i1" (nameUpdate "Couch")
           Household.world household_coherent).
Defined.

Lemma updateItem_keeps_identity_example :
  itemCount "1"
    (items (app (updateItem Household.env "i1" (optionsUpdate []) Household.world)))
  = 1.
Proof.
  destruct (updateItem_keeps_identity Household.env "i1" (optionsUpdate [])
              Household.world) as (_ & _ & Hcount).
  rewrite Hcount. reflexivity.
Defined.

(** ** Options of the open item *)

Section OptionLists.

Lemma filterIndex_ext {A} (keep keep' : nat -> bool) (k : nat) (l : list A) :
  (forall i, k <= i -> keep i = keep' i) ->
  filterIndex keep k l = filterIndex keep' k l.
Proof.
  revert k. induction l as [|x l IH]; intros k H; simpl; [reflexivity|].
  rewrite (H k) by lia. rewrite (IH (S k)); [reflexivity|].
  intros i Hi. apply H. lia.
Qed.

Lemma filterIndex_all {A} (keep : nat -> bool) (k : nat) (l : list A) :
  (forall i, k <= i -> keep i = true) -> filterIndex keep k l = l.
Proof.
  revert k. induction l as [|x l IH]; intros k H; simpl; [reflexivity|].
  rewrite (H k) by lia. rewrite (IH (S k)); [reflexivity|].
  intros i Hi. apply H. lia.
Qed.

(** The filter of the Trash button is the removal of slot [idx]. *)
Lemma filterIndex_delete {A} (k idx : nat) (l : list A) :
  filterIndex (fun i => negb (Nat.eqb i (k + idx))) k l = delete idx l.
Proof.
  revert k idx. induction l as [|x l IH]; intros k idx; [reflexivity|].
  simpl. destruct idx as [|idx].
  - rewrite Nat.add_0_r, Nat.eqb_refl. simpl. apply filterIndex_all.
    intros i Hi. apply negb_true_iff, Nat.eqb_neq. lia.
  - replace (Nat.eqb k (k + S idx)) with false
      by (symmetry; apply Nat.eqb_neq; lia).
    simpl. f_equal. rewrite <- (IH (S k) idx). apply filterIndex_ext.
    intros i _. f_equal. f_equal. lia.
Qed.

Lemma spliceIn_delete_same (i : nat) (x : Opt) (l : list Opt) :
  l !! i = Some x -> JS.spliceIn i x (delete i l) = l.
Proof.
  intros Hi. pose proof (lookup_lt_Some _ _ _ Hi) as Hlt.
  unfold JS.spliceIn. rewrite delete_take_drop.
  assert (length (take i l) = i) as Hlen by (rewrite length_take; lia).
  rewrite take_app_le, take_take, Nat.min_id by lia.
  rewrite drop_app_ge by lia. rewrite Hlen, Nat.sub_diag, drop_0.
  apply take_drop_middle, Hi.
Qed.

End OptionLists.

Lemma filterIndex_delete_0 {A} (idx : nat) (l : list A) :
  filterIndex (fun i => negb (Nat.eqb i idx)) 0 l = delete idx l.
Proof. apply (filterIndex_delete 0 idx l). Qed.

Lemma onDeleteOptionClick_run (e : Env) (idx : nat) (w : World) (sel : Item)
    (options : list Opt) :
  selectedItem (app w) = Some sel -> item_options sel = Some options ->
  onDeleteOptionClick e idx w
  = Some (updateItem e (item_id sel) (optionsUpdate (delete idx options)) w).
Proof.
  intros Hsel Hopts. unfold onDeleteOptionClick. rewrite Hsel, Hopts.
  rewrite (filterIndex_delete_0 idx options). reflexivity.
Qed.

Lemma updateItem_selectedOptions (e : Env) (w : World) (sel : Item) (l : list Opt) :
  selectedItem (app w) = Some sel ->
  selectedOptions (updateItem e (item_id sel) (optionsUpdate l) w) = l.
Proof.
  intros Hsel. unfold selectedOptions.
  rewrite (updateItem_selected _ _ _ _ sel Hsel eq_refl). reflexivity.
Qed.

(** X13.  The Trash button of option [idx] gives the open item its options
    without the one at [idx], the others in their order; with [idx] past
    the end the list is the same (and is still sent); the number of winners
    does not grow. *)
Theorem onDeleteOptionClick_deletes (e : Env) (idx : nat) (w : World) (sel : Item)
    (options : list Opt) :
  selectedItem (app w) = Some sel -> item_options sel = Some options ->
  exists w' : World,
    onDeleteOptionClick e idx w = Some w'
    /\ w' = updateItem e (item_id sel) (optionsUpdate (delete idx options)) w
    /\ selectedOptions w' = delete idx options
    /\ (idx < length options -> S (length (selectedOptions w')) = length options)
    /\ (length options <= idx -> selectedOptions w' = options)
    /\ countWinners (selectedOptions w') <= countWinners options.
Proof.
  intros Hsel Hopts. eexists. split; [apply (onDeleteOptionClick_run e idx w sel options Hsel Hopts)|].
  split; [reflexivity|]. rewrite (updateItem_selectedOptions e w sel _ Hsel).
  split; [reflexivity|]. split; [|split].
  - intros Hlt. destruct (lookup_lt_is_Some_2 options idx Hlt) as [x Hx].
    pose proof (length_delete options idx (ex_intro _ x Hx)). lia.
  - intros Hge. clear Hopts. revert idx Hge.
    induction options as [|x l IH]; intros idx Hge; [reflexivity|].
    destruct idx as [|idx]; simpl in *; [lia|]. f_equal. apply IH. lia.
  - rewrite <- (filterIndex_delete_0 idx options). apply countWinners_filterIndex.
Qed.

Lemma onDeleteOptionClick_deletes_example :
  exists w' : World,
    onDeleteOptionClick Household.env 1 Household.world = Some w'
    /\ selectedOptions w' = [Household.stockholm; Household.vintage].
Proof.
  destruct (onDeleteOptionClick_deletes Household.env 1 Household.world
              Household.sofa
              [Household.stockholm; Household.soderhamn; Household.vintage])
    as (w' & Hrun & _ & Hopts & _); [reflexivity | reflexivity |].
  exists w'. split; [exact Hrun | exact Hopts].
Defined.

(** X14.  Add Option followed by the Trash button of the option it added
    gives the open item the options it had. *)
Theorem add_then_delete_option (e e' : Env) (w : World) (sel : Item) :
  selectedItem (app w) = Some sel ->
  exists w1 w2 : World,
    onAddOptionClick e w = Some w1
    /\ selectedOptions w1
       = orNil (item_options sel) ++ [blankOption (randomUUID e 0)]
    /\ onDeleteOptionClick e' (length (orNil (item_options sel))) w1 = Some w2
    /\ selectedOptions w2 = orNil (item_options sel).
Proof.
  intros Hsel.
  pose (l1 := orNil (item_options sel) ++ [blankOption (randomUUID e 0)]).
  pose (w1 := updateItem e (item_id sel) (optionsUpdate l1) w).
  assert (selectedItem (app w1) = Some (spread sel (optionsUpdate l1))) as Hsel1
      by (apply updateItem_selected; [exact Hsel | reflexivity]).
  exists w1. eexists. split; [unfold onAddOptionClick; rewrite Hsel; reflexivity|].
  split; [apply (updateItem_selectedOptions e w sel l1 Hsel)|].
  split; [apply (onDeleteOptionClick_run e' _ w1 _ l1 Hsel1 eq_refl)|].
  rewrite (updateItem_selectedOptions e' w1 _ _ Hsel1).
  unfold l1. generalize (orNil (item_options sel)). intros l.
  induction l as [|x l IH]; [reflexivity|]. simpl. f_equal. exact IH.
Qed.

Lemma add_then_delete_option_example :
  exists w1 w2 : World,
    onAddOptionClick Household.env Household.world = Some w1
    /\ onDeleteOptionClick Household.env 3 w1 = Some w2
    /\ selectedOptions w2
       = [Household.stockholm; Household.soderhamn; Household.vintage].
Proof.
  destruct (add_then_delete_option Household.env Household.env Household.world
              Household.sofa eq_refl) as (w1 & w2 & H1 & _ & H2 & H3).
  exists w1, w2. split; [exact H1|]. split; [exact H2 | exact H3].
Defined.

Lemma handleOptionDrop_run (e : Env) (w : World) (sel : Item) (l : list Opt)
    (i j : nat) (x : Opt) :
  selectedItem (app w) = Some sel -> item_options sel = Some l ->
  draggedOptionIdx (app w) = Some i -> l !! i = Some x -> i <> j ->
  handleOptionDrop e j w
  = Some (onApp (setDraggedOptionIdx None)
            (updateItem e (item_id sel)
               (optionsUpdate (JS.spliceIn j x (delete i l))) w)).
Proof.
  intros Hsel Hopts Hdrag Hx Hne. unfold handleOptionDrop.
  apply Nat.eqb_neq in Hne. rewrite Hdrag, Hne, Hsel, Hopts.
  rewrite (moveOption_in_range i j l x Hx), allDefined_map_Some. reflexivity.
Qed.

(** X15.  Dragging an option from [i] to [j] and then from [j] back to
    [i] gives the open item the list it had. *)
Theorem drop_there_and_back (e e' : Env) (w : World) (sel : Item)
    (options : list Opt) (i j : nat) :
  selectedItem (app w) = Some sel -> item_options sel = Some options ->
  i < length options -> j < length options -> i <> j ->
  exists w1 w2 : World,
    handleOptionDrop e j (handleOptionDragStart i w) = Some w1
    /\ handleOptionDrop e' i (handleOptionDragStart j w1) = Some w2
    /\ selectedOptions w2 = options
    /\ draggedOptionIdx (app w2) = None.
Proof.
  intros Hsel Hopts Hi Hj Hne.
  destruct (lookup_lt_is_Some_2 options i Hi) as [x Hx].
  assert (length (delete i options) = length options - 1) as Hlen.
  { pose proof (length_delete options i (ex_intro _ x Hx)). lia. }
  pose (l1 := JS.spliceIn j x (delete i options)).
  pose (w0 := handleOptionDragStart i w).
  pose (w1 := onApp (setDraggedOptionIdx None)
                (updateItem e (item_id sel) (optionsUpdate l1) w0)).
  assert (selectedItem (app w1) = Some (spread sel (optionsUpdate l1))) as Hsel1.
  { unfold w1. simpl. apply updateItem_selected; [exact Hsel | reflexivity]. }
  assert (l1 !! j = Some x) as Hx1 by (apply spliceIn_lookup; lia).
  exists w1. eexists.
  split; [apply (handleOptionDrop_run e w0 sel options i j x Hsel Hopts eq_refl Hx Hne)|].
  split.
  { apply (handleOptionDrop_run e' (handleOptionDragStart j w1)
             (spread sel (optionsUpdate l1)) l1 j i x);
      [exact Hsel1 | reflexivity | reflexivity | exact Hx1 | congruence]. }
  split; [|reflexivity].
  assert (selectedItem (app (handleOptionDragStart j w1))
          = Some (spread sel (optionsUpdate l1))) as Hsel2 by exact Hsel1.
  unfold selectedOptions. cbn [onApp app].
  change (selectedItem (setDraggedOptionIdx None ?s)) with (selectedItem s).
  rewrite (updateItem_selected e' _ _ (handleOptionDragStart j w1) _ Hsel2 eq_refl).
  simpl. unfold l1. rewrite spliceIn_delete by lia.
  apply spliceIn_delete_same, Hx.
Qed.

Lemma drop_there_and_back_example :
  exists w1 w2 : World,
    handleOptionDrop Household.env 0
      (handleOptionDragStart 2 Household.world) = Some w1
    /\ handleOptionDrop Household.env 2 (handleOptionDragStart 0 w1) = Some w2
    /\ selectedOptions w2
       = [Household.stockholm; Household.soderhamn; Household.vintage].
Proof.
  destruct (drop_there_and_back Household.env Household.env Household.world
              Household.sofa
              [Household.stockholm; Household.soderhamn; Household.vintage] 2 0)
    as (w1 & w2 & H1 & H2 & H3 & _);
    [reflexivity | reflexivity | simpl; lia | simpl; lia | lia |].
  exists w1, w2. split; [exact H1|]. split; [exact H2 | exact H3].
Defined.

Lemma omap_Some (l : list Opt) : omap id (map Some l) = l.
Proof. induction l as [|x l IH]; [reflexivity|]. simpl. f_equal. exact IH. Qed.

(** X16.  A drop whose drag index lies past the end of the list (left from
    a drag that was given up, after the list became shorter) removes
    nothing and puts [undefined] into the array, at the drop index or at the
    end: the array is one slot longer and holds every option in its
    order. *)
Theorem moveOption_stale_index (d j : nat) (options : list Opt) :
  length options <= d ->
  moveOption d j options
  = take j (map Some options) ++ None :: drop j (map Some options)
  /\ length (moveOption d j options) = S (length options)
  /\ moveOption d j options !! (Nat.min j (length options)) = Some None
  /\ omap id (moveOption d j options) = options
  /\ allDefined (moveOption d j options) = None.
Proof.
  intros Hd.
  assert (moveOption d j options
          = take j (map Some options) ++ None :: drop j (map Some options)) as ->.
  { unfold moveOption, JS.spliceOut. cbv beta iota zeta.
    rewrite !drop_ge by (rewrite length_map; lia).
    rewrite app_nil_r, (take_ge (map Some options) d)
      by (rewrite length_map; lia). reflexivity. }
  split; [reflexivity|]. split; [|split; [|split]].
  - rewrite length_app. simpl. rewrite length_take, length_drop, length_map. lia.
  - apply list_lookup_middle. rewrite length_take, length_map. reflexivity.
  - rewrite omap_app. simpl. rewrite <- omap_app, take_drop. apply omap_Some.
  - apply allDefined_hole.
Qed.

Lemma moveOption_stale_index_example :
  moveOption 2 0 [Household.stockholm; Household.soderhamn]
  = [None; Some Household.stockholm; Some Household.soderhamn].
Proof.
  destruct (moveOption_stale_index 2 0 [Household.stockholm; Household.soderhamn])
    as [H _]; [simpl; lia|].
  rewrite H. reflexivity.
Defined.

(** X17.  The end of the read of an option image changes nothing and sends
    nothing when no item of the collection has the id or when the first
    such item has no option at the index.  Otherwise the option at the index
    gets the image read and keeps its id, model, price, store, link, notes
    and winner flag, the other options of that item are what they were, the
    list goes through [updateItem] to every item with the id, and the items
    are sent to the store. *)
Theorem optionImageLoaded_guards (e : Env) (itemId : string) (idx : nat)
    (result : option string) (w : World) :
  (Forall (fun i => item_id i <> itemId) (items (app w)) ->
   optionImageLoaded e itemId idx result w = w)
  /\ (forall item : Item,
         List.find (fun i => String.eqb (item_id i) itemId) (items (app w))
         = Some item ->
         (length (orNil (item_options item)) <= idx ->
          optionImageLoaded e itemId idx result w = w)
         /\ (forall o : Opt,
                orNil (item_options item) !! idx = Some o ->
                exists (newOptions : list Opt) (o' : Opt),
                  optionImageLoaded e itemId idx result w
                  = updateItem e itemId (optionsUpdate newOptions) w
                  /\ length newOptions = length (orNil (item_options item))
                  /\ (forall n : nat,
                         n <> idx ->
                         newOptions !! n = orNil (item_options item) !! n)
                  /\ newOptions !! idx = Some o'
                  /\ opt_image o' = result
                  /\ opt_id o' = opt_id o
                  /\ opt_model o' = opt_model o
                  /\ opt_price o' = opt_price o
                  /\ opt_store o' = opt_store o
                  /\ opt_link o' = opt_link o
                  /\ opt_notes o' = opt_notes o
                  /\ opt_winner o' = opt_winner o
                  /\ (forall it : Item,
                         In it (items (app (optionImageLoaded e itemId idx result w))) ->
                         item_id it = itemId ->
                         item_options it = Some newOptions)
                  /\ (forall sel : Item,
                         selectedItem (app w) = Some sel -> item_id sel = itemId ->
                         selectedOptions (optionImageLoaded e itemId idx result w)
                         = newOptions)
                  /\ (forall u : User,
                         user (app w) = Some u -> isReadOnly (app w) = false ->
                         storeAccepts e = true ->
                         remoteField Kitems (userDoc e u)
                           (remote (optionImageLoaded e itemId idx result w))
                         = Value
                             (items
                                (app (optionImageLoaded e itemId idx result w)))))).
Proof.
  split.
  - intros Hnone. unfold optionImageLoaded.
    destruct (find _ _) as [item|] eqn:Hfind; [|reflexivity].
    apply find_some in Hfind as [Hin Heq].
    rewrite List.Forall_forall in Hnone. apply String.eqb_eq in Heq.
    destruct (Hnone item Hin Heq).
  - intros item Hfind. unfold optionImageLoaded. rewrite Hfind. split.
    + intros Hge. rewrite (lookup_ge_None_2 _ _ Hge). reflexivity.
    + intros o Ho. rewrite Ho.
      exists (<[idx := setOptImage result o]> (orNil (item_options item))),
             (setOptImage result o).
      split; [reflexivity|]. split; [apply length_insert|].
      split; [intros n Hne; apply list_lookup_insert_ne; congruence|].
      split.
      { apply list_lookup_insert_eq. apply (lookup_lt_Some _ _ _ Ho). }
      do 8 (split; [reflexivity|]).
      split; [intros it Hin Hid; carried Hin Hid|].
      split.
      { intros sel Hsel Hid. unfold selectedOptions.
        rewrite (updateItem_selected e itemId _ w sel Hsel Hid). reflexivity. }
      intros u Hu Hro Hok. apply updateItem_persists; assumption.
Qed.

(** A photo for the vintage find: the option gets the image and is
    otherwise what it was, the two other options are untouched. *)
Lemma optionImageLoaded_guards_example :
  optionImageLoaded Household.env "i1" 7 (Some "data:image/png;base64,AAAA")
    Household.world = Household.world
  /\ optionImageLoaded Household.env "i9" 0 (Some "data:image/png;base64,AAAA")
       Household.world = Household.world
  /\ (exists o' : Opt,
         selectedOptions
           (optionImageLoaded Household.env "i1" 2
              (Some "data:image/png;base64,AAAA") Household.world) !! 2
         = Some o'
         /\ opt_image o' = Some "data:image/png;base64,AAAA"
         /\ opt_id o' = None
         /\ opt_model o' = Some "Vintage find"
         /\ opt_price o' = Some "300"
         /\ opt_store o' = Some "Flea Market")
  /\ selectedOptions
       (optionImageLoaded Household.env "i1" 2
          (Some "data:image/png;base64,AAAA") Household.world)
     = [mkOpt (Some "o1") (Some "Stockholm") (Some "1299") (Some "IKEA")
          (Some "") (Some "") (Some false) None;
        mkOpt (Some "o2") (Some "Soderhamn") (Some "899") (Some "Ikea Online")
          (Some "") (Some "") (Some true) None;
        mkOpt None (Some "Vintage find") (Some "300") (Some "Flea Market")
          None None None (Some "data:image/png;base64,AAAA")]
  /\ items
       (app (optionImageLoaded Household.env "i1" 2
               (Some "data:image/png;base64,AAAA") Household.world))
     = [mkItem "i1" "1" (Some "Sofa")
          (Some
             (selectedOptions
                (optionImageLoaded Household.env "i1" 2
                   (Some "data:image/png;base64,AAAA") Household.world)))
          None 0;
        Household.kettle].
Proof.
  destruct (optionImageLoaded_guards Household.env "i1" 7
              (Some "data:image/png;base64,AAAA") Household.world) as [_ Hfound].
  destruct (optionImageLoaded_guards Household.env "i9" 0
              (Some "data:image/png;base64,AAAA") Household.world) as [Hnone _].
  destruct (optionImageLoaded_guards Household.env "i1" 2
              (Some "data:image/png;base64,AAAA") Household.world) as [_ Hread].
  destruct (Hread Household.sofa eq_refl) as [_ Hset].
  destruct (Hset Household.vintage eq_refl)
    as (newOptions & o' & _ & _ & _ & Hidx & Himg & Hid & Hmodel & Hprice
        & Hstore & _ & _ & _ & _ & Hopen & _).
  split; [apply (Hfound Household.sofa eq_refl); simpl; lia|].
  split; [apply Hnone; repeat constructor; discriminate|].
  split.
  { exists o'. rewrite (Hopen Household.sofa eq_refl eq_refl).
    split; [exact Hidx|]. split; [exact Himg|]. split; [exact Hid|].
    split; [exact Hmodel|]. split; [exact Hprice | exact Hstore]. }
  split; reflexivity.
Defined.

(** ** Space images *)

(** X18.  Two space images picked in the same render: when the second read
    ends after the first, the spaces are what the second read alone would
    have made of them, in the cache and in the store; the image of the first
    is gone.  (When the second file is picked after the first read has
    ended, both images are kept.) *)
Theorem spaceImage_last_read_wins (e e' : Env) (a b : string)
    (ra rb : option string) (w : World)
    (first second : option string -> World -> World) :
  handleSpaceImageUpload e a true w = Some first ->
  handleSpaceImageUpload e' b true w = Some second ->
  spaces (app (second rb (first ra w))) = spaces (app (second rb w))
  /\ (a <> b ->
      forall (n : nat) (s : Space),
        spaces (app w) !! n = Some s -> space_id s = a ->
        spaces (app (second rb (first ra w))) !! n = Some s)
  /\ (forall u : User,
         user (app w) = Some u -> isReadOnly (app w) = false ->
         storeAccepts e' = true ->
         remoteField Kspaces (userDoc e' u) (remote (second rb (first ra w)))
         = Value (spaces (app (second rb w))))
  /\ (a <> b ->
      forall (later : option string -> World -> World) (n : nat) (s : Space),
        handleSpaceImageUpload e' b true (first ra w) = Some later ->
        spaces (app w) !! n = Some s -> space_id s = a ->
        spaces (app (later rb (first ra w))) !! n = Some (setSpaceImage ra s)).
Proof.
  intros Hfirst Hsecond. injection Hfirst as <-. injection Hsecond as <-.
  split; [reflexivity|]. split; [|split].
  - intros Hne n s Hn Hs. simpl.
    change (map ?h ?l) with (fmap (M:=list) h l).
    rewrite list_lookup_fmap, Hn. simpl.
    assert (String.eqb (space_id s) b = false) as ->
        by (apply String.eqb_neq; congruence).
    reflexivity.
  - intros u Hu Hro Hok. unfold spaceImageLoaded at 1. cbn [remote].
    rewrite (saveData_writes e' _ _ _ _ _ u) by assumption.
    rewrite remoteField_setDocMerge_eq. reflexivity.
  - intros Hne later n s Hlater Hn Hs. injection Hlater as <-. simpl.
    change (map ?h ?l) with (fmap (M:=list) h l).
    rewrite !list_lookup_fmap, Hn. simpl.
    apply String.eqb_eq in Hs as Hs'. rewrite Hs'. simpl.
    assert (String.eqb (space_id s) b = false) as ->
        by (apply String.eqb_neq; congruence).
    reflexivity.
Qed.

Lemma spaceImage_last_read_wins_example :
  map space_image
    (spaces
       (app (spaceImageLoaded Household.env (app Household.world) "2"
               (Some "data:kitchen")
               (spaceImageLoaded Household.env (app Household.world) "1"
                  (Some "data:living") Household.world))))
  = [None; Some "data:kitchen"; None; None; None; None; None].
Proof.
  destruct (spaceImage_last_read_wins Household.env Household.env "1" "2"
              (Some "data:living") (Some "data:kitchen") Household.world
              _ _ eq_refl eq_refl) as [H _].
  rewrite H. reflexivity.
Defined.

(** ** Search, continued *)

Section SearchFacts.

Context {F : JS.CaseFold}.

Lemma includes_empty (s : string) : JS.includes s "" = true.
Proof. destruct s; reflexivity. Qed.

Lemma append_assoc (a b c : string) :
  String.append (String.append a b) c = String.append a (String.append b c).
Proof.
  induction a as [|x a IH]; [reflexivity|].
  change (String x (String.append (String.append a b) c)
          = String x (String.append a (String.append b c))).
  f_equal. exact IH.
Qed.

(** An occurrence inside an occurrence is an occurrence. *)
Lemma includes_trans (t q q' : string) :
  JS.includes t q = true -> JS.includes q q' = true -> JS.includes t q' = true.
Proof.
  rewrite !includes_spec. intros (a & b & ->) (c & d & ->).
  exists (String.append a c), (String.append d b).
  rewrite !append_assoc. reflexivity.
Qed.

Lemma matchItem_narrow (i : Item) (q q' : string) :
  JS.includes (JS.toLowerCase q) (JS.toLowerCase q') = true ->
  matchItem i q = true -> matchItem i q' = true.
Proof.
  intros Hq. unfold matchItem. rewrite !orb_true_iff, !existsb_exists.
  intros [H | (opt & Hin & H)].
  - left. apply (includes_trans _ _ _ H Hq).
  - right. exists opt. split; [exact Hin|]. rewrite orb_true_iff in *.
    destruct H as [H | H]; [left | right]; apply (includes_trans _ _ _ H Hq).
Qed.

Lemma nonempty_app {A} (a b : list A) : nonempty (a ++ b) = nonempty a || nonempty b.
Proof. destruct a; reflexivity. Qed.

Lemma nonempty_concat_imap {A B} (f : nat -> A -> list B) (p : A -> bool)
    (l : list A) :
  (forall i x, nonempty (f i x) = p x) ->
  nonempty (concat (imap f l)) = existsb p l.
Proof.
  revert f. induction l as [|x l IH]; intros f H; [reflexivity|].
  simpl. rewrite nonempty_app, H, (IH (f ∘ S)); [reflexivity|].
  intros i y. apply H.
Qed.

Lemma length_concat_imap {A B} (f : nat -> A -> list B) (l : list A) :
  (forall i x, length (f i x) <= 1) -> length (concat (imap f l)) <= length l.
Proof.
  revert f. induction l as [|x l IH]; intros f H; [simpl; lia|].
  simpl. rewrite length_app. specialize (IH (f ∘ S) (fun i y => H (S i) y)).
  specialize (H 0 x). lia.
Qed.

Lemma optionReasons_nonempty (item : Item) (q : string) (idx : nat) (opt : Opt) :
  nonempty (optionReasons item q idx opt)
  = JS.includes (JS.toLowerCase (JS.orEmpty (opt_model opt))) q
    || JS.includes (JS.toLowerCase (JS.orEmpty (opt_store opt))) q.
Proof.
  unfold optionReasons.
  destruct (JS.includes (JS.toLowerCase (JS.orEmpty (opt_model opt))) q);
    [reflexivity|].
  destruct (JS.includes (JS.toLowerCase (JS.orEmpty (opt_store opt))) q);
    reflexivity.
Qed.

Lemma optionReasons_length (item : Item) (q : string) (idx : nat) (opt : Opt) :
  length (optionReasons item q idx opt) <= 1.
Proof.
  unfold optionReasons.
  destruct (JS.includes (JS.toLowerCase (JS.orEmpty (opt_model opt))) q);
    [simpl; lia|].
  destruct (JS.includes (JS.toLowerCase (JS.orEmpty (opt_store opt))) q);
    simpl; lia.
Qed.

End SearchFacts.

(** X19.  With an empty search text nothing is filtered: the item list,
    the space grid and the grocery list are the collections themselves, and
    no item has a match reason. *)
Theorem empty_query_shows_all {F : JS.CaseFold} (s : AppState) :
  searchQuery s = "" ->
  filteredItems s = items s
  /\ filteredSpaces s = spaces s
  /\ filteredGroceries s = groceries s
  /\ forall i : Item, getSearchMatches i (searchQuery s) = [].
Proof.
  intros Hq. unfold filteredItems, filteredSpaces, filteredGroceries, matchItem.
  rewrite Hq, (JS.toLowerCase_ascii "" eq_refl). simpl.
  split; [|split; [|split]]; try (intros i; reflexivity);
    apply filter_all, List.Forall_forall; intros x _;
    rewrite includes_empty; reflexivity.
Qed.

Lemma empty_query_shows_all_example :
  filteredItems (F := JS.asciiFold) Household.state
  = [Household.sofa; Household.kettle]
  /\ filteredSpaces (F := JS.asciiFold) Household.state = DEFAULT_SPACES.
Proof.
  destruct (empty_query_shows_all (F := JS.asciiFold) Household.state eq_refl)
    as (Hi & Hs & _).
  rewrite Hi, Hs. split; reflexivity.
Defined.

(** X20.  A search text whose lower-cased form occurs in the lower-cased
    present one finds every item, space and grocery the present one finds.
    When the present text is ASCII this holds for every text that equals a
    stretch of it up to the case of the letters: shortening an ASCII search
    text never hides a result. *)
Theorem shorter_query_finds_more {F : JS.CaseFold} (s : AppState) (q' : string) :
  ciSubstring q' (searchQuery s)
  \/ (JS.isAsciiText (searchQuery s) = true
      /\ occursIgnoringCase q' (searchQuery s)) ->
  (forall i : Item,
      In i (filteredItems s) -> In i (filteredItems (setSearchQuery q' s)))
  /\ (forall sp : Space,
         In sp (filteredSpaces s) -> In sp (filteredSpaces (setSearchQuery q' s)))
  /\ (forall g : Entry,
         In g (filteredGroceries s) ->
         In g (filteredGroceries (setSearchQuery q' s))).
Proof.
  intros Hq.
  assert (JS.includes (JS.toLowerCase (searchQuery s)) (JS.toLowerCase q') = true)
    as Hinc.
  { apply includes_lower. destruct Hq as [Hq | [Ha Hq]]; [exact Hq|].
    apply ciSubstring_ascii; [|exact Ha|exact Hq].
    destruct Hq as (pre & m & post & Hs & Hm).
    rewrite Hs, !isAsciiText_app, !andb_true_iff in Ha.
    apply (equalIgnoringCase_ascii m q' Hm). apply Ha. }
  clear Hq. rename Hinc into Hq.
  unfold filteredItems, filteredSpaces, filteredGroceries. simpl.
  split; [|split].
  - intros i. rewrite !filter_In. intros [Hin H]. split; [exact Hin|].
    apply (matchItem_narrow i _ q' Hq H).
  - intros sp. rewrite !filter_In. intros [Hin H]. split; [exact Hin|].
    rewrite orb_true_iff in *. destruct H as [H | H].
    + left. apply (includes_trans _ _ _ H Hq).
    + right. rewrite existsb_exists in *. destruct H as (i & Hi & H).
      exists i. split; [exact Hi|]. rewrite andb_true_iff in *.
      destruct H as [H1 H2]. split; [exact H1|].
      apply (matchItem_narrow i _ q' Hq H2).
  - intros g. rewrite !filter_In. intros [Hin H]. split; [exact Hin|].
    apply (includes_trans _ _ _ H Hq).
Qed.

Lemma shorter_query_finds_more_example :
  In Household.sofa
    (filteredItems (F := JS.asciiFold) (setSearchQuery "FLE" Household.searching))
  /\ filteredItems (F := JS.asciiFold) Household.searching = [Household.sofa].
Proof.
  destruct (shorter_query_finds_more (F := JS.asciiFold) Household.searching "FLE")
    as [Hitems _].
  - right. split; [reflexivity|]. exists "", "fle", "a".
    split; [reflexivity|]. simpl.
    repeat (split; [right; right; split; reflexivity|]). exact I.
  - split; [|reflexivity].
    apply Hitems. apply filter_In. split; [left; reflexivity | reflexivity].
Defined.

(** X21.  For a search text that is not empty, an item has a match reason
    exactly when the filter keeps it; every option gives at most one reason
    (its model before its store), so an item has at most one reason more
    than it has options. *)
Theorem reasons_agree_with_filter {F : JS.CaseFold} (i : Item) (query : string) :
  (query <> "" -> (getSearchMatches i query <> [] <-> matchItem i query = true))
  /\ length (getSearchMatches i query) <= 1 + length (orNil (item_options i))
  /\ (forall (idx : nat) (opt : Opt),
         JS.includes (JS.toLowerCase (JS.orEmpty (opt_model opt)))
           (JS.toLowerCase query) = true ->
         map match_type (optionReasons i (JS.toLowerCase query) idx opt)
         = [OPTION])
  /\ (forall (idx : nat) (opt : Opt),
         JS.includes (JS.toLowerCase (JS.orEmpty (opt_model opt)))
           (JS.toLowerCase query) = false ->
         JS.includes (JS.toLowerCase (JS.orEmpty (opt_store opt)))
           (JS.toLowerCase query) = true ->
         map match_type (optionReasons i (JS.toLowerCase query) idx opt)
         = [STORE]).
Proof.
  split; [|split; [|split]].
  - intros Hq. apply String.eqb_neq in Hq.
    assert (nonempty (getSearchMatches i query) = matchItem i query) as H.
    { unfold getSearchMatches, matchItem. rewrite Hq, nonempty_app.
      rewrite (nonempty_concat_imap _ _ _ (optionReasons_nonempty i _)).
      destruct (JS.includes _ _); reflexivity. }
    rewrite <- H. destruct (getSearchMatches i query); simpl; split;
      congruence.
  - unfold getSearchMatches. destruct (String.eqb query ""); [simpl; lia|].
    rewrite length_app.
    pose proof (length_concat_imap (optionReasons i (JS.toLowerCase query))
                  (orNil (item_options i)) (optionReasons_length i _)).
    destruct (JS.includes _ _); simpl; lia.
  - intros idx opt Hm. unfold optionReasons. rewrite Hm. reflexivity.
  - intros idx opt Hm Hs. unfold optionReasons. rewrite Hm, Hs. reflexivity.
Qed.

Lemma reasons_agree_with_filter_example :
  map match_type (getSearchMatches (F := JS.asciiFold) Household.sofa "ikea")
  = [STORE; STORE]
  /\ map match_id (getSearchMatches (F := JS.asciiFold) Household.sofa "ikea")
     = ["store-i1-0"; "store-i1-1"]
  /\ matchItem (F := JS.asciiFold) Household.sofa "ikea" = true.
Proof.
  destruct (reasons_agree_with_filter (F := JS.asciiFold) Household.sofa "ikea")
    as [H _].
  split; [reflexivity|]. split; [reflexivity|].
  apply H; [discriminate|]. discriminate.
Defined.

(** ** The sync engine, continued *)

(** X22.  Round trip through the store: after a [saveData] that is written,
    the snapshot of the user's document puts into the cache every collection
    that was given, as given; a collection that was not given comes from the
    document as it was, or stays when the document does not have it. *)
Theorem save_then_snapshot (e e' : Env) (shareId : option string)
    (newSpaces : field (list Space)) (newItems : field (list Item))
    (newGroceries newRepairs : field (list Entry)) (w : World) (u : User) :
  user (app w) = Some u -> isReadOnly (app w) = false ->
  storeAccepts e = true -> JS.truthyStr shareId = false -> appId e' = appId e ->
  forall k : Key,
    localField k
      (app (deliverSnapshot e' shareId
              (saveData e newSpaces newItems newGroceries newRepairs w)))
    = match saveArg k newSpaces newItems newGroceries newRepairs with
      | Value v => v
      | _ =>
          match remoteField k (userDoc e u) (remote w) with
          | Value v => v
          | _ => localField k (app w)
          end
      end.
Proof.
  intros Hu Hro Hok Hshare Happ k. unfold deliverSnapshot.
  rewrite saveData_app, Hu. unfold onApp. cbn [app].
  rewrite onSnapshot_field, saveData_app.
  assert (docPath e' shareId u = userDoc e u) as ->
      by (unfold docPath, userDoc; rewrite Hshare, Happ; reflexivity).
  change (snapshotField k (?r !! userDoc e u)) with (remoteField k (userDoc e u) r).
  rewrite (saveData_writes e _ _ _ _ w u Hu Hro Hok).
  rewrite remoteField_setDocMerge_eq, saveUpdates_field.
  destruct (saveArg k newSpaces newItems newGroceries newRepairs); reflexivity.
Qed.

Lemma save_then_snapshot_example :
  items (app (deliverSnapshot Household.env None
                (saveData Household.env Null (Value [Household.kettle]) Null
                   Undefined Household.world)))
  = [Household.kettle]
  /\ groceries (app (deliverSnapshot Household.env None
                       (saveData Household.env Null (Value [Household.kettle])
                          Null Undefined Household.world)))
     = [Household.milk].
Proof.
  pose proof (save_then_snapshot Household.env Household.env None Null
                (Value [Household.kettle]) Null Undefined Household.world
                Household.ann eq_refl eq_refl eq_refl eq_refl eq_refl) as H.
  split; [apply (H Kitems) | apply (H Kgroceries)].
Defined.

(** X23.  Two writes in a row: in the user's document a collection reads
    as the second [saveData] gave it, else as the first gave it, else as it
    read before; [lastUpdated] is the time of the second. *)
Theorem save_twice (e1 e2 : Env) (s1 s2 : field (list Space))
    (i1 i2 : field (list Item)) (g1 g2 r1 r2 : field (list Entry))
    (w : World) (u : User) :
  user (app w) = Some u -> isReadOnly (app w) = false ->
  storeAccepts e1 = true -> storeAccepts e2 = true -> appId e2 = appId e1 ->
  (forall k : Key,
      remoteField k (userDoc e1 u)
        (remote (saveData e2 s2 i2 g2 r2 (saveData e1 s1 i1 g1 r1 w)))
      = match saveArg k s2 i2 g2 r2 with
        | Value v => Value v
        | _ =>
            match saveArg k s1 i1 g1 r1 with
            | Value v => Value v
            | _ => remoteField k (userDoc e1 u) (remote w)
            end
        end)
  /\ remoteLastUpdated (userDoc e1 u)
       (remote (saveData e2 s2 i2 g2 r2 (saveData e1 s1 i1 g1 r1 w)))
     = Value (now e2).
Proof.
  intros Hu Hro Hok1 Hok2 Happ.
  assert (userDoc e2 u = userDoc e1 u) as Hdoc
      by (unfold userDoc; rewrite Happ; reflexivity).
  rewrite (saveData_writes e2 s2 i2 g2 r2 _ u)
    by (rewrite ?saveData_app; assumption).
  rewrite (saveData_writes e1 s1 i1 g1 r1 w u Hu Hro Hok1), Hdoc. split.
  - intros k. rewrite !remoteField_setDocMerge_eq, !saveUpdates_field.
    destruct (saveArg k s2 i2 g2 r2), (saveArg k s1 i1 g1 r1); reflexivity.
  - unfold remoteLastUpdated, setDocMerge. rewrite lookup_insert_eq. reflexivity.
Qed.

Lemma save_twice_example :
  remoteField Kgroceries (userDoc Household.env Household.ann)
    (remote (saveData Household.env Null (Value [Household.kettle]) Null Undefined
               (saveData Household.env Null Null (Value []) Null Household.world)))
  = Value []
  /\ remoteField Kspaces (userDoc Household.env Household.ann)
       (remote (saveData Household.env Null (Value [Household.kettle]) Null
                  Undefined
                  (saveData Household.env Null Null (Value []) Null
                     Household.world)))
     = Value DEFAULT_SPACES.
Proof.
  destruct (save_twice Household.env Household.env Null Null Null
              (Value [Household.kettle]) (Value []) Null Null Undefined
              Household.world Household.ann eq_refl eq_refl eq_refl eq_refl
              eq_refl) as [H _].
  split; [apply (H Kgroceries) | apply (H Kspaces)].
Defined.

(** X24.  A share link with a non-empty id makes the session read-only
    and points the subscription at [artifacts/<appId>/public/data/shares/<id>];
    from there on no run of events changes the store.  Without the
    parameter, or with an empty one, the effect does nothing and the
    subscription is on the user's own document. *)
Theorem share_link_session (shareId : option string) (w : World) :
  (JS.truthyStr shareId = true ->
   isReadOnly (shareLinkEffect shareId (app w)) = true
   /\ (forall (e : Env) (u : User),
          docPath e shareId u
          = ["artifacts"; appId e; "public"; "data"; "shares"; JS.orEmpty shareId])
   /\ (forall (evs : list (Env * Event)) (w' : World),
          run shareId evs (onApp (shareLinkEffect shareId) w) = Some w' ->
          remote w' = remote w /\ isReadOnly (app w') = true))
  /\ (JS.truthyStr shareId = false ->
      shareLinkEffect shareId (app w) = app w
      /\ forall (e : Env) (u : User), docPath e shareId u = userDoc e u).
Proof.
  split; intros Hs; unfold shareLinkEffect, docPath; rewrite Hs.
  - split; [reflexivity|]. split; [reflexivity|].
    intros evs w' Hrun.
    destruct (run_guarded shareId evs (onApp (setIsReadOnly true) w) w'
                (or_intror eq_refl) Hrun) as (Hr & _ & Hro).
    split; [exact Hr | exact Hro].
  - split; reflexivity.
Qed.

Lemma share_link_session_example :
  exists w' : World,
    run (Some "s1") Household.evening
      (onApp (shareLinkEffect (Some "s1")) Household.world) = Some w'
    /\ remote w' = Household.store.
Proof.
  destruct (run (Some "s1") Household.evening
              (onApp (shareLinkEffect (Some "s1")) Household.world))
    as [w'|] eqn:Hrun; [|vm_compute in Hrun; discriminate Hrun].
  exists w'. split; [reflexivity|].
  destruct (share_link_session (Some "s1") Household.world) as [Hshare _].
  destruct (Hshare eq_refl) as (_ & _ & Hrunning).
  apply (Hrunning Household.evening w' Hrun).
Defined.

(** ** Editing an option *)

(** X25.  Typing into an input of option [idx] of the open item changes
    that one property of that one option: the property holds the text
    typed, the four other texts, the id, the winner flag and the image of
    the option are what they were, the list keeps its length and its other
    options, and the items of the collection with the id of the open item
    carry the list.  For an index without an option the handler throws and
    nothing is changed. *)
Theorem onOptionFieldChange_pointwise (e : Env) (idx : nat) (f : OptField)
    (value : string) (w : World) (sel : Item) (options : list Opt) :
  selectedItem (app w) = Some sel -> item_options sel = Some options ->
  (forall o : Opt,
      options !! idx = Some o ->
      exists (w' : World) (o' : Opt),
        onOptionFieldChange e idx f value w = Some w'
        /\ length (selectedOptions w') = length options
        /\ (forall n : nat, n <> idx -> selectedOptions w' !! n = options !! n)
        /\ selectedOptions w' !! idx = Some o'
        /\ opt_model o'
           = match f with ModelField => Some value | _ => opt_model o end
        /\ opt_price o'
           = match f with PriceField => Some value | _ => opt_price o end
        /\ opt_store o'
           = match f with StoreField => Some value | _ => opt_store o end
        /\ opt_link o'
           = match f with LinkField => Some value | _ => opt_link o end
        /\ opt_notes o'
           = match f with NotesField => Some value | _ => opt_notes o end
        /\ opt_id o' = opt_id o
        /\ opt_winner o' = opt_winner o
        /\ opt_image o' = opt_image o
        /\ (forall it : Item,
               In it (items (app w')) -> item_id it = item_id sel ->
               item_options it = Some (selectedOptions w'))
        /\ countWinners (selectedOptions w') = countWinners options)
  /\ (length options <= idx -> onOptionFieldChange e idx f value w = None).
Proof.
  intros Hsel Hopts. unfold onOptionFieldChange. rewrite Hsel, Hopts. split.
  - intros o Ho. rewrite Ho.
    exists (updateItem e (item_id sel)
              (optionsUpdate (<[idx := setOptField f value o]> options)) w),
           (setOptField f value o).
    split; [reflexivity|].
    rewrite (updateItem_selectedOptions e w sel _ Hsel).
    split; [apply length_insert|].
    split; [intros n Hn; apply list_lookup_insert_ne; congruence|].
    split.
    { apply list_lookup_insert_eq. apply (lookup_lt_Some _ _ _ Ho). }
    do 8 (split; [destruct f; reflexivity|]).
    split; [intros it Hin Hid; carried Hin Hid|].
    apply (countWinners_insert idx o _ options Ho). destruct f; reflexivity.
  - intros Hge. rewrite (lookup_ge_None_2 _ _ Hge). reflexivity.
Qed.

(** A new price for the first option of the sofa, then a new store for the
    second. *)
Lemma onOptionFieldChange_pointwise_example :
  exists w' : World,
    onOptionFieldChange Household.env 0 PriceField "1199" Household.world = Some w'
    /\ selectedOptions w'
       = [mkOpt (Some "o1") (Some "Stockholm") (Some "1199") (Some "IKEA")
            (Some "") (Some "") (Some false) None;
          mkOpt (Some "o2") (Some "Soderhamn") (Some "899") (Some "Ikea Online")
            (Some "") (Some "") (Some true) None;
          mkOpt None (Some "Vintage find") (Some "300") (Some "Flea Market")
            None None None None]
    /\ items (app w')
       = [mkItem "i1" "1" (Some "Sofa") (Some (selectedOptions w')) None 0;
          Household.kettle]
    /\ option_map selectedOptions
         (onOptionFieldChange Household.env 1 StoreField "Outlet" w')
       = Some
           [mkOpt (Some "o1") (Some "Stockholm") (Some "1199") (Some "IKEA")
              (Some "") (Some "") (Some false) None;
            mkOpt (Some "o2") (Some "Soderhamn") (Some "899") (Some "Outlet")
              (Some "") (Some "") (Some true) None;
            mkOpt None (Some "Vintage find") (Some "300") (Some "Flea Market")
              None None None None]
    /\ onOptionFieldChange Household.env 3 PriceField "1199" Household.world = None.
Proof.
  destruct (onOptionFieldChange_pointwise Household.env 0 PriceField "1199"
              Household.world Household.sofa
              [Household.stockholm; Household.soderhamn; Household.vintage]
              eq_refl eq_refl) as [Hin _].
  destruct (Hin Household.stockholm eq_refl) as (w' & o' & Hrun & _).
  exists w'. split; [exact Hrun|]. injection Hrun as <-.
  repeat split.
Defined.

(** ** Item image and item name *)

Lemma itemImageLoaded_items (e : Env) (itemId : string) (result : option string)
    (w : World) :
  items (app (itemImageLoaded e itemId result w))
  = map (fun i => if String.eqb (item_id i) itemId then setItemImage result i else i)
        (items (app w)).
Proof.
  unfold itemImageLoaded. rewrite saveData_app.
  destruct (selectedItem (app w)) as [sel|];
    [destruct (String.eqb (item_id sel) itemId)|]; reflexivity.
Qed.

Lemma itemImageLoaded_selected (e : Env) (itemId : string) (result : option string)
    (w : World) :
  selectedItem (app (itemImageLoaded e itemId result w))
  = match selectedItem (app w) with
    | Some sel =>
        if String.eqb (item_id sel) itemId
        then Some (setItemImage result sel) else Some sel
    | None => None
    end.
Proof.
  unfold itemImageLoaded. rewrite saveData_app.
  destruct (selectedItem (app w)) as [sel|] eqn:Hsel;
    [destruct (String.eqb (item_id sel) itemId)|]; simpl; try reflexivity;
    exact Hsel.
Qed.

(** X26.  When the read of an item image ends (before any other event),
    every item with the id, and the open item if it has the id, gets the
    image and keeps its name, options, space and order; the other items are
    unchanged; the open item is still the item of the collection with its
    id if it was; and the collection is sent to the store. *)
Theorem itemImageLoaded_sets_image (e : Env) (itemId : string)
    (result : option string) (w : World) :
  (forall (n : nat) (i : Item),
      items (app w) !! n = Some i ->
      exists i',
        items (app (itemImageLoaded e itemId result w)) !! n = Some i'
        /\ item_id i' = item_id i /\ item_name i' = item_name i
        /\ item_options i' = item_options i /\ item_spaceId i' = item_spaceId i
        /\ item_order i' = item_order i
        /\ (item_id i = itemId -> item_image i' = result)
        /\ (item_id i <> itemId -> i' = i))
  /\ (forall sel : Item,
         selectedItem (app w) = Some sel -> item_id sel = itemId ->
         selectedItem (app (itemImageLoaded e itemId result w))
         = Some (setItemImage result sel))
  /\ (coherent (app w) -> coherent (app (itemImageLoaded e itemId result w)))
  /\ (forall u : User,
         user (app w) = Some u -> isReadOnly (app w) = false ->
         storeAccepts e = true ->
         remoteField Kitems (userDoc e u) (remote (itemImageLoaded e itemId result w))
         = Value (items (app (itemImageLoaded e itemId result w)))).
Proof.
  split; [|split; [|split]].
  - intros n i Hn. rewrite itemImageLoaded_items.
    change (map ?h ?l) with (fmap (M:=list) h l).
    rewrite list_lookup_fmap, Hn. simpl.
    destruct (String.eqb (item_id i) itemId) eqn:E; eexists;
      (split; [reflexivity|]); repeat split.
    + apply String.eqb_eq in E. intros H. contradiction.
    + apply String.eqb_neq in E. intros H. contradiction.
  - intros sel Hsel Hid. rewrite itemImageLoaded_selected, Hsel.
    apply String.eqb_eq in Hid. rewrite Hid. reflexivity.
  - intros Hc sel' i' Hsel' Hin' Hid'.
    rewrite itemImageLoaded_items in Hin'. apply in_map_iff in Hin' as [i [<- Hin]].
    rewrite itemImageLoaded_selected in Hsel'.
    destruct (selectedItem (app w)) as [sel|] eqn:Hsel; [|discriminate Hsel'].
    destruct (String.eqb (item_id sel) itemId) eqn:E; injection Hsel' as <-.
    + apply String.eqb_eq in E. destruct (String.eqb (item_id i) itemId) eqn:Ei.
      * apply String.eqb_eq in Ei. f_equal. apply (Hc sel i Hsel Hin). congruence.
      * apply String.eqb_neq in Ei. simpl in Hid'. congruence.
    + apply String.eqb_neq in E. destruct (String.eqb (item_id i) itemId) eqn:Ei.
      * apply String.eqb_eq in Ei. simpl in Hid'. congruence.
      * apply (Hc _ i Hsel Hin Hid').
  - intros u Hu Hro Hok.
    destruct (itemImageLoaded_edits e itemId result w) as (Hr & _).
    rewrite Hr. apply (saveKey_written e Kitems _ w u Hu Hro Hok).
Qed.

Lemma itemImageLoaded_sets_image_example :
  selectedItem (app (itemImageLoaded Household.env "i1" (Some "data:sofa")
                       Household.world))
  = Some (setItemImage (Some "data:sofa") Household.sofa)
  /\ coherent (app (itemImageLoaded Household.env "i1" (Some "data:sofa")
                      Household.world)).
Proof.
  destruct (itemImageLoaded_sets_image Household.env "i1" (Some "data:sofa")
              Household.world) as (_ & Hsel & Hc & _).
  split; [apply (Hsel Household.sofa); reflexivity | apply Hc, household_coherent].
Defined.

Lemma includes_refl (s : string) : JS.includes s s = true.
Proof.
  apply includes_spec. exists "", "". simpl.
  induction s as [|c s IH]; [reflexivity|].
  change (String c s = String c (String.append s "")). f_equal. exact IH.
Qed.

(** X27.  After the name input of the open item was set to a text, the
    open item and every item of the collection with its id carry that name,
    and a search for that text finds them. *)
Theorem renamed_item_is_found {F : JS.CaseFold} (e : Env) (value : string)
    (w : World) (sel : Item) :
  selectedItem (app w) = Some sel ->
  exists w' : World,
    onItemNameChange e value w = Some w'
    /\ selectedItem (app w') = Some (spread sel (nameUpdate value))
    /\ (forall i : Item,
           In i (items (app w')) -> item_id i = item_id sel ->
           item_name i = Some value /\ matchItem i value = true)
    /\ (forall i : Item,
           In i (items (app w')) -> item_id i = item_id sel ->
           In i (filteredItems (setSearchQuery value (app w')))).
Proof.
  intros Hsel. eexists. split; [unfold onItemNameChange; rewrite Hsel; reflexivity|].
  split; [apply updateItem_selected; [exact Hsel | reflexivity]|].
  assert (forall i : Item,
             In i (items (app (updateItem e (item_id sel) (nameUpdate value) w))) ->
             item_id i = item_id sel ->
             item_name i = Some value /\ matchItem i value = true) as Hfound.
  { intros i Hin Hid.
    destruct (updateItem_in_collection _ _ _ _ _ Hin Hid) as (i0 & _ & _ & ->).
    split; [reflexivity|]. unfold matchItem. simpl. rewrite includes_refl.
    reflexivity. }
  split; [exact Hfound|].
  intros i Hin Hid. unfold filteredItems. simpl. apply filter_In.
  split; [exact Hin | apply (Hfound i Hin Hid)].
Qed.

Lemma renamed_item_is_found_example :
  exists w' : World,
    onItemNameChange Household.env "Corner Couch" Household.world = Some w'
    /\ map item_name
         (filteredItems (F := JS.asciiFold)
            (setSearchQuery "Corner Couch" (app w')))
       = [Some "Corner Couch"].
Proof.
  destruct (renamed_item_is_found (F := JS.asciiFold) Household.env
              "Corner Couch" Household.world Household.sofa eq_refl)
    as (w' & Hrun & _).
  exists w'. split; [exact Hrun|]. injection Hrun as <-. reflexivity.
Defined.
